(** * Paste service: creation / retrieval pipeline

    A shallow embedding of the server side of the pastebin:

    - [Hashids] and [generateSlug] / [decodeSlug]   (lib/hashids)
    - the Redis-backed rate limiter [rateLimit]      (lib/rate-limit)
    - the Zod schema and the validators              (lib/schemas, lib/validators)
    - [PasteDAO], [PasteRepository], the service     (lib/db, lib/services)
    - the two HTTP handlers [POST] and [GET]         (app/api/pastes)
    - the inline handler [Inline.POST]               (app/api/pastes)
    - the history of the browser, [PasteHistory]     (lib/storage)

    Each part names the file of the tree it is taken from.

    Asynchronous calls are sequentialised: every [await] is a step of the
    state-and-exception monad [M] over a [World] that holds the clock, the
    Redis keyspace and the [pastes] table. *)

From Stdlib Require Import ZArith NArith Ascii String Lia.
From stdpp Require Import gmap strings list sorting.

Open Scope Z_scope.

(* ================================================================= *)
(** ** JavaScript strings *)

(** Identifiers, messages and keys are ASCII and kept as [string].  The
    paste body is the one string whose UTF-16 length and UTF-8 byte length
    both matter; it is kept as its sequence of UTF-16 code units. *)
Abbreviation ustring := (list N).

Definition ustr (s : string) : ustring :=
  map N_of_ascii (list_ascii_of_string s).

Definition isHighSurrogate (u : N) : bool := ((0xD800 <=? u) && (u <=? 0xDBFF))%N.
Definition isLowSurrogate (u : N) : bool := ((0xDC00 <=? u) && (u <=? 0xDFFF))%N.

(** [new TextEncoder().encode(s).length]: a surrogate pair encodes one
    supplementary code point on four bytes, a lone surrogate is replaced by
    U+FFFD (three bytes). *)
Fixpoint utf8Length (s : ustring) : N :=
  match s with
  | [] => 0
  | u :: rest =>
      if (u <? 0x80)%N then 1 + utf8Length rest
      else if (u <? 0x800)%N then 2 + utf8Length rest
      else if isHighSurrogate u then
        match rest with
        | lo :: rest' =>
            if isLowSurrogate lo then 4 + utf8Length rest'
            else 3 + utf8Length rest
        | [] => 3
        end
      else 3 + utf8Length rest
  end%N.

(** White space and line terminators removed by [String.prototype.trim]. *)
Definition isWhiteSpace (u : N) : bool :=
  ((9 <=? u) && (u <=? 13) || (u =? 32) || (u =? 0xA0) || (u =? 0x1680)
   || (0x2000 <=? u) && (u <=? 0x200A) || (u =? 0x2028) || (u =? 0x2029)
   || (u =? 0x202F) || (u =? 0x205F) || (u =? 0x3000) || (u =? 0xFEFF))%N.

Fixpoint trimStart (s : ustring) : ustring :=
  match s with
  | u :: rest => if isWhiteSpace u then trimStart rest else s
  | [] => []
  end.

Definition trim (s : ustring) : ustring :=
  reverse (trimStart (reverse (trimStart s))).

(** [haystack.includes(needle)] on ASCII strings. *)
Fixpoint startsWith (needle haystack : string) : bool :=
  match needle, haystack with
  | EmptyString, _ => true
  | String a n', String b h' => bool_decide (a = b) && startsWith n' h'
  | String _ _, EmptyString => false
  end.

Fixpoint str_includes (haystack needle : string) : bool :=
  startsWith needle haystack ||
  match haystack with
  | EmptyString => false
  | String _ h' => str_includes h' needle
  end.

(* ================================================================= *)
(** ** Results and exceptions *)

(** Exceptions of the server code: a [ZodError] with its issues, or a plain
    [Error] with its message. *)
Record ZodIssue := { issue_path : string; issue_message : string }.

Inductive Exn :=
| ZodError (issues : list ZodIssue)
| Error (message : string).

Inductive Res (A : Type) :=
| Ok (a : A)
| Throw (e : Exn).
Arguments Ok {A} a.
Arguments Throw {A} e.

(* ================================================================= *)
(** ** The [hashids] package *)

(** src/lib/hashids.ts builds its encoder with [new Hashids(salt, 6,
    alphabet)].  The package itself is a dependency whose sources are not
    part of the repository tree; the functions below follow its published
    implementation (util.ts and hashids.ts of hashids.js 2.x), name by
    name, and are run further down on the package's documented examples. *)
Module Hashids.

Definition codePointAt (c : ascii) : N := N_of_ascii c.

(** [transformed[j] = a; transformed[i] = b] with [a], [b] the old
    entries at [i] and [j]. *)
Definition swap (l : list ascii) (i j : nat) : list ascii :=
  match l !! i, l !! j with
  | Some a, Some b => <[i:=b]> (<[j:=a]> l)
  | _, _ => l
  end.

(** The body of [for (i = length - 1, v = 0, p = 0; i > 0; i--, v++)]. *)
Fixpoint shuffle_loop (saltChars : list N) (i : nat) (v p : N)
    (transformed : list ascii) : list ascii :=
  match i with
  | O => transformed
  | S i' =>
      let v := (v mod N.of_nat (length saltChars))%N in
      let integer := nth (N.to_nat v) saltChars 0%N in
      let p := (p + integer)%N in
      let j := N.to_nat ((integer + v + p) mod N.of_nat i) in
      shuffle_loop saltChars i' (v + 1)%N p (swap transformed i j)
  end.

(** [saltChars] are given by their code points. *)
Definition shuffle (alphabetChars : list ascii) (saltChars : list N) : list ascii :=
  match saltChars with
  | [] => alphabetChars
  | _ :: _ =>
      shuffle_loop saltChars (length alphabetChars - 1) 0%N 0%N alphabetChars
  end.

(** [chars[i]]; the index is always in range for a non-empty alphabet. *)
Definition charAt (chars : list ascii) (i : N) : ascii :=
  nth (N.to_nat i) chars Ascii.zero.

(** [do { id.unshift(...); value = floor(value / length) } while (value > 0)].
    The binary logarithm of the input bounds the number of further rounds
    as soon as the alphabet has two characters. *)
Fixpoint toAlphabet_loop (fuel : nat) (value : N) (alphabetChars id : list ascii)
    : list ascii :=
  let len := N.of_nat (length alphabetChars) in
  let id := charAt alphabetChars (value mod len) :: id in
  let value := (value / len)%N in
  if (0 <? value)%N
  then match fuel with
       | S fuel' => toAlphabet_loop fuel' value alphabetChars id
       | O => id
       end
  else id.

Definition toAlphabet (input : N) (alphabetChars : list ascii) : list ascii :=
  toAlphabet_loop (N.to_nat (N.log2 input)) input alphabetChars [].

Fixpoint indexOf (chars : list ascii) (item : ascii) : option N :=
  match chars with
  | [] => None
  | c :: rest =>
      if decide (c = item) then Some 0%N
      else N.succ <$> indexOf rest item
  end.

(** [None] stands for the exception raised on a character that is not in
    the alphabet. *)
Definition fromAlphabet (inputChars alphabetChars : list ascii) : option N :=
  foldl (fun carry item =>
           c ← carry; index ← indexOf alphabetChars item;
           Some (c * N.of_nat (length alphabetChars) + index)%N)
        (Some 0%N) inputChars.

Definition includes (chars : list ascii) (c : ascii) : bool :=
  bool_decide (c ∈ chars).

(** [[...new Set(content)]]: first occurrences, in order. *)
Fixpoint keepUnique_from (seen content : list ascii) : list ascii :=
  match content with
  | [] => []
  | c :: rest =>
      if includes seen c then keepUnique_from seen rest
      else c :: keepUnique_from (c :: seen) rest
  end.

Definition keepUnique (content : list ascii) : list ascii :=
  keepUnique_from [] content.

Definition withoutChars (chars charsToExclude : list ascii) : list ascii :=
  List.filter (fun c => negb (includes charsToExclude c)) chars.

Definition onlyChars (chars keepChars : list ascii) : list ascii :=
  List.filter (fun c => includes keepChars c) chars.

(** [str.split(regexp)] for a regular expression matching one character
    out of a set. *)
Fixpoint split (isSep : ascii -> bool) (str : list ascii) : list (list ascii) :=
  match str with
  | [] => [[]]
  | c :: rest =>
      if isSep c then [] :: split isSep rest
      else match split isSep rest with
           | piece :: pieces => (c :: piece) :: pieces
           | [] => [[c]]
           end
  end.

Record t := {
  salt : list N;
  minLength : nat;
  alphabet : list ascii;
  seps : list ascii;
  guards : list ascii
}.

Definition default_seps : string := "cfhistuCFHISTU".

(** The constructor; [sepDiv = 3.5] and [guardDiv = 12], so that
    [a / s > 3.5] is [7 * s < 2 * a], [ceil(a / 3.5)] is
    [(2 * a + 6) / 7] and [ceil(a / 12)] is [(a + 11) / 12]. *)
Definition new (saltChars : list N) (minLength : nat) (alphabet : string) : t :=
  let alphabetChars := list_ascii_of_string alphabet in
  let sepsChars := list_ascii_of_string default_seps in
  let uniqueAlphabet := keepUnique alphabetChars in
  let alphabet := withoutChars uniqueAlphabet sepsChars in
  let filteredSeps := onlyChars sepsChars uniqueAlphabet in
  let seps := shuffle filteredSeps saltChars in
  let '(seps, alphabet) :=
    if ((length seps =? 0) || (7 * length seps <? 2 * length alphabet))%nat
    then
      let sepsLength := ((2 * length alphabet + 6) / 7)%nat in
      if (length seps <? sepsLength)%nat
      then let diff := (sepsLength - length seps)%nat in
           (seps ++ take diff alphabet, drop diff alphabet)
      else (seps, alphabet)
    else (seps, alphabet) in
  let alphabet := shuffle alphabet saltChars in
  let guardCount := ((length alphabet + 11) / 12)%nat in
  if (length alphabet <? 3)%nat
  then {| salt := saltChars; minLength := minLength; alphabet := alphabet;
          seps := drop guardCount seps; guards := take guardCount seps |}
  else {| salt := saltChars; minLength := minLength;
          alphabet := drop guardCount alphabet; seps := seps;
          guards := take guardCount alphabet |}.

Definition MODULO_PART : N := 100.

(** [numbers.reduce((last, number, i) => last + number % (i + 100), 0)] *)
Fixpoint numbersIdInt_from (i : N) (numbers : list N) : N :=
  match numbers with
  | [] => 0
  | number :: rest =>
      (number mod (i + MODULO_PART) + numbersIdInt_from (i + 1) rest)%N
  end.

(** [numbers.forEach((number, i) => ...)] of [_encode], threading the
    running alphabet and the output. *)
Fixpoint encode_numbers (h : t) (lottery : list ascii) (i : N) (numbers : list N)
    (alphabet ret : list ascii) : list ascii * list ascii :=
  match numbers with
  | [] => (alphabet, ret)
  | number :: rest =>
      let buffer := map codePointAt lottery ++ salt h ++ map codePointAt alphabet in
      let alphabet := shuffle alphabet buffer in
      let last := toAlphabet number alphabet in
      let ret := ret ++ last in
      let ret :=
        match rest with
        | [] => ret
        | _ :: _ =>
            let charCode := (codePointAt (charAt last 0) + i)%N in
            let extraNumber := (number mod charCode)%N in
            ret ++ [charAt (seps h) (extraNumber mod N.of_nat (length (seps h)))]
        end in
      encode_numbers h lottery (i + 1)%N rest alphabet ret
  end.

(** [while (ret.length < minLength)]: every round adds the whole alphabet,
    so [minLength] rounds are more than the loop can take. *)
Fixpoint pad_loop (fuel : nat) (minLength : nat) (alphabet ret : list ascii)
    : list ascii :=
  if (length ret <? minLength)%nat
  then match fuel with
       | O => ret
       | S fuel' =>
           let halfLength := (length alphabet / 2)%nat in
           let alphabet := shuffle alphabet (map codePointAt alphabet) in
           let ret := drop halfLength alphabet ++ ret ++ take halfLength alphabet in
           let excess := (length ret - minLength)%nat in
           let ret := if (0 <? excess)%nat
                      then take minLength (drop (excess / 2) ret)
                      else ret in
           pad_loop fuel' minLength alphabet ret
       end
  else ret.

Definition _encode (h : t) (numbers : list N) : list ascii :=
  let alphabet := alphabet h in
  let numbersIdInt := numbersIdInt_from 0 numbers in
  let ret := [charAt alphabet (numbersIdInt mod N.of_nat (length alphabet))] in
  let lottery := ret in
  let '(alphabet, ret) := encode_numbers h lottery 0 numbers alphabet ret in
  let ret :=
    if (length ret <? minLength h)%nat
    then
      let prefixGuardIndex :=
        ((numbersIdInt + codePointAt (charAt ret 0))
           mod N.of_nat (length (guards h)))%N in
      let ret := charAt (guards h) prefixGuardIndex :: ret in
      if (length ret <? minLength h)%nat
      then
        let suffixGuardIndex :=
          ((numbersIdInt + codePointAt (charAt ret 2))
             mod N.of_nat (length (guards h)))%N in
        ret ++ [charAt (guards h) suffixGuardIndex]
      else ret
    else ret in
  pad_loop (minLength h) (minLength h) alphabet ret.

Definition MAX_SAFE_INTEGER : Z := 9007199254740991.

(** [n >= 0 && Number.isSafeInteger(n)] *)
Definition isPositiveAndFinite (n : Z) : bool :=
  (0 <=? n) && (n <=? MAX_SAFE_INTEGER).

Definition encode (h : t) (numbers : list Z) : string :=
  match numbers with
  | [] => ""
  | _ :: _ =>
      if forallb isPositiveAndFinite numbers
      then string_of_list_ascii (_encode h (map Z.to_N numbers))
      else ""
  end.

(** [allowedCharsRegExp.test(id)], the expression being
    [^[alphabet guards seps]+$]. *)
Definition isValidId (h : t) (id : list ascii) : bool :=
  match id with
  | [] => false
  | _ :: _ => forallb (includes (alphabet h ++ guards h ++ seps h)) id
  end.

(** [for (const subId of idArray)] of [_decode]. *)
Fixpoint decode_subIds (h : t) (lotteryChar : ascii) (idArray : list (list ascii))
    (lastAlphabet : list ascii) : option (list N) :=
  match idArray with
  | [] => Some []
  | subId :: rest =>
      let buffer :=
        codePointAt lotteryChar :: salt h ++ map codePointAt lastAlphabet in
      let nextAlphabet :=
        shuffle lastAlphabet (take (length lastAlphabet) buffer) in
      number ← fromAlphabet subId nextAlphabet;
      numbers ← decode_subIds h lotteryChar rest nextAlphabet;
      Some (number :: numbers)
  end.

(** [None] stands for the exception raised on an identifier that holds a
    character outside of the alphabet, the guards and the separators. *)
Definition _decode (h : t) (id : list ascii) : option (list N) :=
  if negb (isValidId h id) then None
  else
    let idGuardsArray := split (includes (guards h)) id in
    let splitIndex :=
      if ((length idGuardsArray =? 3) || (length idGuardsArray =? 2))%nat
      then 1%nat else 0%nat in
    match nth splitIndex idGuardsArray [] with
    | [] => Some []
    | lotteryChar :: idRest =>
        let idArray := split (includes (seps h)) idRest in
        result ← decode_subIds h lotteryChar idArray (alphabet h);
        if decide (_encode h result = id) then Some result else Some []
    end.

Definition decode (h : t) (id : string) : option (list N) :=
  match id with
  | EmptyString => Some []
  | String _ _ => _decode h (list_ascii_of_string id)
  end.

End Hashids.

(* ================================================================= *)
(** ** lib/hashids.ts  (src/lib/hashids.ts) *)

Definition SLUG_ALPHABET : string :=
  "abcdefghijklmnopqrstuvwxyzABCDEFGHIJKLMNOPQRSTUVWXYZ0123456789".

Section Slug.

(** [process.env.HASHIDS_SALT], as code points. *)
Variable HASHIDS_SALT : list N.

Definition hashids : Hashids.t := Hashids.new HASHIDS_SALT 6 SLUG_ALPHABET.

Definition generateSlug (counter : Z) : string :=
  Hashids.encode hashids [counter].

(** [Array.isArray(decoded) && decoded.length > 0 ? decoded[0] : 0] *)
Definition decodeSlug (slug : string) : Res Z :=
  match Hashids.decode hashids slug with
  | None => Throw (Error "The provided ID is invalid")
  | Some (n :: _) => Ok (Z.of_N n)
  | Some [] => Ok 0
  end.

End Slug.

(* ================================================================= *)
(** ** Data model *)

(** On the server, timestamps ([Date], ISO strings, [timestamptz] columns)
    are the instant they denote, in milliseconds since the epoch. *)

(** The cached projection (lib/services/paste.service.ts). *)
Module CachedPaste.
Record t := {
  content : ustring;
  language : string;
  created_at : Z;
  expires_at : option Z
}.
End CachedPaste.

(** A row of [public.pastes]; a nullable column is an [option]. *)
Module PasteRow.
Record t := {
  id : Z;
  slug : string;
  content : option ustring;
  storage_path : option ustring;
  language : option string;
  user_id : option ustring;
  ip_hash : option string;
  created_at : Z;
  expires_at : option Z;
  view_count : option Z;
  last_viewed_at : option Z;
  metadata : option string
}.
End PasteRow.

(** The argument of an insert: the columns the service provides. *)
Module PasteInsert.
Record t := {
  slug : string;
  content : ustring;
  language : string;
  user_id : option ustring;
  ip_hash : string;
  expires_at : option Z;
  metadata : option string
}.
End PasteInsert.

(** The domain model (types/paste.types.ts); [null] and a missing property
    are both [None]. *)
Module Paste.
Record t := {
  id : Z;
  slug : string;
  content : ustring;
  language : string;
  userId : option ustring;
  createdAt : Z;
  expiresAt : option Z;
  viewCount : Z;
  lastViewedAt : option Z;
  metadata : option string
}.
End Paste.

(* ================================================================= *)
(** ** The world of a request *)

Inductive RedisValue :=
| RInt (n : Z)                      (* a counter *)
| RJson (data : CachedPaste.t).     (* the string [JSON.stringify(data)] *)

Record RedisEntry := {
  value : RedisValue;
  expireAt : option Z               (* instant at which the key is dropped *)
}.

(** Which backend calls reject during the request, and with what message.
    Each kind of call is made at most once per service call. *)
Record Faults := {
  incr_error : option string;
  expire_error : option string;
  ttl_error : option string;
  get_error : option string;
  set_error : option string;
  del_error : option string;
  insert_error : option string;
  select_error : option string;
  rpc_error : option string;
  delete_error : option string
}.

Definition healthy : Faults :=
  {| incr_error := None; expire_error := None; ttl_error := None;
     get_error := None; set_error := None; del_error := None;
     insert_error := None; select_error := None; rpc_error := None;
     delete_error := None |}.

Record World := {
  now : Z;                              (* the wall clock, constant over one call *)
  redis : gmap string RedisEntry;
  pastes : list PasteRow.t;             (* the table, in insertion order *)
  next_paste_id : Z;                    (* the identity sequence of [id] *)
  console : list string;                (* [console.error] output, latest first *)
  faults : Faults
}.

Definition with_redis (r : gmap string RedisEntry) (w : World) : World :=
  {| now := now w; redis := r; pastes := pastes w;
     next_paste_id := next_paste_id w; console := console w; faults := faults w |}.

Definition with_pastes (rows : list PasteRow.t) (next : Z) (w : World) : World :=
  {| now := now w; redis := redis w; pastes := rows;
     next_paste_id := next; console := console w; faults := faults w |}.

Definition with_console (c : list string) (w : World) : World :=
  {| now := now w; redis := redis w; pastes := pastes w;
     next_paste_id := next_paste_id w; console := c; faults := faults w |}.

Definition with_faults (f : Faults) (w : World) : World :=
  {| now := now w; redis := redis w; pastes := pastes w;
     next_paste_id := next_paste_id w; console := console w; faults := f |}.

Definition at_time (t : Z) (w : World) : World :=
  {| now := t; redis := redis w; pastes := pastes w;
     next_paste_id := next_paste_id w; console := console w; faults := faults w |}.

(** Asynchronous server code: a state transformer that returns a value or
    throws. *)
Definition M (A : Type) : Type := World -> Res A * World.

#[global] Instance M_ret : MRet M := fun A a w => (Ok a, w).

#[global] Instance M_bind : MBind M := fun A B f m w =>
  match m w with
  | (Ok a, w') => f a w'
  | (Throw e, w') => (Throw e, w')
  end.

Definition throw {A} (e : Exn) : M A := fun w => (Throw e, w).

(** [try { body } catch (error) { handler(error) }] *)
Definition try_catch {A} (body : M A) (handler : Exn -> M A) : M A := fun w =>
  match body w with
  | (Ok a, w') => (Ok a, w')
  | (Throw e, w') => handler e w'
  end.

Definition Date_now : M Z := fun w => (Ok (now w), w).

Definition console_error (msg : string) : M unit := fun w =>
  (Ok tt, with_console (msg :: console w) w).

Definition backend_call {A} (fault : Faults -> option string) (call : M A) : M A :=
  fun w =>
    match fault (faults w) with
    | Some msg => (Throw (Error msg), w)
    | None => call w
    end.

(* ================================================================= *)
(** ** Redis *)

(** The client exported by lib/redis is not part of the tree; its commands
    are modelled from what the specification asks of the backend, with the
    usual meaning of the Redis commands of the same name, and its replies
    as the client that the repository names gives them in its default
    configuration.  A call rejects when the backend is unreachable
    ([backend_call]). *)
Module Redis.

(** The entry under [key], unless its expiry has passed. *)
Definition live (w : World) (key : string) : option RedisEntry :=
  e ← redis w !! key;
  match expireAt e with
  | Some t => if t <=? now w then None else Some e
  | None => Some e
  end.

(** Modelled from the spec: the atomic increment primitive behind the ID
    counter and the window counter (INCR); an absent key counts from zero
    and gets no expiry. *)
Definition incr (key : string) : M Z :=
  backend_call incr_error (fun w =>
    match live w key with
    | None =>
        (Ok 1, with_redis (<[key := {| value := RInt 1; expireAt := None |}]> (redis w)) w)
    | Some {| value := RInt n; expireAt := t |} =>
        (Ok (n + 1),
         with_redis (<[key := {| value := RInt (n + 1); expireAt := t |}]> (redis w)) w)
    | Some {| value := RJson _ |} =>
        (Throw (Error "ERR value is not an integer or out of range"), w)
    end).

(** Modelled from the spec: the first request in a window sets the
    window's expiry (EXPIRE key seconds). *)
Definition expire (key : string) (seconds : Z) : M Z :=
  backend_call expire_error (fun w =>
    match live w key with
    | Some e =>
        (Ok 1,
         with_redis (<[key := {| value := value e;
                                 expireAt := Some (now w + seconds * 1000) |}]> (redis w)) w)
    | None => (Ok 0, w)
    end).

(** Modelled from the spec: the time left in the window, from which
    [resetAt] is computed (TTL key, in rounded seconds; -1 without expiry,
    -2 without key). *)
Definition ttl (key : string) : M Z :=
  backend_call ttl_error (fun w =>
    match live w key with
    | Some {| expireAt := Some t |} => (Ok ((t - now w + 500) / 1000), w)
    | Some {| expireAt := None |} => (Ok (-1), w)
    | None => (Ok (-2), w)
    end).

(** What [get] resolves to.  The client of lib/redis is the one of Upstash
    (README.md; docs/ARCHITECTURE.md reads [redis.get<PasteRow>(cacheKey)]
    and hands [redis.set] the object itself), which parses the text it
    reads as JSON unless it is configured otherwise: a counter comes back
    as a number, the text [JSON.stringify(data)] as the object [data].  A
    string comes back for no value of the keyspace of the model: it would
    take a text that is no JSON, or that is the JSON of a string.  Such a
    reply is given by what [JSON.parse] makes of it, [None] being its
    [SyntaxError]. *)
Inductive Reply :=
| ReplyNumber (n : Z)                       (* [typeof] is ['number'] *)
| ReplyObject (data : CachedPaste.t)        (* [typeof] is ['object'] *)
| ReplyString (parsed : option CachedPaste.t).  (* [typeof] is ['string'] *)

Definition deserialize (v : RedisValue) : Reply :=
  match v with
  | RInt n => ReplyNumber n
  | RJson data => ReplyObject data
  end.

(** Modelled from the spec: [get(slug) -> projection | miss] (GET key),
    read through the client. *)
Definition get (key : string) : M (option Reply) :=
  backend_call get_error (fun w => (Ok (deserialize ∘ value <$> live w key), w)).

(** Modelled from the spec: [put(slug, projection, ttlSeconds)]
    (SET key value EX seconds). *)
Definition set (key : string) (v : RedisValue) (ex : Z) : M unit :=
  backend_call set_error (fun w =>
    (Ok tt,
     with_redis (<[key := {| value := v; expireAt := Some (now w + ex * 1000) |}]> (redis w)) w)).

(** Modelled from the spec: [invalidate(slug)] (DEL key). *)
Definition del (key : string) : M Z :=
  backend_call del_error (fun w =>
    match live w key with
    | Some _ => (Ok 1, with_redis (delete key (redis w)) w)
    | None => (Ok 0, w)
    end).

End Redis.

(* ================================================================= *)
(** ** lib/db/daos/paste.dao.ts  (src/lib/db/daos/paste.dao.ts) *)

Module PasteDAO.

(** Modelled from the spec: the [pastes] table behind the Supabase client,
    whose creation script is not part of the tree.  Logical columns [id],
    [slug] (unique), [content], [language], [owner_id], [ip_hash],
    [created_at], [expires_at], [view_count] (starts at 0),
    [last_viewed_at], [metadata]; constraint
    [owner_id IS NOT NULL OR expires_at IS NOT NULL]; the store assigns the
    row identity on insert.  The error of the client is thrown with the
    prefix of the source. *)
Definition insert (data : PasteInsert.t) : M PasteRow.t := fun w =>
  match insert_error (faults w) with
  | Some msg => (Throw (Error ("Failed to insert paste: " +:+ msg)), w)
  | None =>
      if existsb (fun r => bool_decide (PasteRow.slug r = PasteInsert.slug data))
                 (pastes w)
      then (Throw (Error "Failed to insert paste: duplicate key value violates unique constraint"), w)
      else
        match PasteInsert.user_id data, PasteInsert.expires_at data with
        | None, None =>
            (Throw (Error "Failed to insert paste: violates check constraint check_anonymous_expiration"), w)
        | _, _ =>
            let row :=
              {| PasteRow.id := next_paste_id w;
                 PasteRow.slug := PasteInsert.slug data;
                 PasteRow.content := Some (PasteInsert.content data);
                 PasteRow.storage_path := None;
                 PasteRow.language := Some (PasteInsert.language data);
                 PasteRow.user_id := PasteInsert.user_id data;
                 PasteRow.ip_hash := Some (PasteInsert.ip_hash data);
                 PasteRow.created_at := now w;
                 PasteRow.expires_at := PasteInsert.expires_at data;
                 PasteRow.view_count := Some 0;
                 PasteRow.last_viewed_at := None;
                 PasteRow.metadata := PasteInsert.metadata data |} in
            (Ok row, with_pastes (pastes w ++ [row]) (next_paste_id w + 1) w)
        end
  end.

(** [.eq('slug', slug).single()]: anything but exactly one row is the
    error PGRST116, answered by [null]. *)
Definition findBySlug (slug : string) : M (option PasteRow.t) := fun w =>
  match select_error (faults w) with
  | Some msg => (Throw (Error ("Failed to find paste: " +:+ msg)), w)
  | None =>
      match List.filter (fun r => bool_decide (PasteRow.slug r = slug)) (pastes w) with
      | [row] => (Ok (Some row), w)
      | _ => (Ok None, w)
      end
  end.

(** The SQL function [increment_view_count(paste_id)] (src/unnamed/part_010):
    [update pastes set view_count = view_count + 1, last_viewed_at = now()
     where id = paste_id]. *)
Definition increment_view_count (paste_id : Z) (t : Z) (r : PasteRow.t) : PasteRow.t :=
  if bool_decide (PasteRow.id r = paste_id)
  then {| PasteRow.id := PasteRow.id r;
          PasteRow.slug := PasteRow.slug r;
          PasteRow.content := PasteRow.content r;
          PasteRow.storage_path := PasteRow.storage_path r;
          PasteRow.language := PasteRow.language r;
          PasteRow.user_id := PasteRow.user_id r;
          PasteRow.ip_hash := PasteRow.ip_hash r;
          PasteRow.created_at := PasteRow.created_at r;
          PasteRow.expires_at := PasteRow.expires_at r;
          PasteRow.view_count := (fun n => n + 1) <$> PasteRow.view_count r;
          PasteRow.last_viewed_at := Some t;
          PasteRow.metadata := PasteRow.metadata r |}
  else r.

(** The error of the call is logged, not thrown. *)
Definition incrementViewCount (id : Z) : M unit := fun w =>
  match rpc_error (faults w) with
  | Some _ => console_error "Failed to increment view count:" w
  | None =>
      (Ok tt,
       with_pastes (map (increment_view_count id (now w)) (pastes w))
                   (next_paste_id w) w)
  end.

Definition deleteBySlug (slug : string) : M bool := fun w =>
  match delete_error (faults w) with
  | Some msg => (Throw (Error ("Failed to delete paste: " +:+ msg)), w)
  | None =>
      (Ok true,
       with_pastes
         (List.filter (fun r => negb (bool_decide (PasteRow.slug r = slug))) (pastes w))
         (next_paste_id w) w)
  end.

(** [.eq('id', id).single()] *)
Definition findById (id : Z) : M (option PasteRow.t) := fun w =>
  match select_error (faults w) with
  | Some msg => (Throw (Error ("Failed to find paste: " +:+ msg)), w)
  | None =>
      match List.filter (fun r => bool_decide (PasteRow.id r = id)) (pastes w) with
      | [row] => (Ok (Some row), w)
      | _ => (Ok None, w)
      end
  end.

(** [.lt('expires_at', instant)]: a [null] is less than nothing. *)
Definition expires_before (t : Z) (r : PasteRow.t) : bool :=
  match PasteRow.expires_at r with
  | Some e => e <? t
  | None => false
  end.

(** [.delete().lt('expires_at', new Date().toISOString()).select('id')],
    answered by [data?.length ?? 0]. *)
Definition deleteExpired : M Z := fun w =>
  match delete_error (faults w) with
  | Some msg => (Throw (Error ("Failed to delete expired pastes: " +:+ msg)), w)
  | None =>
      let data := List.filter (expires_before (now w)) (pastes w) in
      (Ok (Z.of_nat (length data)),
       with_pastes
         (List.filter (fun r => negb (expires_before (now w) r)) (pastes w))
         (next_paste_id w) w)
  end.

(** [.order('created_at', { ascending: false })].  The store leaves the
    order of rows with the same [created_at] open; the sort picks one. *)
Definition newer_first (a b : PasteRow.t) : Prop :=
  PasteRow.created_at b <= PasteRow.created_at a.

#[global] Instance newer_first_dec : RelDecision newer_first :=
  fun a b => Z_le_dec (PasteRow.created_at b) (PasteRow.created_at a).

(** [.eq('user_id', userId).order(...).range(offset, offset + limit - 1)] *)
Definition findByUserId (userId : ustring) (limit offset : Z) : M (list PasteRow.t) :=
  fun w =>
    match select_error (faults w) with
    | Some msg => (Throw (Error ("Failed to find pastes by user: " +:+ msg)), w)
    | None =>
        let rows :=
          List.filter (fun r => bool_decide (PasteRow.user_id r = Some userId))
                      (pastes w) in
        let ordered := merge_sort newer_first rows in
        (Ok (take (Z.to_nat limit) (drop (Z.to_nat offset) ordered)), w)
    end.

(** [.select('*', { count: 'exact', head: true }).eq('user_id', userId)] *)
Definition countByUserId (userId : ustring) : M Z := fun w =>
  match select_error (faults w) with
  | Some msg => (Throw (Error ("Failed to count pastes: " +:+ msg)), w)
  | None =>
      (Ok (Z.of_nat (length (List.filter
                               (fun r => bool_decide (PasteRow.user_id r = Some userId))
                               (pastes w)))), w)
  end.

End PasteDAO.

(* ================================================================= *)
(** ** lib/db/repositories/paste.repository.ts
       (src/lib/supabase-client.ts, lines 22-133) *)

Module PasteRepository.

Definition toDomainModel (row : PasteRow.t) : Paste.t :=
  {| Paste.id := PasteRow.id row;
     Paste.slug := PasteRow.slug row;
     Paste.content :=
       match PasteRow.content row with
       | Some c => c
       | None => default [] (PasteRow.storage_path row)
       end;
     Paste.language := default "text" (PasteRow.language row);
     Paste.userId := PasteRow.user_id row;
     Paste.createdAt := PasteRow.created_at row;
     Paste.expiresAt := PasteRow.expires_at row;
     Paste.viewCount := default 0 (PasteRow.view_count row);
     Paste.lastViewedAt := None;
     Paste.metadata := None |}.

Definition create (data : PasteInsert.t) : M Paste.t :=
  row ← PasteDAO.insert data;
  mret (toDomainModel row).

(** [row.expires_at && new Date(row.expires_at) < new Date()] *)
Definition isExpired (expires_at : option Z) (t : Z) : bool :=
  match expires_at with
  | Some e => e <? t
  | None => false
  end.

Definition getBySlug (slug : string) : M (option Paste.t) :=
  row ← PasteDAO.findBySlug slug;
  match row with
  | None => mret None
  | Some row =>
      t ← Date_now;
      if isExpired (PasteRow.expires_at row) t then mret None
      else mret (Some (toDomainModel row))
  end.

Definition incrementViewCount (id : Z) : M unit :=
  PasteDAO.incrementViewCount id.

Definition deleteBySlug (slug : string) : M bool :=
  PasteDAO.deleteBySlug slug.

Definition getById (id : Z) : M (option Paste.t) :=
  row ← PasteDAO.findById id;
  match row with
  | None => mret None
  | Some row =>
      t ← Date_now;
      if isExpired (PasteRow.expires_at row) t then mret None
      else mret (Some (toDomainModel row))
  end.

(** [!row.expires_at || new Date(row.expires_at) > new Date()] *)
Definition notExpired (expires_at : option Z) (t : Z) : bool :=
  match expires_at with
  | Some e => t <? e
  | None => true
  end.

(** [limit] defaults to 10 at the call. *)
Definition getUserPastes (userId : ustring) (limit : Z) : M (list Paste.t) :=
  rows ← PasteDAO.findByUserId userId limit 0;
  t ← Date_now;
  (* Filter out expired pastes and transform *)
  mret (map toDomainModel
            (List.filter (fun row => notExpired (PasteRow.expires_at row) t) rows)).

(** [exists(slug)]: [paste !== null]. *)
Definition exists_ (slug : string) : M bool :=
  paste ← getBySlug slug;
  mret (match paste with Some _ => true | None => false end).

End PasteRepository.

Section Server.

(** [process.env.HASHIDS_SALT] and
    [createHash('sha256').update(_).digest('hex')], parameters of the
    deployment and of the platform. *)
Variable HASHIDS_SALT : list N.
Variable sha256_hex : string -> string.

(** The format test behind Zod's [z.string().uuid()]. *)
Variable zod_uuid : ustring -> bool.

(* =============================================================== *)
(** ** lib/rate-limit.ts  (src/unnamed/part_005, lines 28-91) *)

Record RateLimitResult := {
  success : bool;
  limit : Z;
  remaining : Z;
  reset : Z
}.

Definition rate_limit_key (ip : string) : string :=
  (* Hash the IP for privacy *)
  let ipHash := sha256_hex ip in
  "rate_limit:" +:+ ipHash.

(** The [try] block of [rateLimit]. *)
Definition rateLimit_try (ip : string) (limit window : Z) : M RateLimitResult :=
  let key := rate_limit_key ip in
  current ← Redis.incr key;
  (* Set expiration only on first request *)
  _ ← (if decide (current = 1) then Redis.expire key window else mret 0);
  ttl ← Redis.ttl key;
  let remaining := Z.max 0 (limit - current) in
  t ← Date_now;
  let reset := t + ttl * 1000 in
  mret {| success := current <=? limit;
          limit := limit;
          remaining := remaining;
          reset := reset |}.

Definition rateLimit (ip : string) (limit window : Z) : M RateLimitResult :=
  try_catch
    (rateLimit_try ip limit window)
    (fun error =>
       _ ← console_error "Rate limit error:";
       (* Fail open - allow request if Redis is down *)
       t ← Date_now;
       mret {| success := true;
               limit := limit;
               remaining := limit;
               reset := t + window * 1000 |}).

Definition hashIP (ip : string) : string := sha256_hex ip.

(* =============================================================== *)
(** ** lib/schemas/paste.schema.ts  (src/lib/schemas/paste.schema.ts) *)

Definition CONTENT_SIZE_LIMIT : N := 100 * 1024.

Definition SUPPORTED_LANGUAGES : list string :=
  ["text"; "javascript"; "typescript"; "python"; "java"; "go"; "rust"; "cpp";
   "c"; "csharp"; "php"; "ruby"; "swift"; "kotlin"; "sql"; "html"; "css";
   "json"; "yaml"; "markdown"; "bash"; "shell"].

Definition EXPIRATION_OPTIONS : list string := ["1h"; "1d"; "7d"; "never"].

(** A property of the parsed request body, as far as the schema looks. *)
Inductive JsValue :=
| JsUndefined
| JsNull
| JsString (s : ustring)
| JsOther.                          (* number, boolean, array, object *)

(** The [unknown] input: an object, seen through the four keys of the
    schema (the others are stripped), or anything else. *)
Inductive JsInput :=
| JsNotObject
| JsObject (content language expiresIn userId : JsValue).

Record CreatePasteInput := {
  content : ustring;
  language : string;
  expiresIn : string;
  userId : option ustring           (* [undefined] and [null] are [None] *)
}.

Definition issue (path message : string) : list ZodIssue :=
  [{| issue_path := path; issue_message := message |}].

(** [z.string().min(1, _).max(CONTENT_SIZE_LIMIT, _).transform(trim)]; the
    bounds are on [val.length], the number of UTF-16 code units. *)
Definition parse_content (v : JsValue) : list ZodIssue + ustring :=
  match v with
  | JsString val =>
      let too_small :=
        if (N.of_nat (length val) <? 1)%N
        then issue "content" "Content cannot be empty" else [] in
      let too_big :=
        if (CONTENT_SIZE_LIMIT <? N.of_nat (length val))%N
        then issue "content" "Content exceeds maximum size of 100KB" else [] in
      match too_small ++ too_big with
      | [] => inr (trim val)
      | issues => inl issues
      end
  | _ => inl (issue "content" "Invalid input: expected string")
  end.

(** [z.enum(options, {message}).optional().default(dflt)] *)
Definition parse_enum (path message : string) (options : list string)
    (dflt : string) (v : JsValue) : list ZodIssue + string :=
  match v with
  | JsUndefined => inr dflt
  | JsString s =>
      match List.find (fun o => bool_decide (ustr o = s)) options with
      | Some o => inr o
      | None => inl (issue path message)
      end
  | _ => inl (issue path message)
  end.

Definition join_comma (l : list string) : string :=
  match l with
  | [] => ""
  | x :: rest => foldl (fun acc y => acc +:+ ", " +:+ y) x rest
  end.

(** [z.string().uuid(_).nullable().optional()] *)
Definition parse_userId (v : JsValue) : list ZodIssue + option ustring :=
  match v with
  | JsUndefined | JsNull => inr None
  | JsString s =>
      if zod_uuid s then inr (Some s)
      else inl (issue "userId" "Invalid user ID format")
  | JsOther => inl (issue "userId" "Invalid input: expected string")
  end.

Definition issues_of {A} (r : list ZodIssue + A) : list ZodIssue :=
  match r with inl issues => issues | inr _ => [] end.

(** [createPasteSchema.parse(input)]: every key is checked and the issues
    are reported together. *)
Definition createPasteSchema_parse (input : JsInput) : Res CreatePasteInput :=
  match input with
  | JsNotObject => Throw (ZodError (issue "" "Invalid input: expected object"))
  | JsObject c l e u =>
      let rc := parse_content c in
      let rl := parse_enum "language"
                  ("Language must be one of: " +:+ join_comma SUPPORTED_LANGUAGES)
                  SUPPORTED_LANGUAGES "text" l in
      let re := parse_enum "expiresIn"
                  ("Expiration must be one of: " +:+ join_comma EXPIRATION_OPTIONS)
                  EXPIRATION_OPTIONS "7d" e in
      let ru := parse_userId u in
      match rc, rl, re, ru with
      | inr c', inr l', inr e', inr u' =>
          Ok {| content := c'; language := l'; expiresIn := e'; userId := u' |}
      | _, _, _, _ =>
          Throw (ZodError (issues_of rc ++ issues_of rl ++ issues_of re ++ issues_of ru))
      end
  end.

(* =============================================================== *)
(** ** lib/validators/paste.validator.ts  (src/unnamed/part_006) *)

Definition validateCreatePasteInput (input : JsInput) : Res CreatePasteInput :=
  createPasteSchema_parse input.

(** [!userId]: absent, [null] or the empty string. *)
Definition falsy_userId (userId : option ustring) : bool :=
  match userId with
  | None | Some [] => true
  | Some (_ :: _) => false
  end.

Definition validateExpirationRules (userId : option ustring) (expiresIn : string)
    : Res unit :=
  if falsy_userId userId && bool_decide (expiresIn = "never")
  then Throw (Error "Anonymous users must set an expiration time")
  else Ok tt.

(** The server runs in UTC: [setHours(getHours() + 1)] adds an hour,
    [setDate(getDate() + n)] adds [n] days. *)
Definition calculateExpiration (duration : string) : M (option Z) :=
  if bool_decide (duration = "never") then mret None
  else
    t ← Date_now;
    if bool_decide (duration = "1h") then mret (Some (t + 3600000))
    else if bool_decide (duration = "1d") then mret (Some (t + 86400000))
    else if bool_decide (duration = "7d") then mret (Some (t + 7 * 86400000))
    else mret (Some (t + 7 * 86400000)).

Definition shouldUseObjectStorage (content : ustring) : bool :=
  let contentSize := utf8Length content in
  (CONTENT_SIZE_LIMIT <? contentSize)%N.

Definition formatZodError (issues : list ZodIssue) : string :=
  join_comma (map (fun err => issue_path err +:+ ": " +:+ issue_message err) issues).

(* =============================================================== *)
(** ** lib/services/paste.service.ts
       (src/lib/storage/paste-history.ts, lines 295-523) *)

Definition lift {A} (r : Res A) : M A := fun w => (r, w).

Definition CACHE_TTL : Z := 3600.

Definition cachePaste (slug : string) (data : CachedPaste.t) : M unit :=
  try_catch
    (Redis.set ("paste:" +:+ slug) (RJson data) CACHE_TTL)
    (fun error => console_error "Failed to cache paste:").

(** [if (!cached || typeof cached !== 'string') return null], then
    [return JSON.parse(cached)]. *)
Definition getCachedPaste (slug : string) : M (option CachedPaste.t) :=
  try_catch
    (cached ← Redis.get ("paste:" +:+ slug);
     match cached with
     | None | Some (Redis.ReplyNumber _) | Some (Redis.ReplyObject _) => mret None
     | Some (Redis.ReplyString parsed) =>
         match parsed with
         | Some data => mret (Some data)
         | None => throw (Error "Unexpected token in JSON")
         end
     end)
    (fun error =>
       _ ← console_error "Failed to get cached paste:";
       mret None).

Definition cachedPasteToDomain (slug : string) (cached : CachedPaste.t) : Paste.t :=
  {| Paste.id := 0;                                  (* Not available from cache *)
     Paste.slug := slug;
     Paste.content := CachedPaste.content cached;
     Paste.language := CachedPaste.language cached;
     Paste.userId := None;                           (* Not cached *)
     Paste.createdAt := CachedPaste.created_at cached;
     Paste.expiresAt := CachedPaste.expires_at cached;
     Paste.viewCount := 0;                           (* Not cached *)
     Paste.lastViewedAt := None;                     (* Not cached *)
     Paste.metadata := None |}.                      (* Not cached *)

Definition createPaste (input : JsInput) (ip : string) : M Paste.t :=
  (* 1. Validate input using Zod *)
  validatedInput ← lift (validateCreatePasteInput input);
  (* 2. Check business rules *)
  _ ← lift (validateExpirationRules (userId validatedInput) (expiresIn validatedInput));
  (* 3. Check if content should go to object storage *)
  _ ← (if shouldUseObjectStorage (content validatedInput)
       then throw (Error "Content too large. Object storage not yet implemented.")
       else mret tt);
  (* 4. Generate unique ID using Redis atomic increment *)
  counter ← Redis.incr "paste_counter";
  let slug := generateSlug HASHIDS_SALT counter in
  (* 5. Calculate expiration *)
  expiresAt ← calculateExpiration (expiresIn validatedInput);
  (* 6. Insert into database; the schema strips [metadata] *)
  paste ← PasteRepository.create
            {| PasteInsert.slug := slug;
               PasteInsert.content := content validatedInput;
               PasteInsert.language := language validatedInput;
               PasteInsert.user_id := userId validatedInput;
               PasteInsert.ip_hash := hashIP ip;
               PasteInsert.expires_at := expiresAt;
               PasteInsert.metadata := None |};
  (* 7. Cache in Redis for fast reads *)
  _ ← cachePaste slug
        {| CachedPaste.content := content validatedInput;
           CachedPaste.language := Paste.language paste;
           CachedPaste.created_at := Paste.createdAt paste;
           CachedPaste.expires_at := expiresAt |};
  mret paste.

(** The view-count increment is started without [await]; its promise is
    run to completion here, before the call returns. *)
Definition getPaste (slug : string) : M (option Paste.t) :=
  (* 1. Check cache *)
  cached ← getCachedPaste slug;
  match cached with
  | Some cached => mret (Some (cachedPasteToDomain slug cached))
  | None =>
      (* 2. Query database *)
      paste ← PasteRepository.getBySlug slug;
      match paste with
      | None => mret None
      | Some paste =>
          (* 3. Cache for next time *)
          _ ← cachePaste slug
                {| CachedPaste.content := Paste.content paste;
                   CachedPaste.language := Paste.language paste;
                   CachedPaste.created_at := Paste.createdAt paste;
                   CachedPaste.expires_at := Paste.expiresAt paste |};
          (* 4. Increment view count (non-blocking) *)
          _ ← try_catch
                (PasteRepository.incrementViewCount (Paste.id paste))
                (fun err => console_error "Failed to increment view count:");
          mret (Some paste)
      end
  end.

Definition deletePaste (slug : string) : M bool :=
  deleted ← PasteRepository.deleteBySlug slug;
  _ ← (if (deleted : bool) then Redis.del ("paste:" +:+ slug) else mret 0);
  mret deleted.

(* =============================================================== *)
(** ** app/api/pastes/route.ts  (src/app/api/pastes/route.ts, lines 1-113)
       and app/api/pastes/[slug]/route.ts  (src/unnamed/part_000) *)

Record PostRequest := {
  x_forwarded_for : option string;
  x_real_ip : option string;
  json : option JsInput;            (* [None]: the body is not JSON *)
  origin : string
}.

Inductive PostResponse :=
| Created (slug url : string) (createdAt : Z) (expiresAt : option Z)
          (rl : RateLimitResult)                              (* 201 *)
| RateLimited (rl : RateLimitResult)                          (* 429 *)
| Failed (status : Z) (error : string) (details : option string).

Definition post_status (r : PostResponse) : Z :=
  match r with
  | Created _ _ _ _ _ => 201
  | RateLimited _ => 429
  | Failed status _ _ => status
  end.

(** [s.split(',')[0]] *)
Fixpoint before_comma (s : string) : string :=
  match s with
  | EmptyString => EmptyString
  | String c rest =>
      if bool_decide (c = ","%char) then EmptyString
      else String c (before_comma rest)
  end.

Definition client_ip (request : PostRequest) : string :=
  match x_forwarded_for request with
  | Some forwardedFor => before_comma forwardedFor
  | None => default "127.0.0.1" (x_real_ip request)
  end.

Definition error_status (e : Exn) : PostResponse :=
  match e with
  | ZodError issues =>
      Failed 400 "Validation failed" (Some (formatZodError issues))
  | Error errorMessage =>
      let statusCode :=
        if str_includes errorMessage "too large" then 413
        else if str_includes errorMessage "Anonymous users" then 403
        else if str_includes errorMessage "required"
                || str_includes errorMessage "Invalid" then 400
        else 500 in
      Failed statusCode errorMessage None
  end.

Definition POST (request : PostRequest) : M PostResponse :=
  try_catch
    (let ip := client_ip request in
     rateLimitResult ← rateLimit ip 5 60;
     if negb (success rateLimitResult) then mret (RateLimited rateLimitResult)
     else
       match json request with
       | None => mret (Failed 400 "Invalid JSON body" None)
       | Some body =>
           paste ← createPaste body ip;
           mret (Created (Paste.slug paste)
                         (origin request +:+ "/" +:+ Paste.slug paste)
                         (Paste.createdAt paste) (Paste.expiresAt paste)
                         rateLimitResult)
       end)
    (fun error => mret (error_status error)).

Record PasteData := {
  data_slug : string;
  data_content : ustring;
  data_language : string;
  data_createdAt : Z;
  data_expiresAt : option Z;
  data_viewCount : Z;
  data_lastViewedAt : option Z;
  data_metadata : option string
}.

Inductive GetResponse :=
| Found (data : PasteData)                                    (* 200 *)
| GetFailed (status : Z) (error : string).

Definition GET (slug : string) : M GetResponse :=
  try_catch
    (if bool_decide (slug = "") then mret (GetFailed 400 "Invalid slug")
     else
       paste ← getPaste slug;
       match paste with
       | None => mret (GetFailed 404 "Paste not found or expired")
       | Some paste =>
           mret (Found {| data_slug := Paste.slug paste;
                          data_content := Paste.content paste;
                          data_language := Paste.language paste;
                          data_createdAt := Paste.createdAt paste;
                          data_expiresAt := Paste.expiresAt paste;
                          data_viewCount := Paste.viewCount paste;
                          data_lastViewedAt := Paste.lastViewedAt paste;
                          data_metadata := Paste.metadata paste |})
       end)
    (fun error =>
       _ ← console_error "Error fetching paste:";
       mret (GetFailed 500 "An unexpected error occurred")).

End Server.

(* ================================================================= *)
(** ** lib/schemas/paste.schema.ts, the slug parameter
       (src/lib/schemas/paste.schema.ts, lines 85-89) *)

(** A code unit matched by [[a-zA-Z0-9]]. *)
Definition isAlphanumericUnit (u : N) : bool :=
  ((48 <=? u) && (u <=? 57) || (65 <=? u) && (u <=? 90)
   || (97 <=? u) && (u <=? 122))%N.

(** [/^[a-zA-Z0-9]+$/.test(val)] *)
Definition matches_alphanumeric (val : ustring) : bool :=
  match val with
  | [] => false
  | _ :: _ => forallb isAlphanumericUnit val
  end.

(** [z.string().min(1, _).max(50, _).regex(_, _)]: the three checks all
    run, their issues are reported together. *)
Definition pasteSlugSchema_parse (v : JsValue) : list ZodIssue + ustring :=
  match v with
  | JsString val =>
      let too_small :=
        if (length val <? 1)%nat then issue "" "Slug is required" else [] in
      let too_big :=
        if (50 <? length val)%nat then issue "" "Slug is too long" else [] in
      let no_match :=
        if matches_alphanumeric val then []
        else issue "" "Slug must contain only alphanumeric characters" in
      match too_small ++ too_big ++ no_match with
      | [] => inr val
      | issues => inl issues
      end
  | _ => inl (issue "" "Invalid input: expected string")
  end.

(* ================================================================= *)
(** ** app/api/pastes/route.ts, the inline handler
       (src/app/api/pastes/route.ts, lines 115-320) *)

(** The second [POST] of the file does the checks, the insert and the cache
    write itself, without the service. *)
Module Inline.
Section Inline.

Variable HASHIDS_SALT : list N.
Variable sha256_hex : string -> string.

(** The body, as the interface [CreatePasteRequest] declares it: every
    key holds a string when it is present; a key that is missing or [null]
    is [None]. *)
Record CreatePasteRequest := {
  content : option ustring;
  language : option string;
  expiresIn : option string;
  userId : option ustring
}.

Record Request := {
  x_forwarded_for : option string;
  x_real_ip : option string;
  json : option CreatePasteRequest;     (* [None]: the body is not JSON *)
  origin : string
}.

Definition calculateExpiration (duration : string) : M (option Z) :=
  if bool_decide (duration = "never") then mret None
  else
    t ← Date_now;
    if bool_decide (duration = "1h") then mret (Some (t + 3600000))
    else if bool_decide (duration = "1d") then mret (Some (t + 86400000))
    else if bool_decide (duration = "7d") then mret (Some (t + 7 * 86400000))
    else
      (* Default to 7 days for anonymous users *)
      mret (Some (t + 7 * 86400000)).

(** [supabaseAdmin.from('pastes').insert(_).select(_).single()]: the
    insert of [PasteDAO.insert] on the same table, with the error returned
    beside the row and not thrown. *)
Definition insert_single (data : PasteInsert.t) : M (Exn + PasteRow.t) := fun w =>
  match PasteDAO.insert data w with
  | (Ok row, w') => (Ok (inr row), w')
  | (Throw error, w') => (Ok (inl error), w')
  end.

Definition POST (request : Request) : M PostResponse :=
  try_catch
    ((* 1. Get IP address from headers *)
     let ip :=
       match x_forwarded_for request with
       | Some forwardedFor => before_comma forwardedFor
       | None => default "127.0.0.1" (x_real_ip request)
       end in
     (* 2. Rate limiting check *)
     rateLimitResult ← rateLimit sha256_hex ip 5 60;
     if negb (success rateLimitResult) then mret (RateLimited rateLimitResult)
     else
       (* 3. Parse request body *)
       match json request with
       | None => mret (Failed 400 "Invalid JSON body" None)
       | Some body =>
           (* 4. Validate input: [!body.content || body.content.trim().length === 0] *)
           match content body with
           | None | Some [] => mret (Failed 400 "Content cannot be empty" None)
           | Some body_content =>
               if bool_decide (trim body_content = [])
               then mret (Failed 400 "Content cannot be empty" None)
               else
                 (* 5. Anonymous users cannot create "never expire" pastes *)
                 let expiresIn := default "7d" (expiresIn body) in
                 if falsy_userId (userId body) && bool_decide (expiresIn = "never")
                 then mret (Failed 403 "Anonymous users must set an expiration time" None)
                 else
                   (* 6. Check content size *)
                   let contentSize := utf8Length body_content in
                   if (CONTENT_SIZE_LIMIT <? contentSize)%N
                   then mret (Failed 413 "Content too large. Maximum size is 100KB." None)
                   else
                     (* 7. Generate unique ID using Redis atomic increment *)
                     counter ← Redis.incr "paste_counter";
                     let slug := generateSlug HASHIDS_SALT counter in
                     (* 8. Calculate expiration *)
                     expiresAt ← calculateExpiration expiresIn;
                     (* 9. Insert into database *)
                     inserted ← insert_single
                       {| PasteInsert.slug := slug;
                          PasteInsert.content := body_content;
                          PasteInsert.language := default "text" (language body);
                          PasteInsert.user_id := userId body;
                          PasteInsert.ip_hash := hashIP sha256_hex ip;
                          PasteInsert.expires_at := expiresAt;
                          PasteInsert.metadata := None |};
                     match inserted with
                     | inl error =>
                         _ ← console_error "Database insert error:";
                         mret (Failed 500 "Failed to create paste. Please try again." None)
                     | inr data =>
                         (* 10. Cache the paste in Redis for fast reads *)
                         _ ← Redis.set ("paste:" +:+ slug)
                               (RJson {| CachedPaste.content := body_content;
                                         (* [data.language], the column just written *)
                                         CachedPaste.language :=
                                           default "text" (PasteRow.language data);
                                         CachedPaste.created_at := PasteRow.created_at data;
                                         CachedPaste.expires_at := PasteRow.expires_at data |})
                               3600;
                         mret (Created (PasteRow.slug data)
                                       (origin request +:+ "/" +:+ PasteRow.slug data)
                                       (PasteRow.created_at data)
                                       (PasteRow.expires_at data)
                                       rateLimitResult)
                     end
           end
       end)
    (fun error =>
       _ ← console_error "Unexpected error in POST /api/pastes:";
       mret (Failed 500 "An unexpected error occurred. Please try again." None)).

End Inline.
End Inline.

(* ================================================================= *)
(** ** lib/storage/paste-history.ts, the history of the browser
       (src/lib/storage/paste-history.ts, lines 1-293) *)

(** The object store [pastes] of the IndexedDB database, keyed by the
    [slug] of its records, with its index on [viewedAt].  [viewedAt] is
    the text that is stored: it is the key of the index, and IndexedDB
    orders string keys code unit by code unit, not by the instant they
    denote.  [createdAt] is read through [new Date(...)] only and is the
    instant it denotes.  Strings hold code units below 256.  Opening the
    database can fail (no IndexedDB in the browser), the requests on an
    open database do not. *)
Module PasteHistory.

Definition MAX_HISTORY_SIZE : nat := 50.

Record PasteHistoryEntry := {
  slug : string;                    (* primary key *)
  language : string;
  contentPreview : ustring;
  createdAt : Z;
  viewedAt : string;                (* ISO timestamp, as it is stored *)
  isOwned : bool;
  metadata : string                 (* the [metadata] object, as its JSON text *)
}.

Record HistoryStats := {
  totalCount : nat;
  ownedCount : nat;
  viewedCount : nat;
  oldestPaste : option string;
  newestPaste : option string
}.

Record Browser := {
  clock : string;                               (* [new Date().toISOString()] *)
  store : gmap string PasteHistoryEntry;
  indexedDB_available : bool;
  console_log : list string                     (* [console.error], latest first *)
}.

Definition with_store (s : gmap string PasteHistoryEntry) (b : Browser) : Browser :=
  {| clock := clock b; store := s;
     indexedDB_available := indexedDB_available b; console_log := console_log b |}.

Definition log_error (msg : string) (b : Browser) : Browser :=
  {| clock := clock b; store := store b;
     indexedDB_available := indexedDB_available b;
     console_log := msg :: console_log b |}.

(** [await openDB()]; [None] when the request is rejected. *)
Definition openDB (b : Browser) : option (gmap string PasteHistoryEntry) :=
  if indexedDB_available b then Some (store b) else None.

(** The order of the index: by the text of [viewedAt], compared as
    IndexedDB compares string keys (code unit by code unit, a string
    before its extensions); records with the same key by their primary
    key. *)
Definition index_le (a b : PasteHistoryEntry) : Prop :=
  (viewedAt a <> viewedAt b /\ String.le (viewedAt a) (viewedAt b))
  \/ (viewedAt a = viewedAt b /\ String.le (slug a) (slug b)).

#[global] Instance index_le_dec : RelDecision index_le.
Proof. intros a b. unfold index_le. apply _. Defined.

(** [index.openCursor()], run to its end: all records, in the order of
    the index. *)
Definition openCursor (s : gmap string PasteHistoryEntry) : list PasteHistoryEntry :=
  merge_sort index_le (map_to_list s).*2.

(** Remove oldest pastes if over limit. *)
Definition enforceHistoryLimit (s : gmap string PasteHistoryEntry)
    : gmap string PasteHistoryEntry :=
  let allEntries := openCursor s in
  if (MAX_HISTORY_SIZE <? length allEntries)%nat then
    let toDelete := take (length allEntries - MAX_HISTORY_SIZE) allEntries in
    foldl (fun store entry => delete (slug entry) store) s toDelete
  else s.

(** An asynchronous function of the module: it changes the browser and
    resolves, or rejects. *)
Definition Async (A : Type) : Type := Browser -> Res A * Browser.

(** [try { body } catch (error) { handler(error) }] *)
Definition try_catch {A} (body : Async A) (handler : Exn -> Async A) : Async A :=
  fun b =>
    match body b with
    | (Ok a, b') => (Ok a, b')
    | (Throw e, b') => handler e b'
    end.

Definition addToHistory (entry : PasteHistoryEntry) : Async unit :=
  try_catch
    (fun b =>
       match openDB b with
       | None => (Throw (Error "The database cannot be opened"), b)
       | Some s =>
           (* Check if paste already exists *)
           match s !! slug entry with
           | Some existing =>
               (* Update existing entry (preserve isOwned if already true) *)
               let updated :=
                 {| slug := slug entry;
                    language := language entry;
                    contentPreview := contentPreview entry;
                    createdAt := createdAt entry;
                    viewedAt := clock b;
                    isOwned := isOwned existing || isOwned entry;
                    metadata := metadata entry |} in
               (Ok tt, with_store (<[slug updated := updated]> s) b)
           | None =>
               (* Add new entry, enforce size limit *)
               (Ok tt, with_store (enforceHistoryLimit (<[slug entry := entry]> s)) b)
           end
       end)
    (fun error b =>
       (* Non-critical - don't throw *)
       (Ok tt, log_error "Failed to add to history:" b)).

(** [index.openCursor(null, 'prev')], stopped by
    [!limit || results.length < limit]; no [limit] is [None]. *)
Definition getHistory (limit : option Z) (b : Browser)
    : list PasteHistoryEntry * Browser :=
  match openDB b with
  | None => ([], log_error "Failed to get history:" b)
  | Some s =>
      let backwards := reverse (openCursor s) in
      (match limit with
       | None => backwards
       | Some limit =>
           if limit =? 0 then backwards
           else take (Z.to_nat limit) backwards
       end, b)
  end.

Definition getPasteFromHistory (slug : string) (b : Browser)
    : option PasteHistoryEntry * Browser :=
  match openDB b with
  | None => (None, log_error "Failed to get paste from history:" b)
  | Some s => (s !! slug, b)
  end.

Definition clearHistory (b : Browser) : Browser :=
  match openDB b with
  | None => log_error "Failed to clear history:" b
  | Some _ => with_store ∅ b
  end.

(** [entries.reduce(f)] on a non-empty array. *)
Definition reduce {A} (f : A -> A -> A) (entries : list A) : option A :=
  match entries with
  | [] => None
  | first :: rest => Some (foldl f first rest)
  end.

Definition getHistoryStats (b : Browser) : HistoryStats * Browser :=
  let '(entries, b) := getHistory None b in
  let ownedCount := length (List.filter (fun e => isOwned e) entries) in
  let viewedCount := length (List.filter (fun e => negb (isOwned e)) entries) in
  let oldest :=
    slug <$> reduce (fun a b => if createdAt a <? createdAt b then a else b) entries in
  let newest :=
    slug <$> reduce (fun a b => if createdAt b <? createdAt a then a else b) entries in
  ({| totalCount := length entries;
      ownedCount := ownedCount;
      viewedCount := viewedCount;
      oldestPaste := oldest;
      newestPaste := newest |}, b).

(** The JSON text of the export is the array it denotes. *)
Definition exportHistory (b : Browser) : list PasteHistoryEntry * Browser :=
  getHistory None b.

(** [json] is [None] when [JSON.parse] throws.  An entry is counted as a
    failure when [addToHistory] rejects. *)
Definition importHistory (json : option (list PasteHistoryEntry)) (b : Browser)
    : (nat * nat) * Browser :=
  match json with
  | None => ((0, 0)%nat, log_error "Failed to import history:" b)
  | Some entries =>
      foldl (fun '((success, failed, b) : nat * nat * Browser) entry =>
               match addToHistory entry b with
               | (Ok _, b) => (S success, failed, b)
               | (Throw _, b) => (success, S failed, b)
               end)
            (0%nat, 0%nat, b) entries
  end.

End PasteHistory.

(* ================================================================= *)
(** * Vocabulary of the statements *)

(** The package's documented examples. *)
Definition doc_salt : list N := ustr "this is my salt".
Definition doc_alphabet : string :=
  "abcdefghijklmnopqrstuvwxyzABCDEFGHIJKLMNOPQRSTUVWXYZ1234567890".

(** Frame reasoning: a computation [keeps] a preorder [R] on worlds when
    every run relates the initial world to the final one. *)
Definition keeps (R : relation World) {A} (m : M A) : Prop :=
  forall w r w', m w = (r, w') -> R w w'.

(** Worlds with the same clock and the same faults. *)
Definition same_clock (w w' : World) : Prop :=
  now w' = now w /\ faults w' = faults w.

(** A sample world: nothing stored, every backend reachable. *)
Definition empty_world (t : Z) : World :=
  {| now := t; redis := ∅; pastes := []; next_paste_id := 1; console := [];
     faults := healthy |}.

Definition redis_down : Faults :=
  {| incr_error := Some "ECONNREFUSED"; expire_error := Some "ECONNREFUSED";
     ttl_error := Some "ECONNREFUSED"; get_error := Some "ECONNREFUSED";
     set_error := Some "ECONNREFUSED"; del_error := Some "ECONNREFUSED";
     insert_error := None; select_error := None; rpc_error := None;
     delete_error := None |}.

(** The count of the current window of [key]: zero when the key is absent
    or its window is over. *)
Definition window_count (w : World) (key : string) : Z :=
  match Redis.live w key with
  | Some {| value := RInt n |} => n
  | _ => 0
  end.

Definition window_expiry (w : World) (key : string) : option Z :=
  e ← Redis.live w key; expireAt e.

(** A client seen from outside: the outcome ([success], [remaining]) of
    one request at each of the given instants. *)
Fixpoint rateLimit_run (sha256_hex : string -> string) (ip : string)
    (limit window : Z) (times : list Z) (w : World) : list (bool * Z) :=
  match times with
  | [] => []
  | t :: later =>
      match rateLimit sha256_hex ip limit window (at_time t w) with
      | (Ok r, w') =>
          (success r, remaining r) :: rateLimit_run sha256_hex ip limit window later w'
      | (Throw _, _) => []
      end
  end.

(** The instant computed by [calculateExpiration] at clock [t]. *)
Definition expiration_of (duration : string) (t : Z) : option Z :=
  if bool_decide (duration = "never") then None
  else if bool_decide (duration = "1h") then Some (t + 3600000)
  else if bool_decide (duration = "1d") then Some (t + 86400000)
  else Some (t + 7 * 86400000).

(** The row handed to the store by [createPaste]. *)
Definition insert_of (salt : list N) (sha256_hex : string -> string)
    (v : CreatePasteInput) (ip : string) (counter t : Z) : PasteInsert.t :=
  {| PasteInsert.slug := generateSlug salt counter;
     PasteInsert.content := content v;
     PasteInsert.language := language v;
     PasteInsert.user_id := userId v;
     PasteInsert.ip_hash := hashIP sha256_hex ip;
     PasteInsert.expires_at := expiration_of (expiresIn v) t;
     PasteInsert.metadata := None |}.

(** Sample data: a stored paste that has been viewed seven times, and its
    cached projection. *)
Definition sample_row : PasteRow.t :=
  {| PasteRow.id := 41;
     PasteRow.slug := "x9Lk2a";
     PasteRow.content := Some (ustr "print('hi')");
     PasteRow.storage_path := None;
     PasteRow.language := Some "python";
     PasteRow.user_id := Some (ustr "6f9619ff-8b86-4011-b42d-00c04fc964ff");
     PasteRow.ip_hash := Some "c0ffee";
     PasteRow.created_at := 1700000000000;
     PasteRow.expires_at := Some 1700086400000;
     PasteRow.view_count := Some 7;
     PasteRow.last_viewed_at := Some 1700000500000;
     PasteRow.metadata := Some "{}" |}.

Definition sample_cached : CachedPaste.t :=
  {| CachedPaste.content := ustr "print('hi')";
     CachedPaste.language := "python";
     CachedPaste.created_at := 1700000000000;
     CachedPaste.expires_at := Some 1700086400000 |}.

(** [sample_row] in the store and [sample_cached] in the cache until
    [cachedUntil], seen at instant [t]. *)
Definition sample_world (t cachedUntil : Z) (f : Faults) : World :=
  {| now := t;
     redis := {[ "paste:x9Lk2a" := {| value := RJson sample_cached;
                                      expireAt := Some cachedUntil |} ]};
     pastes := [sample_row];
     next_paste_id := 42;
     console := [];
     faults := f |}.

Definition cache_down : Faults :=
  {| incr_error := None; expire_error := None; ttl_error := None;
     get_error := Some "ETIMEDOUT"; set_error := Some "ETIMEDOUT";
     del_error := Some "ETIMEDOUT";
     insert_error := None; select_error := None; rpc_error := None;
     delete_error := None |}.

(** A request as the handler receives it from a client behind a proxy. *)
Definition request_of (body : JsInput) : PostRequest :=
  {| x_forwarded_for := Some "203.0.113.7, 10.0.0.1";
     x_real_ip := None;
     json := Some body;
     origin := "https://paste.example" |}.

Definition get_status (r : GetResponse) : Z :=
  match r with
  | Found _ => 200
  | GetFailed status _ => status
  end.



Definition created_slug (r : Res PostResponse) : string :=
  match r with
  | Ok (Created slug _ _ _ _) => slug
  | _ => ""
  end.

(** An anonymous client posts [print('hi')] as Python with the given
    expiration selector. *)
Definition hello_request (expiresIn : string) : PostRequest :=
  request_of (JsObject (JsString (ustr "print('hi')")) (JsString (ustr "python"))
                       (JsString (ustr expiresIn)) JsUndefined).


(** Successive reads of [slug] by the service, one at each of the given
    instants: how many of them returned the paste, and the final world. *)
Fixpoint getPaste_run (slug : string) (times : list Z) (w : World) : nat * World :=
  match times with
  | [] => (0%nat, w)
  | t :: later =>
      let '(r, w') := getPaste slug (at_time t w) in
      let '(m, w'') := getPaste_run slug later w' in
      (match r with Ok (Some _) => S m | _ => m end, w'')
  end.

(** [fromAlphabet], started from a given carry. *)
Definition fromAlphabet_from (alphabetChars : list ascii) (carry : option N)
    (inputChars : list ascii) : option N :=
  foldl (fun carry item =>
           c ← carry; index ← Hashids.indexOf alphabetChars item;
           Some (c * N.of_nat (length alphabetChars) + index)%N)
        carry inputChars.

(** The characters of [SLUG_ALPHABET] that are not separators, and the
    separators, both before the salt shuffles them. *)
Definition slug_letters : list ascii :=
  Hashids.withoutChars
    (Hashids.keepUnique (list_ascii_of_string SLUG_ALPHABET))
    (list_ascii_of_string Hashids.default_seps).

Definition slug_seps : list ascii :=
  Hashids.onlyChars
    (list_ascii_of_string Hashids.default_seps)
    (Hashids.keepUnique (list_ascii_of_string SLUG_ALPHABET)).

(** The letters after the shuffle by the salt: the first four are the
    guards of [hashids], the other 44 its alphabet. *)
Definition slug_shuffled (salt : list N) : list ascii :=
  Hashids.shuffle slug_letters salt.

Definition slug_alphabet (salt : list N) : list ascii :=
  drop 4 (slug_shuffled salt).

Definition slug_guards (salt : list N) : list ascii :=
  take 4 (slug_shuffled salt).

(** [/^[A-Za-z0-9]$/] *)
Definition isAlphanumeric (c : ascii) : bool :=
  let n := N_of_ascii c in
  ((48 <=? n) && (n <=? 57) || (65 <=? n) && (n <=? 90)
   || (97 <=? n) && (n <=? 122))%N.

Definition alphanumeric (s : string) : Prop :=
  Forall (fun c => isAlphanumeric c = true) (list_ascii_of_string s).

(** The integers the encoder accepts: [n >= 0 && Number.isSafeInteger(n)]. *)
Definition valid_id (n : Z) : Prop := 0 <= n <= Hashids.MAX_SAFE_INTEGER.

(** An identifier around its core: bare, behind one guard, or between two
    guards with padding from the alphabet on both sides. *)
Inductive framed (guards alphabet core : list ascii) : list ascii -> Prop :=
| framed_bare :
    framed guards alphabet core core
| framed_prefix g :
    g ∈ guards ->
    framed guards alphabet core (g :: core)
| framed_both pre g1 g2 post :
    g1 ∈ guards -> g2 ∈ guards ->
    Forall (fun c => c ∈ alphabet) pre ->
    Forall (fun c => c ∈ alphabet) post ->
    framed guards alphabet core (pre ++ g1 :: core ++ g2 :: post).

(** The outcome ([success], [remaining]) of the request that brings the
    count of its window to [count]. *)
Definition outcome (limit count : Z) : bool * Z :=
  (count <=? limit, Z.max 0 (limit - count)).

(** The outcomes of [n] successive requests, the first of which brings the
    count to [first]. *)
Definition outcomes (limit : Z) (first n : nat) : list (bool * Z) :=
  map (fun k => outcome limit (Z.of_nat k)) (seq first n).

(** Worlds that differ at most in the Redis keys of [keys] and on the
    console. *)
Definition redis_only (keys : string -> Prop) (w w' : World) : Prop :=
  forall k, ~ keys k -> redis w' !! k = redis w !! k.

(** Worlds with the same [pastes] table. *)
Definition same_table (w w' : World) : Prop :=
  pastes w' = pastes w /\ next_paste_id w' = next_paste_id w.

(** The projection written to the cache when [row] has been inserted for
    the validated input [v]. *)
Definition cached_of (v : CreatePasteInput) (row : PasteRow.t) : CachedPaste.t :=
  {| CachedPaste.content := content v;
     CachedPaste.language := Paste.language (PasteRepository.toDomainModel row);
     CachedPaste.created_at := Paste.createdAt (PasteRepository.toDomainModel row);
     CachedPaste.expires_at := PasteRow.expires_at row |}.

(** The projection of a paste read from the store. *)
Definition cached_of_paste (paste : Paste.t) : CachedPaste.t :=
  {| CachedPaste.content := Paste.content paste;
     CachedPaste.language := Paste.language paste;
     CachedPaste.created_at := Paste.createdAt paste;
     CachedPaste.expires_at := Paste.expiresAt paste |}.

(** The value of the ID counter: 0 before the first increment; the key
    has no expiry. *)
Definition paste_counter (w : World) : option Z :=
  match redis w !! "paste_counter" with
  | None => Some 0
  | Some {| value := RInt c; expireAt := None |} => Some c
  | Some _ => None
  end.

(** Every stored slug was generated from a value that the counter has
    already passed. *)
Definition slugs_follow_counter (salt : list N) (w : World) : Prop :=
  exists c,
    paste_counter w = Some c /\ 0 <= c <= Hashids.MAX_SAFE_INTEGER
    /\ Forall (fun r => exists k, 1 <= k <= c /\ PasteRow.slug r = generateSlug salt k)
              (pastes w).

(** A row without its view data. *)
Definition without_views (r : PasteRow.t) : PasteRow.t :=
  {| PasteRow.id := PasteRow.id r;
     PasteRow.slug := PasteRow.slug r;
     PasteRow.content := PasteRow.content r;
     PasteRow.storage_path := PasteRow.storage_path r;
     PasteRow.language := PasteRow.language r;
     PasteRow.user_id := PasteRow.user_id r;
     PasteRow.ip_hash := PasteRow.ip_hash r;
     PasteRow.created_at := PasteRow.created_at r;
     PasteRow.expires_at := PasteRow.expires_at r;
     PasteRow.view_count := None;
     PasteRow.last_viewed_at := None;
     PasteRow.metadata := PasteRow.metadata r |}.

(** The row that the store makes of an insert. *)
Definition new_row (data : PasteInsert.t) (w : World) : PasteRow.t :=
  {| PasteRow.id := next_paste_id w;
     PasteRow.slug := PasteInsert.slug data;
     PasteRow.content := Some (PasteInsert.content data);
     PasteRow.storage_path := None;
     PasteRow.language := Some (PasteInsert.language data);
     PasteRow.user_id := PasteInsert.user_id data;
     PasteRow.ip_hash := Some (PasteInsert.ip_hash data);
     PasteRow.created_at := now w;
     PasteRow.expires_at := PasteInsert.expires_at data;
     PasteRow.view_count := Some 0;
     PasteRow.last_viewed_at := None;
     PasteRow.metadata := PasteInsert.metadata data |}.

(** The address the inline handler takes from the headers. *)
Definition inline_ip (request : Inline.Request) : string :=
  match Inline.x_forwarded_for request with
  | Some forwardedFor => before_comma forwardedFor
  | None => default "127.0.0.1" (Inline.x_real_ip request)
  end.

(** The row handed to the store by the inline handler. *)
Definition inline_insert_of (salt : list N) (sha256_hex : string -> string)
    (body : Inline.CreatePasteRequest) (text : ustring) (ip : string)
    (counter t : Z) : PasteInsert.t :=
  {| PasteInsert.slug := generateSlug salt counter;
     PasteInsert.content := text;
     PasteInsert.language := default "text" (Inline.language body);
     PasteInsert.user_id := Inline.userId body;
     PasteInsert.ip_hash := hashIP sha256_hex ip;
     PasteInsert.expires_at := expiration_of (default "7d" (Inline.expiresIn body)) t;
     PasteInsert.metadata := None |}.

(** A body of the inline handler with the given content, sent by an
    anonymous client behind a proxy. *)
Definition inline_request (text : ustring) (expiresIn : option string) : Inline.Request :=
  {| Inline.x_forwarded_for := Some "203.0.113.7, 10.0.0.1";
     Inline.x_real_ip := None;
     Inline.json := Some {| Inline.content := Some text;
                            Inline.language := Some "python";
                            Inline.expiresIn := expiresIn;
                            Inline.userId := None |};
     Inline.origin := "https://paste.example" |}.

(** Every record of the history is stored under its slug, the key path
    of the object store. *)
Definition keyed_by_slug (s : gmap string PasteHistory.PasteHistoryEntry) : Prop :=
  forall k e, s !! k = Some e -> PasteHistory.slug e = k.

(** The records of a store. *)
Definition records (s : gmap string PasteHistory.PasteHistoryEntry)
    : list PasteHistory.PasteHistoryEntry :=
  (map_to_list s).*2.

(** The text of [toISOString()] for minute [m] (below 60) past ten on
    1 May 2024, and that instant. *)
Definition sample_text (m : nat) : string :=
  "2024-05-01T10:"
  +:+ String (ascii_of_nat (48 + m / 10)) (String (ascii_of_nat (48 + m mod 10)) "")
  +:+ ":00.000Z".

Definition sample_instant (m : nat) : Z := 1714557600000 + 60000 * Z.of_nat m.

(** A history entry of the samples, created one second before it was
    viewed in minute [m], and a browser that holds the given entries, seen
    in minute [m]. *)
Definition sample_entry (slug : string) (m : nat) (isOwned : bool)
    : PasteHistory.PasteHistoryEntry :=
  {| PasteHistory.slug := slug;
     PasteHistory.language := "python";
     PasteHistory.contentPreview := ustr "print('hi')";
     PasteHistory.createdAt := sample_instant m - 1000;
     PasteHistory.viewedAt := sample_text m;
     PasteHistory.isOwned := isOwned;
     PasteHistory.metadata := "{}" |}.

Definition sample_browser (m : nat) (entries : list PasteHistory.PasteHistoryEntry)
    : PasteHistory.Browser :=
  {| PasteHistory.clock := sample_text m;
     PasteHistory.store :=
       list_to_map ((fun e => (PasteHistory.slug e, e)) <$> entries);
     PasteHistory.indexedDB_available := true;
     PasteHistory.console_log := [] |}.

(** Fifty entries with distinct slugs, viewed in the minutes 0, 1, ...,
    49. *)
Definition fifty_entries : list PasteHistory.PasteHistoryEntry :=
  (fun i => sample_entry (String "p" (String (ascii_of_nat (48 + i)) "")) i false)
    <$> seq 0 50.

(* ================================================================= *)
(** * Properties *)

Example hashids_doc_vectors :
  Hashids.encode (Hashids.new doc_salt 0 doc_alphabet) [12345] = "NkK9"
  /\ Hashids.encode (Hashids.new doc_salt 0 doc_alphabet) [1; 2; 3] = "laHquq"
  /\ Hashids.encode (Hashids.new doc_salt 8 doc_alphabet) [1] = "gB0NV05e"
  /\ Hashids.encode (Hashids.new doc_salt 0 doc_alphabet) [683; 94108; 123; 5]
     = "aBMswoO2UB3Sj"
  /\ Hashids.decode (Hashids.new doc_salt 0 doc_alphabet) "laHquq" = Some [1; 2; 3]%N
  /\ Hashids.decode (Hashids.new doc_salt 8 doc_alphabet) "gB0NV05e" = Some [1]%N
  /\ Hashids.decode (Hashids.new doc_salt 0 doc_alphabet) "NkK8" = Some [].
Proof. vm_compute. repeat split; reflexivity. Qed.

(* ================================================================= *)
(** ** The monad *)

Lemma bind_Ok {A B} (m : M A) (f : A -> M B) w a w' :
  m w = (Ok a, w') -> (m ≫= f) w = f a w'.
Proof. intros H. unfold mbind, M_bind. by rewrite H. Qed.

Lemma bind_Throw {A B} (m : M A) (f : A -> M B) w e w' :
  m w = (Throw e, w') -> (m ≫= f) w = (Throw e, w').
Proof. intros H. unfold mbind, M_bind. by rewrite H. Qed.

Lemma try_catch_Ok {A} (m : M A) h w a w' :
  m w = (Ok a, w') -> try_catch m h w = (Ok a, w').
Proof. intros H. unfold try_catch. by rewrite H. Qed.

Lemma try_catch_Throw {A} (m : M A) h w e w' :
  m w = (Throw e, w') -> try_catch m h w = h e w'.
Proof. intros H. unfold try_catch. by rewrite H. Qed.

Lemma backend_call_healthy {A} fault (call : M A) w :
  fault (faults w) = None -> backend_call fault call w = call w.
Proof. intros H. unfold backend_call. by rewrite H. Qed.

Lemma backend_call_faulty {A} fault (call : M A) w msg :
  fault (faults w) = Some msg -> backend_call fault call w = (Throw (Error msg), w).
Proof. intros H. unfold backend_call. by rewrite H. Qed.

(* ================================================================= *)
(** ** Rate limiter *)

Section Keeps.
Context (R : relation World) `{!PreOrder R}.

Lemma keeps_ret {A} (a : A) : keeps R (mret a).
Proof. intros w r w' [= <- <-]. reflexivity. Qed.

Lemma keeps_throw {A} e : keeps R (@throw A e).
Proof. intros w r w' [= <- <-]. reflexivity. Qed.

Lemma keeps_lift {A} (x : Res A) : keeps R (lift x).
Proof. intros w r w' [= <- <-]. reflexivity. Qed.

Lemma keeps_bind {A B} (m : M A) (f : A -> M B) :
  keeps R m -> (forall a, keeps R (f a)) -> keeps R (m ≫= f).
Proof.
  intros Hm Hf w r w'. unfold mbind, M_bind.
  destruct (m w) as [[a|e] w1] eqn:E; intros H.
  - etrans; [exact (Hm _ _ _ E) | exact (Hf _ _ _ _ H)].
  - injection H as <- <-. exact (Hm _ _ _ E).
Qed.

Lemma keeps_try_catch {A} (m : M A) h :
  keeps R m -> (forall e, keeps R (h e)) -> keeps R (try_catch m h).
Proof.
  intros Hm Hh w r w'. unfold try_catch.
  destruct (m w) as [[a|e] w1] eqn:E; intros H.
  - injection H as <- <-. exact (Hm _ _ _ E).
  - etrans; [exact (Hm _ _ _ E) | exact (Hh _ _ _ _ H)].
Qed.

Lemma keeps_backend_call {A} fault (call : M A) :
  keeps R call -> keeps R (backend_call fault call).
Proof.
  intros Hc w r w'. unfold backend_call.
  destruct (fault (faults w)); [intros [= <- <-]; reflexivity | apply Hc].
Qed.

Lemma keeps_Date_now : keeps R Date_now.
Proof. intros w r w' [= <- <-]. reflexivity. Qed.
End Keeps.

#[local] Instance same_clock_preorder : PreOrder same_clock.
Proof.
  split; [by intros w | intros w1 w2 w3 [? ?] [? ?]; split; congruence].
Qed.

Lemma same_clock_with_redis r w : same_clock w (with_redis r w).
Proof. by split. Qed.

Lemma same_clock_with_console c w : same_clock w (with_console c w).
Proof. by split. Qed.

Lemma same_clock_with_pastes rows n w : same_clock w (with_pastes rows n w).
Proof. by split. Qed.

#[local] Hint Resolve same_clock_with_redis same_clock_with_console
  same_clock_with_pastes : core.

Ltac keeps_step :=
  first [ apply keeps_ret; exact _ | apply keeps_throw; exact _
        | apply keeps_lift; exact _ | apply keeps_Date_now; exact _
        | apply keeps_bind; [exact _ | | intros ?]
        | apply keeps_try_catch; [exact _ | | intros ?]
        | apply keeps_backend_call; [exact _ |] ].

Lemma keeps_console_error msg : keeps same_clock (console_error msg).
Proof. intros w r w' [= <- <-]. auto. Qed.

Lemma keeps_incr key : keeps same_clock (Redis.incr key).
Proof.
  unfold Redis.incr. keeps_step. intros w r w' H.
  destruct (Redis.live w key) as [[[n|d] t]|]; injection H as <- <-;
    auto; reflexivity.
Qed.

Lemma keeps_expire key seconds : keeps same_clock (Redis.expire key seconds).
Proof.
  unfold Redis.expire. keeps_step. intros w r w' H.
  destruct (Redis.live w key); injection H as <- <-; auto; reflexivity.
Qed.

Lemma keeps_ttl key : keeps same_clock (Redis.ttl key).
Proof.
  unfold Redis.ttl. keeps_step. intros w r w' H.
  destruct (Redis.live w key) as [[v [t|]]|]; injection H as <- <-; reflexivity.
Qed.

Lemma keeps_get key : keeps same_clock (Redis.get key).
Proof.
  unfold Redis.get. keeps_step. intros w r w' [= <- <-]. reflexivity.
Qed.

Lemma keeps_set key v ex : keeps same_clock (Redis.set key v ex).
Proof.
  unfold Redis.set. keeps_step. intros w r w' [= <- <-]. auto.
Qed.

(** The limiter leaves the clock alone. *)
Lemma rateLimit_try_now sha ip limit window :
  keeps same_clock (rateLimit_try sha ip limit window).
Proof.
  unfold rateLimit_try.
  keeps_step; [apply keeps_incr |].
  keeps_step; [case_decide; [apply keeps_expire | keeps_step] |].
  keeps_step; [apply keeps_ttl |].
  keeps_step; keeps_step.
Qed.

(** The backend is down from the first call on. *)
Lemma rateLimit_try_incr_down sha ip limit window w msg :
  incr_error (faults w) = Some msg ->
  rateLimit_try sha ip limit window w = (Throw (Error msg), w).
Proof.
  intros Hdown. unfold rateLimit_try.
  apply bind_Throw. unfold Redis.incr. by apply backend_call_faulty.
Qed.

(** C6: whenever a call to the backend made by the limiter raises, the
    limiter itself returns normally, with [success = true] and
    [remaining = limit] (and the default reset of one window); the error is
    written to the console and not propagated. *)
Theorem rateLimit_fails_open sha ip limit window w e w1 :
  rateLimit_try sha ip limit window w = (Throw e, w1) ->
  rateLimit sha ip limit window w
  = (Ok {| success := true; limit := limit; remaining := limit;
           reset := now w + window * 1000 |},
     with_console ("Rate limit error:" :: console w1) w1).
Proof.
  intros Htry. unfold rateLimit.
  rewrite (try_catch_Throw _ _ _ _ _ Htry).
  apply rateLimit_try_now in Htry as [Hnow _].
  unfold mbind, M_bind, console_error, Date_now, mret, M_ret. simpl.
  by rewrite Hnow.
Qed.

Lemma rateLimit_fails_open_witness :
  rateLimit (fun ip => ip) "203.0.113.7" 5 60
            (with_faults redis_down (empty_world 1700000000000))
  = (Ok {| success := true; limit := 5; remaining := 5;
           reset := 1700000000000 + 60 * 1000 |},
     with_console ["Rate limit error:"]
                  (with_faults redis_down (empty_world 1700000000000))).
Proof.
  apply (rateLimit_fails_open (fun ip => ip) "203.0.113.7" 5 60
           (with_faults redis_down (empty_world 1700000000000))
           (Error "ECONNREFUSED")).
  reflexivity.
Defined.

Lemma live_insert k e r w :
  Redis.live (with_redis (<[k:=e]> r) w) k
  = match expireAt e with
    | Some t => if t <=? now w then None else Some e
    | None => Some e
    end.
Proof. unfold Redis.live. simpl. by rewrite lookup_insert_eq. Qed.

Lemma live_Some w k e :
  Redis.live w k = Some e ->
  redis w !! k = Some e /\ forall t, expireAt e = Some t -> now w < t.
Proof.
  unfold Redis.live. destruct (redis w !! k) as [e'|]; simpl; [|done].
  destruct (expireAt e') as [t|] eqn:Ht.
  - destruct (Z.leb_spec t (now w)); [done|]. intros [= <-].
    split; [done|]. intros t' Ht'. rewrite Ht in Ht'. injection Ht' as <-. done.
  - intros [= <-]. split; [done|]. intros t' Ht'. by rewrite Ht in Ht'.
Qed.

(** C7: with the backend available, the limiter is a fixed-window counter
    on the client key: the request increments the count of the current
    window; when it is the first one of the window (the count becomes 1) it
    sets the expiry of the window, later ones leave the expiry alone; the
    request is allowed exactly when the count after the increment is at
    most the limit, and [remaining] is [max(0, limit - count)]. *)
Theorem rateLimit_fixed_window sha ip limit window w :
  let key := rate_limit_key sha ip in
  let count := window_count w key + 1 in
  incr_error (faults w) = None ->
  expire_error (faults w) = None ->
  ttl_error (faults w) = None ->
  (forall d t, Redis.live w key <> Some {| value := RJson d; expireAt := t |}) ->
  0 < window ->
  exists r w',
    rateLimit sha ip limit window w = (Ok r, w')
    /\ window_count w' key = count
    /\ (count = 1 -> window_expiry w' key = Some (now w + window * 1000))
    /\ (count <> 1 -> window_expiry w' key = window_expiry w key)
    /\ success r = (count <=? limit)
    /\ remaining r = Z.max 0 (limit - count).
Proof.
  intros key count Hincr Hexp Httl Hint Hwin.
  assert (Hfresh : (now w + window * 1000 <=? now w) = false)
    by (apply Z.leb_gt; lia).
  unfold rateLimit, rateLimit_try, try_catch, mbind, M_bind.
  fold key. unfold Redis.incr, Redis.expire, Redis.ttl, backend_call.
  rewrite Hincr. subst count. unfold window_count, window_expiry.
  destruct (Redis.live w key) as [[[n|d] t]|] eqn:Hlive.
  - apply live_Some in Hlive as [_ Ht]. simpl in Ht.
    assert (Hstill : Redis.live
              (with_redis (<[key:={| value := RInt (n + 1); expireAt := t |}]> (redis w)) w) key
            = Some {| value := RInt (n + 1); expireAt := t |}).
    { rewrite live_insert. simpl. destruct t as [t|]; [|done].
      destruct (Z.leb_spec t (now w)); [|done]. specialize (Ht t eq_refl). lia. }
    simpl. case_decide as Hn; simpl.
    + rewrite Hexp, Hstill. simpl. rewrite Httl, live_insert. simpl.
      rewrite Hfresh. simpl. eexists _, _. split; [reflexivity|].
      rewrite live_insert. simpl. rewrite Hfresh. simpl.
      repeat split; done.
    + rewrite Httl, Hstill. destruct t as [t|]; simpl.
      all: eexists _, _; (split; [reflexivity|]); rewrite Hstill; simpl.
      all: repeat split; done.
  - by destruct (Hint d t).
  - simpl. rewrite Hexp, live_insert. simpl. rewrite Httl, live_insert. simpl.
    rewrite Hfresh. simpl. eexists _, _. split; [reflexivity|].
    rewrite live_insert. simpl. rewrite Hfresh. simpl.
    repeat split; done.
Qed.

Lemma rateLimit_fixed_window_witness :
  exists r w',
    rateLimit (fun ip => ip) "203.0.113.7" 5 60 (empty_world 1700000000000) = (Ok r, w')
    /\ window_count w' "rate_limit:203.0.113.7" = 1
    /\ window_expiry w' "rate_limit:203.0.113.7" = Some (1700000000000 + 60 * 1000)
    /\ success r = true
    /\ remaining r = 4.
Proof.
  destruct (rateLimit_fixed_window (fun ip => ip) "203.0.113.7" 5 60
              (empty_world 1700000000000))
    as (r & w' & Hrun & Hcount & Hfirst & _ & Hok & Hrem);
    [reflexivity | reflexivity | reflexivity | intros d t; discriminate | lia |].
  exists r, w'. split; [exact Hrun|]. split; [exact Hcount|].
  split; [apply Hfirst; reflexivity|]. split; [exact Hok | exact Hrem].
Defined.

(** With limit 2 and a window of 60 s, the third request of a window is
    refused and the first one of the next window is allowed again. *)
Example rateLimit_window_trace :
  rateLimit_run (fun ip => ip) "203.0.113.7" 2 60 [0; 1000; 2000; 60000]
                (empty_world 0)
  = [(true, 1); (true, 0); (false, 0); (true, 1)].
Proof. vm_compute. reflexivity. Qed.

(* ================================================================= *)
(** ** Paste service: the cache *)

Lemma cachePaste_run slug data w :
  cachePaste slug data w
  = (Ok tt,
     match set_error (faults w) with
     | None =>
         with_redis (<["paste:" +:+ slug :=
                        {| value := RJson data;
                           expireAt := Some (now w + CACHE_TTL * 1000) |}]> (redis w)) w
     | Some _ => with_console ("Failed to cache paste:" :: console w) w
     end).
Proof.
  unfold cachePaste, try_catch, Redis.set, backend_call, console_error.
  by destruct (set_error (faults w)).
Qed.

(** The client hands [getCachedPaste] a number or an object, never a
    string: the test on [typeof cached] answers [null] in every world,
    whatever is stored under the key; a read that fails is logged. *)
Lemma getCachedPaste_run slug w :
  getCachedPaste slug w
  = (Ok None,
     match get_error (faults w) with
     | Some _ => with_console ("Failed to get cached paste:" :: console w) w
     | None => w
     end).
Proof.
  unfold getCachedPaste, try_catch, mbind, M_bind, Redis.get, backend_call.
  destruct (get_error (faults w)); [done|].
  by destruct (Redis.live w ("paste:" +:+ slug)) as [[[n|data] t]|].
Qed.

Lemma getCachedPaste_world slug w :
  now (snd (getCachedPaste slug w)) = now w
  /\ redis (snd (getCachedPaste slug w)) = redis w
  /\ pastes (snd (getCachedPaste slug w)) = pastes w
  /\ next_paste_id (snd (getCachedPaste slug w)) = next_paste_id w
  /\ faults (snd (getCachedPaste slug w)) = faults w.
Proof. rewrite getCachedPaste_run. cbn [snd]. by destruct (get_error (faults w)). Qed.

Lemma getBySlug_run slug w :
  PasteRepository.getBySlug slug w
  = match select_error (faults w) with
    | Some msg => (Throw (Error ("Failed to find paste: " +:+ msg)), w)
    | None =>
        (match List.filter (fun r => bool_decide (PasteRow.slug r = slug)) (pastes w) with
         | [row] =>
             if PasteRepository.isExpired (PasteRow.expires_at row) (now w) then Ok None
             else Ok (Some (PasteRepository.toDomainModel row))
         | _ => Ok None
         end, w)
    end.
Proof.
  unfold PasteRepository.getBySlug, PasteDAO.findBySlug, mbind, M_bind, Date_now.
  destruct (select_error (faults w)); [done|].
  destruct (List.filter _ _) as [|row [|]]; try done.
  by destruct (PasteRepository.isExpired _ _).
Qed.

(** [getPaste], step by step: the branch of a cache hit is never taken. *)
Lemma getPaste_unfold slug w :
  getPaste slug w
  = match PasteRepository.getBySlug slug (snd (getCachedPaste slug w)) with
    | (Ok (Some paste), w2) =>
        let w3 := snd (cachePaste slug (cached_of_paste paste) w2) in
        (Ok (Some paste),
         snd (try_catch (PasteRepository.incrementViewCount (Paste.id paste))
                        (fun err => console_error "Failed to increment view count:")
                        w3))
    | (Ok None, w2) => (Ok None, w2)
    | (Throw e, w2) => (Throw e, w2)
    end.
Proof.
  unfold getPaste, mbind at 1, M_bind. rewrite getCachedPaste_run. cbn [snd].
  unfold mbind at 1, M_bind.
  destruct (PasteRepository.getBySlug slug _) as [[[paste|]|e] w2]; [|done|done].
  unfold mbind at 1, M_bind. fold (cached_of_paste paste).
  rewrite cachePaste_run. cbn [snd].
  unfold mbind, M_bind, try_catch.
  unfold PasteRepository.incrementViewCount, PasteDAO.incrementViewCount, console_error.
  by destruct (rpc_error (faults _)).
Qed.

(** [getPaste] as a function of the table. *)
Lemma getPaste_store slug w :
  getPaste slug w
  = match select_error (faults w) with
    | Some msg =>
        (Throw (Error ("Failed to find paste: " +:+ msg)), snd (getCachedPaste slug w))
    | None =>
        match List.filter (fun r => bool_decide (PasteRow.slug r = slug)) (pastes w) with
        | [row] =>
            if PasteRepository.isExpired (PasteRow.expires_at row) (now w)
            then (Ok None, snd (getCachedPaste slug w))
            else
              (Ok (Some (PasteRepository.toDomainModel row)),
               snd (try_catch
                      (PasteRepository.incrementViewCount (PasteRow.id row))
                      (fun err => console_error "Failed to increment view count:")
                      (snd (cachePaste slug
                              (cached_of_paste (PasteRepository.toDomainModel row))
                              (snd (getCachedPaste slug w))))))
        | _ => (Ok None, snd (getCachedPaste slug w))
        end
    end.
Proof.
  rewrite getPaste_unfold, getBySlug_run.
  destruct (getCachedPaste_world slug w) as (Hnow & _ & Hrows & _ & Hfaults).
  rewrite Hnow, Hrows, Hfaults.
  destruct (select_error (faults w)); [done|].
  destruct (List.filter _ _) as [|row [|]]; try done.
  by destruct (PasteRepository.isExpired _ _).
Qed.

(** The world after the two steps that follow a row found: the copy in
    the cache and the view counted. *)
Lemma getPaste_found_world slug paste id w :
  let w' := snd (try_catch (PasteRepository.incrementViewCount id)
                   (fun err => console_error "Failed to increment view count:")
                   (snd (cachePaste slug paste (snd (getCachedPaste slug w))))) in
  now w' = now w /\ faults w' = faults w
  /\ (forall k, k <> "paste:" +:+ slug -> redis w' !! k = redis w !! k)
  /\ pastes w'
     = match rpc_error (faults w) with
       | Some _ => pastes w
       | None => map (PasteDAO.increment_view_count id (now w)) (pastes w)
       end.
Proof.
  rewrite getCachedPaste_run, cachePaste_run. cbn [snd].
  unfold try_catch, PasteRepository.incrementViewCount, PasteDAO.incrementViewCount,
    console_error.
  destruct (get_error (faults w)), (set_error (faults w)) eqn:Hset; simpl; rewrite ?Hset;
    simpl; destruct (rpc_error (faults w)); simpl; repeat split; try done;
    intros k Hk; by rewrite lookup_insert_ne.
Qed.




(* ================================================================= *)
(** ** Paste service: creation *)

Lemma calculateExpiration_spec duration w :
  calculateExpiration duration w = (Ok (expiration_of duration (now w)), w).
Proof.
  unfold calculateExpiration, expiration_of.
  repeat case_bool_decide; reflexivity.
Qed.

Lemma createPaste_invalid salt sha zod input ip w e :
  validateCreatePasteInput zod input = Throw e ->
  createPaste salt sha zod input ip w = (Throw e, w).
Proof. intros Hval. unfold createPaste, mbind, M_bind, lift. by rewrite Hval. Qed.

Lemma createPaste_policy salt sha zod input ip w v e :
  validateCreatePasteInput zod input = Ok v ->
  validateExpirationRules (userId v) (expiresIn v) = Throw e ->
  createPaste salt sha zod input ip w = (Throw e, w).
Proof.
  intros Hval Hrule. unfold createPaste, mbind, M_bind, lift.
  by rewrite Hval, Hrule.
Qed.

(** C9: when the input fails validation, or passes it and fails the
    expiration rule, [createPaste] throws that error and the world is the
    one it started from: the counter is not incremented, no row is
    inserted, nothing is written to the cache. *)
Theorem createPaste_rejects_before_side_effects salt sha zod input ip w e :
  validateCreatePasteInput zod input = Throw e
  \/ (exists v, validateCreatePasteInput zod input = Ok v
                /\ validateExpirationRules (userId v) (expiresIn v) = Throw e) ->
  createPaste salt sha zod input ip w = (Throw e, w).
Proof.
  intros [Hval | (v & Hval & Hrule)].
  - by apply createPaste_invalid.
  - by eapply createPaste_policy.
Qed.

Lemma createPaste_rejects_before_side_effects_witness :
  createPaste (ustr "pepper") (fun ip => ip) (fun _ => false)
    (JsObject (JsString (ustr "print('hi')")) (JsString (ustr "cobol"))
              JsUndefined JsUndefined)
    "203.0.113.7" (sample_world 1700000600000 1700003600000 healthy)
  = (Throw (ZodError
       (issue "language"
          ("Language must be one of: " +:+ join_comma SUPPORTED_LANGUAGES))),
     sample_world 1700000600000 1700003600000 healthy).
Proof.
  apply (createPaste_rejects_before_side_effects (ustr "pepper") (fun ip => ip)
           (fun _ => false)).
  left. reflexivity.
Defined.

(** C8: once the input has passed validation, the expiration rule and the
    size check, the counter has been incremented and the store has
    accepted the row, [createPaste] returns the created paste, whether or
    not the cache write that follows fails; a failed cache write leaves a
    line on the console and nothing else. *)
Theorem createPaste_survives_cache_failure salt sha zod input ip w v counter w1 row w2 :
  validateCreatePasteInput zod input = Ok v ->
  validateExpirationRules (userId v) (expiresIn v) = Ok tt ->
  shouldUseObjectStorage (content v) = false ->
  Redis.incr "paste_counter" w = (Ok counter, w1) ->
  PasteDAO.insert (insert_of salt sha v ip counter (now w1)) w1 = (Ok row, w2) ->
  exists w3,
    createPaste salt sha zod input ip w = (Ok (PasteRepository.toDomainModel row), w3)
    /\ pastes w3 = pastes w2
    /\ (forall msg, set_error (faults w2) = Some msg ->
        w3 = with_console ("Failed to cache paste:" :: console w2) w2).
Proof.
  intros Hval Hrule Hsize Hincr Hins.
  unfold createPaste, mbind at 1, M_bind, lift. rewrite Hval.
  unfold mbind at 1, M_bind. rewrite Hrule.
  unfold mbind at 1, M_bind. rewrite Hsize. unfold mret at 1, M_ret.
  rewrite (bind_Ok _ _ _ _ _ Hincr).
  rewrite (bind_Ok _ _ _ _ _ (calculateExpiration_spec _ _)).
  unfold PasteRepository.create.
  fold (insert_of salt sha v ip counter (now w1)).
  unfold mbind at 1, M_bind. rewrite (bind_Ok _ _ _ _ _ Hins).
  unfold mret at 1, M_ret.
  unfold mbind, M_bind, cachePaste, try_catch, Redis.set, backend_call, console_error.
  destruct (set_error (faults w2)) as [msg|] eqn:Hset; simpl.
  - eexists. split; [reflexivity|]. split; [reflexivity|]. by intros ? _.
  - eexists. split; [reflexivity|]. split; [reflexivity|]. by intros ?.
Qed.

Lemma createPaste_survives_cache_failure_witness :
  exists p w3,
    createPaste (ustr "pepper") (fun ip => ip) (fun _ => false)
      (JsObject (JsString (ustr "print('hi')")) (JsString (ustr "python"))
                (JsString (ustr "1d")) JsUndefined)
      "203.0.113.7" (with_faults cache_down (empty_world 1700000000000))
    = (Ok p, w3)
    /\ Paste.slug p = generateSlug (ustr "pepper") 1
    /\ PasteRow.slug <$> pastes w3 = [Paste.slug p]
    /\ redis w3 !! ("paste:" +:+ Paste.slug p) = None
    /\ console w3 = ["Failed to cache paste:"].
Proof.
  edestruct (createPaste_survives_cache_failure (ustr "pepper") (fun ip => ip)
               (fun _ => false)
               (JsObject (JsString (ustr "print('hi')")) (JsString (ustr "python"))
                         (JsString (ustr "1d")) JsUndefined)
               "203.0.113.7" (with_faults cache_down (empty_world 1700000000000)))
    as (w3 & Hrun & Hrows & Hcache);
    [reflexivity | reflexivity | reflexivity | reflexivity | reflexivity |].
  specialize (Hcache _ eq_refl).
  eexists _, w3. split; [exact Hrun|]. subst w3.
  vm_compute. repeat split; reflexivity.
Defined.

(* ================================================================= *)
(** ** Paste service: the expiration rule *)

Lemma parse_enum_never path message dflt :
  parse_enum path message EXPIRATION_OPTIONS dflt (JsString (ustr "never"))
  = inr "never".
Proof. reflexivity. Qed.

Lemma validated_anonymous_never zod c l u v :
  u = JsUndefined \/ u = JsNull ->
  validateCreatePasteInput zod (JsObject c l (JsString (ustr "never")) u) = Ok v ->
  userId v = None /\ expiresIn v = "never".
Proof.
  unfold validateCreatePasteInput, createPasteSchema_parse.
  rewrite parse_enum_never.
  intros [-> | ->]; simpl;
    destruct (parse_content c), (parse_enum _ _ _ _ l); simpl;
    intros [= <-]; done.
Qed.

(** C5, as the code has it: an anonymous request (no [userId], or [null])
    for a paste that never expires, whose input passes validation, fails
    with the policy error, which the handler answers by 403; the world is
    unchanged. *)
Theorem createPaste_anonymous_never_is_policy_violation
    salt sha zod c l u ip w v :
  u = JsUndefined \/ u = JsNull ->
  validateCreatePasteInput zod (JsObject c l (JsString (ustr "never")) u) = Ok v ->
  createPaste salt sha zod (JsObject c l (JsString (ustr "never")) u) ip w
  = (Throw (Error "Anonymous users must set an expiration time"), w)
  /\ post_status (error_status (Error "Anonymous users must set an expiration time"))
     = 403.
Proof.
  intros Hu Hval. split; [|reflexivity].
  destruct (validated_anonymous_never _ _ _ _ _ Hu Hval) as [Huser Hnever].
  eapply createPaste_policy; [exact Hval|]. by rewrite Huser, Hnever.
Qed.

Lemma createPaste_anonymous_never_is_policy_violation_witness :
  createPaste (ustr "pepper") (fun ip => ip) (fun _ => false)
    (JsObject (JsString (ustr "print('hi')")) JsUndefined
              (JsString (ustr "never")) JsNull)
    "203.0.113.7" (empty_world 1700000000000)
  = (Throw (Error "Anonymous users must set an expiration time"),
     empty_world 1700000000000)
  /\ post_status (error_status (Error "Anonymous users must set an expiration time"))
     = 403.
Proof.
  eapply (createPaste_anonymous_never_is_policy_violation (ustr "pepper")
            (fun ip => ip) (fun _ => false));
    [right; reflexivity | reflexivity].
Defined.

(** The same request with an empty body is refused by the schema first:
    a validation error, answered by 400, not the policy error. *)
Lemma createPaste_anonymous_never_invalid_content :
  let input := JsObject (JsString []) JsUndefined (JsString (ustr "never")) JsUndefined in
  let w := empty_world 1700000000000 in
  createPaste (ustr "pepper") (fun ip => ip) (fun _ => false) input "203.0.113.7" w
  = (Throw (ZodError (issue "content" "Content cannot be empty")), w)
  /\ fst (POST (ustr "pepper") (fun ip => ip) (fun _ => false) (request_of input) w)
     = Ok (Failed 400 "Validation failed" (Some "content: Content cannot be empty")).
Proof. split; vm_compute; reflexivity. Qed.

(* ================================================================= *)
(** ** Paste service: the size limit *)

Lemma parse_content_too_long val :
  (CONTENT_SIZE_LIMIT < N.of_nat (length val))%N ->
  exists issues, parse_content (JsString val) = inl issues.
Proof.
  intros Hlen. unfold parse_content.
  apply N.ltb_lt in Hlen. rewrite Hlen.
  destruct (N.of_nat (length val) <? 1)%N; simpl; eauto.
Qed.

(** A body of more than 102,400 UTF-16 code units never reaches the size
    check of the service: the schema refuses it, and the handler answers
    a [ZodError] by 400. *)
Lemma createPaste_too_long salt sha zod val l e u ip w :
  (CONTENT_SIZE_LIMIT < N.of_nat (length val))%N ->
  exists issues,
    createPaste salt sha zod (JsObject (JsString val) l e u) ip w
    = (Throw (ZodError issues), w)
    /\ post_status (error_status (ZodError issues)) = 400.
Proof.
  intros Hlen. destruct (parse_content_too_long _ Hlen) as [issues Hparse].
  eexists. split; [|reflexivity].
  apply createPaste_invalid.
  unfold validateCreatePasteInput, createPasteSchema_parse. rewrite Hparse.
  reflexivity.
Qed.

(** The other half of the bound holds: a body of at most 102,400 bytes has
    at most as many code units, and trimming does not add bytes, so neither
    the schema nor the size check of the service refuses it for its size. *)
Lemma utf8Length_unfold u rest :
  utf8Length (u :: rest)
  = (if u <? 128 then 1 + utf8Length rest
     else if u <? 2048 then 2 + utf8Length rest
     else if isHighSurrogate u then
       match rest with
       | lo :: rest' =>
           if isLowSurrogate lo then 4 + utf8Length rest'
           else 3 + utf8Length rest
       | [] => 3
       end
     else 3 + utf8Length rest)%N.
Proof. reflexivity. Qed.

Lemma list_pair_ind (P : ustring -> Prop) :
  P [] -> (forall u, P [u]) ->
  (forall u v rest, P rest -> P (v :: rest) -> P (u :: v :: rest)) ->
  forall s, P s.
Proof.
  intros Hnil Hone Hstep s.
  assert (H : P s /\ forall u, P (u :: s)); [|tauto].
  induction s as [|v s [IH1 IH2]]; [by split|].
  split; [apply IH2|]. intros u. apply Hstep; auto.
Qed.

Lemma utf8Length_ge_length s : (N.of_nat (length s) <= utf8Length s)%N.
Proof.
  induction s as [|u|u v rest IH1 IH2] using list_pair_ind.
  - simpl. lia.
  - rewrite utf8Length_unfold. change (utf8Length []) with 0%N. simpl length.
    destruct (u <? 128)%N, (u <? 2048)%N, (isHighSurrogate u); lia.
  - rewrite utf8Length_unfold.
    change (length (u :: v :: rest)) with (S (length (v :: rest))).
    change (length (v :: rest)) with (S (length rest)) in *.
    destruct (u <? 128)%N, (u <? 2048)%N, (isHighSurrogate u),
      (isLowSurrogate v); lia.
Qed.

Lemma utf8Length_app_ge s t : (utf8Length s <= utf8Length (s ++ t))%N.
Proof.
  revert t. induction s as [|u|u v rest IH1 IH2] using list_pair_ind; intros t.
  - simpl. lia.
  - change ([u] ++ t) with (u :: t).
    rewrite (utf8Length_unfold u []), (utf8Length_unfold u t).
    change (utf8Length []) with 0%N.
    destruct t as [|x t];
      destruct (u <? 128)%N, (u <? 2048)%N, (isHighSurrogate u);
      try destruct (isLowSurrogate x); lia.
  - change ((u :: v :: rest) ++ t) with (u :: v :: (rest ++ t)).
    rewrite (utf8Length_unfold u (v :: rest)).
    rewrite (utf8Length_unfold u (v :: rest ++ t)).
    specialize (IH1 t). specialize (IH2 t).
    change ((v :: rest) ++ t) with (v :: rest ++ t) in IH2.
    destruct (u <? 128)%N, (u <? 2048)%N, (isHighSurrogate u),
      (isLowSurrogate v); lia.
Qed.

Lemma trimStart_suffix s : exists ws, s = ws ++ trimStart s.
Proof.
  induction s as [|u s [ws IH]]; [by exists []|].
  simpl. destruct (isWhiteSpace u).
  - exists (u :: ws). simpl. by rewrite <- IH.
  - by exists [].
Qed.

Lemma isWhiteSpace_not_surrogate u :
  isWhiteSpace u = true -> isHighSurrogate u = false /\ isLowSurrogate u = false.
Proof.
  unfold isWhiteSpace, isHighSurrogate, isLowSurrogate.
  rewrite !orb_true_iff, !andb_true_iff, !andb_false_iff.
  rewrite !N.leb_le, !N.eqb_eq, !N.leb_gt. lia.
Qed.

Lemma utf8Length_trimStart s : (utf8Length (trimStart s) <= utf8Length s)%N.
Proof.
  induction s as [|u s IH]; [simpl; lia|].
  cbn [trimStart]. destruct (isWhiteSpace u) eqn:Hu; [|lia].
  apply isWhiteSpace_not_surrogate in Hu as [Hhi _].
  rewrite (utf8Length_unfold u s), Hhi.
  destruct (u <? 128)%N, (u <? 2048)%N; lia.
Qed.

Lemma utf8Length_trim s : (utf8Length (trim s) <= utf8Length s)%N.
Proof.
  unfold trim. etrans; [|apply utf8Length_trimStart].
  destruct (trimStart_suffix (reverse (trimStart s))) as [ws Hws].
  apply (f_equal reverse) in Hws.
  rewrite reverse_involutive, reverse_app in Hws.
  rewrite Hws at 2. apply utf8Length_app_ge.
Qed.

Lemma createPaste_size_bound val :
  (utf8Length val <= CONTENT_SIZE_LIMIT)%N ->
  (CONTENT_SIZE_LIMIT <? N.of_nat (length val))%N = false
  /\ shouldUseObjectStorage (trim val) = false.
Proof.
  intros Hbytes. pose proof (utf8Length_ge_length val).
  pose proof (utf8Length_trim val). unfold shouldUseObjectStorage.
  split; apply N.ltb_ge; lia.
Qed.

(** C4 on the code: a body of 102,401 ASCII characters (102,401 bytes) is
    answered by 400 "Validation failed", where the claim has 413; no paste
    is created. *)
Theorem POST_oversized_ascii_is_400 :
  let body := JsObject (JsString (repeat 97%N (N.to_nat 102401))) JsUndefined JsUndefined JsUndefined in
  let '(r, w) := POST (ustr "pepper") (fun ip => ip) (fun _ => false)
                      (request_of body) (empty_world 1700000000000) in
  utf8Length (repeat 97%N (N.to_nat 102401)) = 102401%N
  /\ r = Ok (Failed 400 "Validation failed"
               (Some "content: Content exceeds maximum size of 100KB"))
  /\ pastes w = [].
Proof. vm_compute. repeat split; reflexivity. Qed.

(** 413 is reached only by a body that fits in code units and not in
    bytes: 51,201 times U+00E9 is 102,402 bytes. *)
Example POST_oversized_multibyte_is_413 :
  let body := JsObject (JsString (repeat 0xE9%N (N.to_nat 51201))) JsUndefined JsUndefined JsUndefined in
  fst (POST (ustr "pepper") (fun ip => ip) (fun _ => false)
            (request_of body) (empty_world 1700000000000))
  = Ok (Failed 413 "Content too large. Object storage not yet implemented." None).
Proof. vm_compute. reflexivity. Qed.

(* ================================================================= *)
(** ** Paste service: reads *)



(* ================================================================= *)
(** ** View count *)

(** The count of a new row is 0, and the SQL function only adds to it. *)
Lemma insert_starts_at_zero data w row w' :
  PasteDAO.insert data w = (Ok row, w') -> PasteRow.view_count row = Some 0.
Proof.
  unfold PasteDAO.insert.
  destruct (insert_error (faults w)); [done|].
  destruct (existsb _ _); [done|].
  destruct (PasteInsert.user_id data), (PasteInsert.expires_at data);
    intros [= <- _]; done.
Qed.

Lemma increment_view_count_grows paste_id t r n :
  PasteRow.view_count r = Some n ->
  exists n', PasteRow.view_count (PasteDAO.increment_view_count paste_id t r) = Some n'
             /\ n <= n' <= n + 1
             /\ (PasteRow.id r = paste_id -> n' = n + 1).
Proof.
  intros Hn. unfold PasteDAO.increment_view_count.
  case_bool_decide; simpl; rewrite Hn; simpl; eexists; (split; [reflexivity|]); lia.
Qed.

Lemma increment_view_count_slug paste_id t r :
  PasteRow.slug (PasteDAO.increment_view_count paste_id t r) = PasteRow.slug r.
Proof. unfold PasteDAO.increment_view_count. by case_bool_decide. Qed.

Lemma filter_slug_increment slug paste_id t rows :
  List.filter (fun r => bool_decide (PasteRow.slug r = slug))
    (map (PasteDAO.increment_view_count paste_id t) rows)
  = map (PasteDAO.increment_view_count paste_id t)
      (List.filter (fun r => bool_decide (PasteRow.slug r = slug)) rows).
Proof.
  induction rows as [|r rows IH]; [done|]. simpl.
  rewrite increment_view_count_slug, IH. by case_bool_decide.
Qed.

(** One read: it counts one view when it returns the paste and the store
    takes the increment, none otherwise. *)
Lemma getPaste_counts_one slug w row n r w' :
  List.filter (fun r => bool_decide (PasteRow.slug r = slug)) (pastes w) = [row] ->
  PasteRow.view_count row = Some n ->
  getPaste slug w = (r, w') ->
  faults w' = faults w
  /\ exists row' n',
       List.filter (fun r => bool_decide (PasteRow.slug r = slug)) (pastes w') = [row']
       /\ PasteRow.view_count row' = Some n'
       /\ match r with
          | Ok (Some _) => n <= n' <= n + 1 /\ (rpc_error (faults w) = None -> n' = n + 1)
          | _ => n' = n
          end.
Proof.
  intros Hrow Hn. rewrite getPaste_store, Hrow.
  destruct (getCachedPaste_world slug w) as (_ & _ & Hrows & _ & Hfaults).
  assert (Hkeep :
            faults (snd (getCachedPaste slug w)) = faults w
            /\ exists row' n',
                 List.filter (fun r => bool_decide (PasteRow.slug r = slug))
                   (pastes (snd (getCachedPaste slug w))) = [row']
                 /\ PasteRow.view_count row' = Some n' /\ n' = n).
  { split; [exact Hfaults|]. exists row, n. by rewrite Hrows. }
  destruct (select_error (faults w)); [intros [= <- <-]; exact Hkeep|].
  destruct (PasteRepository.isExpired _ _); [intros [= <- <-]; exact Hkeep|].
  intros [= <- <-].
  destruct (getPaste_found_world slug
              (cached_of_paste (PasteRepository.toDomainModel row)) (PasteRow.id row) w)
    as (_ & Hfaults' & _ & Hrows').
  split; [exact Hfaults'|]. rewrite Hrows'.
  destruct (rpc_error (faults w)).
  - exists row, n. split; [exact Hrow|]. split; [exact Hn|]. split; [lia | done].
  - rewrite filter_slug_increment, Hrow. simpl.
    destruct (increment_view_count_grows (PasteRow.id row) (now w) row n Hn)
      as (n' & Hn' & Hrange & Hexact).
    eexists _, n'. split; [reflexivity|]. split; [exact Hn'|]. split; [exact Hrange|].
    intros _. by apply Hexact.
Qed.

(** C2: the stored [view_count] starts at 0 and follows the reads.  After
    the reads of a slug made at the given instants, [m] of which returned
    the paste, the count of its row has not decreased and has grown by at
    most [m]; it has grown by exactly [m] when the store takes the
    increments (a count that the store refuses is logged and lost, the
    read is answered all the same).  Every read is counted because none
    is answered from the cache. *)
Theorem getPaste_counts_every_read :
  (forall data w row w',
     PasteDAO.insert data w = (Ok row, w') -> PasteRow.view_count row = Some 0)
  /\ (forall slug times w row n,
        List.filter (fun r => bool_decide (PasteRow.slug r = slug)) (pastes w) = [row] ->
        PasteRow.view_count row = Some n ->
        exists row' n',
          List.filter (fun r => bool_decide (PasteRow.slug r = slug))
            (pastes (snd (getPaste_run slug times w))) = [row']
          /\ PasteRow.view_count row' = Some n'
          /\ n <= n' <= n + Z.of_nat (fst (getPaste_run slug times w))
          /\ (rpc_error (faults w) = None ->
              n' = n + Z.of_nat (fst (getPaste_run slug times w)))).
Proof.
  split; [apply insert_starts_at_zero|].
  intros slug times. induction times as [|t later IH]; intros w row n Hrow Hn.
  - exists row, n. simpl. split; [exact Hrow|]. split; [exact Hn|]. split; [lia|].
    intros _. lia.
  - cbn [getPaste_run].
    destruct (getPaste slug (at_time t w)) as [r w1] eqn:Hread.
    destruct (getPaste_counts_one slug (at_time t w) row n r w1 Hrow Hn Hread)
      as (Hfaults & row1 & n1 & Hrow1 & Hn1 & Hstep).
    destruct (IH w1 row1 n1 Hrow1 Hn1) as (row' & n' & Hrow' & Hn' & Hrange & Hexact).
    destruct (getPaste_run slug later w1) as [m w2] eqn:Hlater. cbn [fst snd] in *.
    exists row', n'. split; [exact Hrow'|]. split; [exact Hn'|].
    simpl in Hfaults. rewrite Hfaults in Hexact.
    destruct r as [[p|]|e]; cbn [fst snd].
    + destruct Hstep as [Hrange1 Hexact1]. simpl in Hexact1. split; [lia|].
      intros Hrpc. specialize (Hexact Hrpc). specialize (Hexact1 Hrpc). lia.
    + subst n1. split; [lia|]. intros Hrpc. by apply Hexact.
    + subst n1. split; [lia|]. intros Hrpc. by apply Hexact.
Qed.

(** A paste is created and read three times: the three reads return it,
    and its row, inserted with a count of 0, holds a count of 3. *)
Lemma getPaste_counts_every_read_witness :
  let t0 := 1700000000000 in
  let created :=
    POST (ustr "pepper") (fun ip => ip) (fun _ => false)
         (hello_request "1d") (empty_world t0) in
  let slug := created_slug (fst created) in
  let reads := getPaste_run slug [t0 + 1000; t0 + 2000; t0 + 3000] (snd created) in
  PasteRow.view_count <$> pastes (snd created) = [Some 0]
  /\ fst reads = 3%nat
  /\ exists row',
       List.filter (fun r => bool_decide (PasteRow.slug r = slug)) (pastes (snd reads))
       = [row']
       /\ PasteRow.view_count row' = Some 3.
Proof.
  intros t0 created slug reads.
  split; [vm_compute; reflexivity|]. split; [vm_compute; reflexivity|].
  edestruct (proj2 getPaste_counts_every_read slug
               [t0 + 1000; t0 + 2000; t0 + 3000] (snd created))
    as (row' & n' & Hrow' & Hn' & _ & Hexact);
    [vm_compute; reflexivity | reflexivity |].
  exists row'. split; [exact Hrow'|]. rewrite Hn', Hexact by reflexivity.
  vm_compute. reflexivity.
Defined.

(* ================================================================= *)
(** ** Hashids: the consistent shuffle *)

Lemma swap_Permutation l i j : Hashids.swap l i j ≡ₚ l.
Proof.
  unfold Hashids.swap.
  destruct (l !! i) as [a|] eqn:Hi; [|done].
  destruct (l !! j) as [b|] eqn:Hj; [|done].
  by apply Permutation_insert_swap.
Qed.

Lemma shuffle_loop_Permutation saltChars i v p l :
  Hashids.shuffle_loop saltChars i v p l ≡ₚ l.
Proof.
  revert v p l. induction i as [|i IH]; intros v p l; simpl; [done|].
  rewrite IH. apply swap_Permutation.
Qed.

Lemma shuffle_Permutation l saltChars : Hashids.shuffle l saltChars ≡ₚ l.
Proof.
  unfold Hashids.shuffle. destruct saltChars; [done|].
  apply shuffle_loop_Permutation.
Qed.

Lemma shuffle_length l saltChars : length (Hashids.shuffle l saltChars) = length l.
Proof. by rewrite shuffle_Permutation. Qed.

Lemma shuffle_NoDup l saltChars : NoDup l -> NoDup (Hashids.shuffle l saltChars).
Proof. by rewrite shuffle_Permutation. Qed.

Lemma shuffle_elem_of l saltChars c : c ∈ Hashids.shuffle l saltChars <-> c ∈ l.
Proof. by rewrite shuffle_Permutation. Qed.

(** The loop reads the salt at the positions [v], [v + 1], ... only: two
    salts that agree on the first [n] positions shuffle alike when the
    loop stays below [n]. *)
Lemma shuffle_loop_ext (n : nat) salt1 salt2 i v p l :
  (n <= length salt1)%nat -> (n <= length salt2)%nat ->
  (forall k, (k < n)%nat -> nth k salt1 0%N = nth k salt2 0%N) ->
  (N.to_nat v + i <= n)%nat ->
  Hashids.shuffle_loop salt1 i v p l = Hashids.shuffle_loop salt2 i v p l.
Proof.
  intros H1 H2 Hnth. revert v p l.
  induction i as [|i IH]; intros v p l Hv; simpl; [done|].
  rewrite (N.mod_small v (N.of_nat (length salt1))) by lia.
  rewrite (N.mod_small v (N.of_nat (length salt2))) by lia.
  rewrite (Hnth (N.to_nat v)) by lia.
  apply IH. lia.
Qed.

Lemma shuffle_take l buffer :
  (length l <= length buffer)%nat ->
  Hashids.shuffle l (take (length l) buffer) = Hashids.shuffle l buffer.
Proof.
  intros Hlen. destruct l as [|c l]; [by destruct buffer|].
  unfold Hashids.shuffle.
  destruct buffer as [|b buffer]; [simpl in Hlen; lia|].
  change (take (length (c :: l)) (b :: buffer))
    with (b :: take (length l) buffer).
  change (b :: take (length l) buffer)
    with (take (length (c :: l)) (b :: buffer)).
  apply (shuffle_loop_ext (length (c :: l))).
  - rewrite length_take. lia.
  - lia.
  - intros k Hk. rewrite nth_firstn.
    destruct (Nat.ltb_spec k (length (c :: l))); [done | lia].
  - simpl. lia.
Qed.

(* ================================================================= *)
(** ** Hashids: positional notation *)

Lemma indexOf_nth chars (i : nat) :
  NoDup chars -> (i < length chars)%nat ->
  Hashids.indexOf chars (nth i chars Ascii.zero) = Some (N.of_nat i).
Proof.
  intros Hnd. revert i. induction Hnd as [|c chars Hc Hnd IH]; intros i Hi.
  - simpl in Hi. lia.
  - destruct i as [|i]; simpl.
    + by rewrite decide_True.
    + simpl in Hi. rewrite decide_False.
      * rewrite IH by lia. simpl. f_equal. lia.
      * intros ->. apply Hc. apply list_elem_of_In, nth_In. lia.
Qed.

Lemma indexOf_charAt chars (i : N) :
  NoDup chars -> (i < N.of_nat (length chars))%N ->
  Hashids.indexOf chars (Hashids.charAt chars i) = Some i.
Proof.
  intros Hnd Hi. unfold Hashids.charAt.
  rewrite indexOf_nth by (done || lia). f_equal. lia.
Qed.

Lemma charAt_elem_of chars (i : N) :
  (i < N.of_nat (length chars))%N -> Hashids.charAt chars i ∈ chars.
Proof.
  intros Hi. unfold Hashids.charAt. apply list_elem_of_In, nth_In. lia.
Qed.

(** Dividing by a base of at least two lowers the binary logarithm. *)
Lemma log2_div_lt (value base : N) :
  (2 <= base)%N -> (0 < value / base)%N ->
  (N.log2 (value / base) < N.log2 value)%N.
Proof.
  intros Hb Hq.
  assert (Hv : (0 < value)%N).
  { destruct (N.eq_dec value 0%N) as [->|]; [|lia]. rewrite N.Div0.div_0_l in Hq; lia. }
  apply N.log2_lt_pow2; [done|].
  pose proof (N.log2_spec value Hv) as [_ Hup].
  rewrite N.pow_succ_r' in Hup.
  apply N.Div0.div_lt_upper_bound. nia.
Qed.

Lemma last_digit (value base : N) :
  (value / base <= 0)%N -> (0 * base + value mod base)%N = value.
Proof.
  intros Hq. pose proof (N.Div0.div_mod value base) as Hdm.
  revert Hq Hdm. generalize (value / base)%N (value mod base)%N.
  intros q r Hq. assert (q = 0)%N as -> by lia. lia.
Qed.

Lemma next_digit (value base : N) :
  (value / base * base + value mod base)%N = value.
Proof. pose proof (N.Div0.div_mod value base). lia. Qed.

Lemma toAlphabet_loop_unfold fuel value chars id :
  Hashids.toAlphabet_loop fuel value chars id
  = let len := N.of_nat (length chars) in
    let id' := Hashids.charAt chars (value mod len) :: id in
    if (0 <? value / len)%N
    then match fuel with
         | S fuel' => Hashids.toAlphabet_loop fuel' (value / len) chars id'
         | O => id'
         end
    else id'.
Proof. by destruct fuel. Qed.

Section Positional.
Variable chars : list ascii.
Hypothesis chars_NoDup : NoDup chars.
Hypothesis chars_base : (2 <= length chars)%nat.

Local Abbreviation base := (N.of_nat (length chars)).

Lemma fromAlphabet_from_cons carry (i : N) rest :
  (i < base)%N ->
  fromAlphabet_from chars (Some carry) (Hashids.charAt chars i :: rest)
  = fromAlphabet_from chars (Some (carry * base + i)%N) rest.
Proof.
  intros Hi. unfold fromAlphabet_from. simpl.
  by rewrite indexOf_charAt.
Qed.

(** Reading back what the loop wrote in front of [id] amounts to reading
    [id] with the value as carry. *)
Lemma toAlphabet_loop_read fuel value id :
  (N.log2 value <= N.of_nat fuel)%N ->
  fromAlphabet_from chars (Some 0%N) (Hashids.toAlphabet_loop fuel value chars id)
  = fromAlphabet_from chars (Some value) id.
Proof.
  assert (Hbase : (2 <= base)%N) by lia.
  revert value id. induction fuel as [|fuel IH]; intros value id Hfuel;
    rewrite toAlphabet_loop_unfold; cbv zeta;
    assert (Hmod : (value mod base < base)%N) by (apply N.mod_lt; lia);
    destruct (N.ltb_spec 0 (value / base)) as [Hq|Hq].
  - exfalso.
    pose proof (log2_div_lt value base Hbase Hq). lia.
  - rewrite fromAlphabet_from_cons by done. do 2 f_equal.
    by apply last_digit.
  - rewrite IH.
    + rewrite fromAlphabet_from_cons by done. do 2 f_equal.
      apply next_digit.
    + pose proof (log2_div_lt value base Hbase Hq). lia.
  - rewrite fromAlphabet_from_cons by done. do 2 f_equal.
    by apply last_digit.
Qed.

Lemma fromAlphabet_toAlphabet (n : N) :
  Hashids.fromAlphabet (Hashids.toAlphabet n chars) chars = Some n.
Proof.
  change (fromAlphabet_from chars (Some 0%N) (Hashids.toAlphabet n chars) = Some n).
  unfold Hashids.toAlphabet. rewrite toAlphabet_loop_read by lia. done.
Qed.

Lemma toAlphabet_loop_Forall fuel value id :
  Forall (fun c => c ∈ chars) id ->
  Forall (fun c => c ∈ chars) (Hashids.toAlphabet_loop fuel value chars id).
Proof.
  revert value id. induction fuel as [|fuel IH]; intros value id Hid;
    rewrite toAlphabet_loop_unfold; cbv zeta.
  all: assert (Hashids.charAt chars (value mod N.of_nat (length chars)) ∈ chars)
         by (apply charAt_elem_of, N.mod_lt; lia).
  all: destruct (0 <? value / N.of_nat (length chars))%N; auto.
Qed.

Lemma toAlphabet_Forall n :
  Forall (fun c => c ∈ chars) (Hashids.toAlphabet n chars).
Proof. apply toAlphabet_loop_Forall. constructor. Qed.

Lemma toAlphabet_loop_length fuel value id :
  (length id < length (Hashids.toAlphabet_loop fuel value chars id))%nat.
Proof.
  revert value id. induction fuel as [|fuel IH]; intros value id;
    rewrite toAlphabet_loop_unfold; cbv zeta.
  - destruct (0 <? _)%N; simpl; lia.
  - destruct (0 <? _)%N; [|simpl; lia].
    etrans; [|apply IH]. simpl. lia.
Qed.

Lemma toAlphabet_nonempty n : Hashids.toAlphabet n chars <> [].
Proof.
  intros H. pose proof (toAlphabet_loop_length (N.to_nat (N.log2 n)) n []) as Hl.
  unfold Hashids.toAlphabet in H. rewrite H in Hl. simpl in Hl. lia.
Qed.

End Positional.

(* ================================================================= *)
(** ** Hashids: splitting at guards and separators *)

Lemma split_plain isSep str :
  Forall (fun c => isSep c = false) str -> Hashids.split isSep str = [str].
Proof.
  induction 1 as [|c str Hc _ IH]; simpl; [done|]. by rewrite Hc, IH.
Qed.

Lemma split_at isSep pre g str :
  Forall (fun c => isSep c = false) pre -> isSep g = true ->
  Hashids.split isSep (pre ++ g :: str) = pre :: Hashids.split isSep str.
Proof.
  intros Hpre Hg. induction Hpre as [|c pre Hc _ IH]; simpl.
  - by rewrite Hg.
  - by rewrite Hc, IH.
Qed.

Lemma includes_true chars c : c ∈ chars -> Hashids.includes chars c = true.
Proof. intros. by apply bool_decide_eq_true_2. Qed.

Lemma includes_false chars c : c ∉ chars -> Hashids.includes chars c = false.
Proof. intros. by apply bool_decide_eq_false_2. Qed.

(** [_decode] finds the core of a framed identifier. *)
Lemma framed_breakdown guards alphabet core id :
  (forall c, c ∈ alphabet -> c ∉ guards) ->
  Forall (fun c => c ∈ alphabet) core ->
  framed guards alphabet core id ->
  let idGuardsArray := Hashids.split (Hashids.includes guards) id in
  let splitIndex :=
    if ((length idGuardsArray =? 3) || (length idGuardsArray =? 2))%nat
    then 1%nat else 0%nat in
  nth splitIndex idGuardsArray [] = core.
Proof.
  intros Hdisj Hcore Hframed.
  assert (Hplain : forall l, Forall (fun c => c ∈ alphabet) l ->
                   Forall (fun c => Hashids.includes guards c = false) l).
  { intros l Hl. eapply Forall_impl; [exact Hl|].
    intros c Hc. apply includes_false; auto. }
  destruct Hframed as [|g Hg|pre g1 g2 post Hg1 Hg2 Hpre Hpost]; cbv zeta.
  - rewrite split_plain by auto. done.
  - change (g :: core) with ([] ++ g :: core).
    rewrite split_at by (auto using includes_true).
    rewrite split_plain by auto. done.
  - rewrite split_at by (auto using includes_true).
    rewrite split_at by (auto using includes_true).
    rewrite split_plain by auto. done.
Qed.

(* ================================================================= *)
(** ** Hashids: the encoder of the slugs *)

Lemma slug_letters_facts :
  length slug_letters = 48%nat
  /\ length slug_seps = 14%nat
  /\ NoDup (slug_letters ++ slug_seps)
  /\ Forall (fun c => isAlphanumeric c = true) (slug_letters ++ slug_seps).
Proof.
  split; [reflexivity|]. split; [reflexivity|]. split.
  - apply (bool_decide_unpack _). vm_compute. exact I.
  - apply (bool_decide_unpack _). vm_compute. exact I.
Qed.

(** The fields of an encoder whose alphabet leaves 48 letters and 14
    separators: 4 guards are taken from the shuffled letters. *)
Lemma new_fields salt minLength alphabet :
  let uniqueAlphabet := Hashids.keepUnique (list_ascii_of_string alphabet) in
  let sepsChars := list_ascii_of_string Hashids.default_seps in
  let letters := Hashids.withoutChars uniqueAlphabet sepsChars in
  let filteredSeps := Hashids.onlyChars sepsChars uniqueAlphabet in
  length letters = 48%nat ->
  length filteredSeps = 14%nat ->
  Hashids.new salt minLength alphabet
  = {| Hashids.salt := salt;
       Hashids.minLength := minLength;
       Hashids.alphabet := drop 4 (Hashids.shuffle letters salt);
       Hashids.seps := Hashids.shuffle filteredSeps salt;
       Hashids.guards := take 4 (Hashids.shuffle letters salt) |}.
Proof.
  intros uniqueAlphabet sepsChars letters filteredSeps Hletters Hseps.
  unfold Hashids.new. cbv zeta.
  fold uniqueAlphabet. fold sepsChars. fold letters. fold filteredSeps.
  rewrite (shuffle_length filteredSeps), Hletters, Hseps.
  change ((14 =? 0)%nat || (7 * 14 <? 2 * 48)%nat) with false.
  lazy beta iota.
  rewrite (shuffle_length letters), Hletters.
  change ((48 + 11) / 12)%nat with 4%nat.
  change (48 <? 3)%nat with false.
  reflexivity.
Qed.

Section SlugEncoder.
Variable salt : list N.

Local Abbreviation h := (hashids salt).
Local Abbreviation shuffled := (slug_shuffled salt).
Local Abbreviation A := (slug_alphabet salt).
Local Abbreviation G := (slug_guards salt).

Lemma hashids_fields :
  h = {| Hashids.salt := salt;
         Hashids.minLength := 6;
         Hashids.alphabet := A;
         Hashids.seps := Hashids.shuffle slug_seps salt;
         Hashids.guards := G |}.
Proof.
  unfold hashids, slug_alphabet, slug_guards, slug_shuffled, slug_letters, slug_seps.
  apply new_fields; vm_compute; reflexivity.
Qed.

Lemma shuffled_facts :
  NoDup shuffled /\ length shuffled = 48%nat
  /\ Forall (fun c => isAlphanumeric c = true) shuffled
  /\ (forall c, c ∈ shuffled -> c ∉ Hashids.shuffle slug_seps salt).
Proof.
  destruct slug_letters_facts as (Hletters & _ & Hnd & Halnum).
  apply NoDup_app in Hnd as (Hnd & Hdisj & _).
  apply Forall_app in Halnum as [Halnum _].
  unfold slug_shuffled. repeat split.
  - by apply shuffle_NoDup.
  - by rewrite shuffle_length.
  - by rewrite shuffle_Permutation.
  - intros c. rewrite !shuffle_elem_of. apply Hdisj.
Qed.

Lemma alphabet_facts :
  NoDup A /\ length A = 44%nat /\ length G = 4%nat
  /\ (forall c, c ∈ A -> c ∉ G)
  /\ (forall c, c ∈ A -> c ∉ Hashids.seps h)
  /\ (forall c, c ∈ A \/ c ∈ G -> isAlphanumeric c = true).
Proof.
  destruct shuffled_facts as (Hnd & Hlen & Halnum & Hseps).
  rewrite <- (take_drop 4 shuffled) in Hnd.
  fold (slug_guards salt) in Hnd. fold (slug_alphabet salt) in Hnd.
  apply NoDup_app in Hnd as (_ & Hdisj & HndA).
  assert (Hsub : forall c, c ∈ A \/ c ∈ G -> c ∈ shuffled).
  { intros c Hc. rewrite <- (take_drop 4 shuffled).
    fold (slug_guards salt). fold (slug_alphabet salt).
    apply elem_of_app. tauto. }
  rewrite hashids_fields. simpl. repeat split.
  - done.
  - unfold slug_alphabet. rewrite length_drop. lia.
  - unfold slug_guards. rewrite length_take. lia.
  - intros c HA HG. by apply (Hdisj c).
  - intros c HA. apply Hseps. auto.
  - intros c Hc. rewrite Forall_forall in Halnum. auto.
Qed.

Lemma pad_loop_done fuel minLength alphabet ret :
  (minLength <= length ret)%nat ->
  Hashids.pad_loop fuel minLength alphabet ret = ret.
Proof.
  intros Hlen. destruct fuel; simpl;
    destruct (Nat.ltb_spec (length ret) minLength); (done || lia).
Qed.

Lemma pad_loop_once fuel minLength alphabet ret :
  (length ret < minLength)%nat ->
  Hashids.pad_loop (S fuel) minLength alphabet ret
  = let halfLength := (length alphabet / 2)%nat in
    let alphabet' := Hashids.shuffle alphabet (map Hashids.codePointAt alphabet) in
    let ret' := drop halfLength alphabet' ++ ret ++ take halfLength alphabet' in
    let excess := (length ret' - minLength)%nat in
    Hashids.pad_loop fuel minLength alphabet'
      (if (0 <? excess)%nat then take minLength (drop (excess / 2) ret') else ret').
Proof.
  intros Hlen. cbn [Hashids.pad_loop].
  destruct (Nat.ltb_spec (length ret) minLength); [done | lia].
Qed.

(** A list of 22 characters ends with one. *)
Lemma last_of_22 (X : list ascii) :
  length X = 22%nat -> exists X0 x, X = X0 ++ [x] /\ length X0 = 21%nat /\ x ∈ X.
Proof.
  intros Hlen. destruct (drop 21 X) as [|x [|y rest]] eqn:Hdrop.
  - apply (f_equal length) in Hdrop. rewrite length_drop in Hdrop. simpl in Hdrop. lia.
  - assert (Heq : X = take 21 X ++ [x]) by (by rewrite <- Hdrop, take_drop).
    exists (take 21 X), x.
    split; [exact Heq|]. split; [rewrite length_take; lia|].
    rewrite Heq. apply elem_of_app. right. by apply list_elem_of_singleton.
  - apply (f_equal length) in Hdrop. rewrite length_drop in Hdrop. simpl in Hdrop. lia.
Qed.

(** One round of padding around four or five characters, with an alphabet
    of 44: one character in front, what is missing behind. *)
Lemma pad_round (alphabet ret : list ascii) :
  length alphabet = 44%nat ->
  length ret = 4%nat \/ length ret = 5%nat ->
  let ret' := drop 22 alphabet ++ ret ++ take 22 alphabet in
  let excess := (length ret' - 6)%nat in
  exists x post,
    x ∈ alphabet /\ Forall (fun c => c ∈ alphabet) post
    /\ (if (0 <? excess)%nat then take 6 (drop (excess / 2) ret') else ret')
       = [x] ++ ret ++ post
    /\ length ([x] ++ ret ++ post) = 6%nat.
Proof.
  intros Hlen Hret ret' excess.
  destruct (last_of_22 (drop 22 alphabet)) as (X0 & x & HX & HlenX0 & Hx);
    [rewrite length_drop; lia|].
  assert (Hxin : x ∈ alphabet).
  { rewrite <- (take_drop 22 alphabet). apply elem_of_app. by right. }
  assert (Hpost : forall k, Forall (fun c => c ∈ alphabet) (take k (take 22 alphabet))).
  { intros k. apply Forall_forall. intros c Hc.
    by apply subseteq_take, subseteq_take in Hc. }
  assert (Hlen' : length ret' = (44 + length ret)%nat).
  { unfold ret'. rewrite !length_app, length_drop, length_take. lia. }
  assert (Hdrop : drop 21 ret' = [x] ++ ret ++ take 22 alphabet).
  { unfold ret'. rewrite HX, <- app_assoc. by rewrite drop_app_length'. }
  subst excess. rewrite Hlen'.
  destruct Hret as [Hret | Hret]; rewrite Hret.
  - change (0 <? 44 + 4 - 6)%nat with true. change ((44 + 4 - 6) / 2)%nat with 21%nat.
    cbv iota. rewrite Hdrop.
    destruct ret as [|a [|b [|c [|d [|e ret]]]]]; try discriminate Hret.
    exists x, (take 1 (take 22 alphabet)). split; [done|]. split; [done|].
    split; [done|]. simpl. rewrite length_take, length_take. lia.
  - change (0 <? 44 + 5 - 6)%nat with true. change ((44 + 5 - 6) / 2)%nat with 21%nat.
    cbv iota. rewrite Hdrop.
    destruct ret as [|a [|b [|c [|d [|e [|f ret]]]]]]; try discriminate Hret.
    exists x, []. split; [done|]. split; [done|]. split; [|done].
    simpl. by rewrite take_0.
Qed.

Lemma encode_shape (n : N) :
  exists L A',
    L ∈ A /\ A' ≡ₚ A
    /\ A' = Hashids.shuffle A (Hashids.codePointAt L :: salt ++ map Hashids.codePointAt A)
    /\ framed G A (L :: Hashids.toAlphabet n A') (Hashids._encode h [n])
    /\ (6 <= length (Hashids._encode h [n]))%nat.
Proof.
  destruct alphabet_facts as (HndA & HlenA & HlenG & HAG & HAS & Halnum).
  rewrite hashids_fields.
  unfold Hashids._encode.
  cbn [Hashids.alphabet Hashids.guards Hashids.minLength Hashids.salt Hashids.seps].
  set (idInt := Hashids.numbersIdInt_from 0 [n]).
  set (L := Hashids.charAt A (idInt mod N.of_nat (length A))).
  cbn [Hashids.encode_numbers Hashids.salt].
  change (map Hashids.codePointAt [L] ++ salt ++ map Hashids.codePointAt A)
    with (Hashids.codePointAt L :: salt ++ map Hashids.codePointAt A).
  set (A' := Hashids.shuffle A _).
  set (last := Hashids.toAlphabet n A').
  change ([L] ++ last) with (L :: last).
  set (g1 := Hashids.charAt G
               ((idInt + Hashids.codePointAt (Hashids.charAt (L :: last) 0)) mod _)).
  set (g2 := Hashids.charAt G _).
  assert (HL : L ∈ A) by (apply charAt_elem_of, N.mod_lt; lia).
  assert (HA' : A' ≡ₚ A) by apply shuffle_Permutation.
  assert (Hg1 : g1 ∈ G) by (apply charAt_elem_of, N.mod_lt; lia).
  assert (Hg2 : g2 ∈ G) by (apply charAt_elem_of, N.mod_lt; lia).
  assert (HlenA' : length A' = 44%nat) by (by rewrite HA').
  assert (Hlast : Forall (fun c => c ∈ A) last).
  { eapply Forall_impl; [apply toAlphabet_Forall; lia|].
    intros c Hc. by apply shuffle_elem_of in Hc. }
  assert (Hne : last <> []).
  { apply toAlphabet_nonempty. lia. }
  exists L, A'. split; [done|]. split; [done|]. split; [done|].
  change (Hashids.toAlphabet n A') with last.
  clearbody last g1 g2 A'.
  destruct last as [|d1 [|d2 [|d3 [|d4 [|d5 rest]]]]]; [done| | | | |].
  - (* one digit: both guards, then one round of padding *)
    cbn [length Nat.ltb Nat.leb app].
    rewrite pad_loop_once by (simpl; lia). cbv zeta.
    rewrite HlenA'. change (44 / 2)%nat with 22%nat.
    set (A'' := Hashids.shuffle A' _).
    assert (HA'' : forall c, c ∈ A'' -> c ∈ A).
    { intros c Hc. apply shuffle_elem_of in Hc. by rewrite <- HA'. }
    assert (HlenA'' : length A'' = 44%nat) by (unfold A''; by rewrite shuffle_length).
    destruct (pad_round A'' [g1; L; d1; g2] HlenA'' (or_introl eq_refl))
      as (x & post & Hx & Hpost & -> & Hlen6).
    rewrite pad_loop_done by (rewrite Hlen6; lia).
    split; [|rewrite Hlen6; lia].
    apply (framed_both G A [L; d1] [x] g1 g2 post); auto.
    eapply Forall_impl; [exact Hpost | exact HA''].
  - (* two digits: both guards, then one round of padding *)
    cbn [length Nat.ltb Nat.leb app].
    rewrite pad_loop_once by (simpl; lia). cbv zeta.
    rewrite HlenA'. change (44 / 2)%nat with 22%nat.
    set (A'' := Hashids.shuffle A' _).
    assert (HA'' : forall c, c ∈ A'' -> c ∈ A).
    { intros c Hc. apply shuffle_elem_of in Hc. by rewrite <- HA'. }
    assert (HlenA'' : length A'' = 44%nat) by (unfold A''; by rewrite shuffle_length).
    destruct (pad_round A'' [g1; L; d1; d2; g2] HlenA'' (or_intror eq_refl))
      as (x & post & Hx & Hpost & -> & Hlen6).
    rewrite pad_loop_done by (rewrite Hlen6; lia).
    split; [|rewrite Hlen6; lia].
    apply (framed_both G A [L; d1; d2] [x] g1 g2 post); auto.
    eapply Forall_impl; [exact Hpost | exact HA''].
  - (* three digits: both guards *)
    cbn [length Nat.ltb Nat.leb app].
    rewrite pad_loop_done by (simpl; lia).
    split; [|simpl; lia].
    apply (framed_both G A [L; d1; d2; d3] [] g1 g2 []); auto.
  - (* four digits: the guard in front *)
    cbn [length Nat.ltb Nat.leb app].
    rewrite pad_loop_done by (simpl; lia).
    split; [|simpl; lia].
    by apply framed_prefix.
  - (* five digits and more: no guard *)
    cbn [length Nat.ltb Nat.leb app].
    rewrite pad_loop_done by (simpl; lia).
    split; [|simpl; lia].
    apply framed_bare.
Qed.

Lemma framed_chars core id :
  Forall (fun c => c ∈ A) core ->
  framed G A core id ->
  Forall (fun c => c ∈ A \/ c ∈ G) id.
Proof.
  intros Hcore Hframed.
  assert (HinA : forall l, Forall (fun c => c ∈ A) l ->
                           Forall (fun c => c ∈ A \/ c ∈ G) l).
  { intros l Hl. eapply Forall_impl; [exact Hl|]. auto. }
  destruct Hframed as [|g Hg|pre g1 g2 post Hg1 Hg2 Hpre Hpost].
  - auto.
  - constructor; auto.
  - rewrite Forall_app, Forall_cons, Forall_app, Forall_cons. auto 10.
Qed.

(** Decoding what the encoder produced for one number gives it back. *)
Lemma decode_encode (n : N) :
  Hashids._decode h (Hashids._encode h [n]) = Some [n]
  /\ Forall (fun c => isAlphanumeric c = true) (Hashids._encode h [n])
  /\ (6 <= length (Hashids._encode h [n]))%nat.
Proof.
  destruct alphabet_facts as (HndA & HlenA & HlenG & HAG & HAS & Halnum).
  destruct (encode_shape n) as (L & A' & HL & HA' & HeqA' & Hframed & Hlen).
  assert (HhA : Hashids.alphabet h = A) by (by rewrite hashids_fields).
  assert (HhG : Hashids.guards h = G) by (by rewrite hashids_fields).
  assert (Hhs : Hashids.salt h = salt) by (by rewrite hashids_fields).
  set (id := Hashids._encode h [n]) in *.
  set (last := Hashids.toAlphabet n A') in *.
  assert (Hlast : Forall (fun c => c ∈ A) last).
  { eapply Forall_impl; [apply toAlphabet_Forall; rewrite HA'; lia|].
    intros c Hc. by rewrite <- HA'. }
  assert (Hcore : Forall (fun c => c ∈ A) (L :: last)) by (constructor; auto).
  pose proof (framed_chars _ _ Hcore Hframed) as Hchars.
  split; [|split; [|done]].
  - unfold Hashids._decode.
    assert (Hvalid : Hashids.isValidId h id = true).
    { unfold Hashids.isValidId. destruct id as [|c id']; [simpl in Hlen; lia|].
      apply Is_true_true, forallb_True.
      eapply Forall_impl; [exact Hchars|]. intros c' Hc'. apply Is_true_true.
      apply includes_true. rewrite HhA, HhG, !elem_of_app.
      simpl in Hc'. tauto. }
    rewrite Hvalid. cbn [negb]. cbv zeta.
    rewrite HhG.
    rewrite (framed_breakdown G A (L :: last) id) by auto.
    rewrite split_plain.
    2:{ eapply Forall_impl; [exact Hlast|]. intros c Hc.
        apply includes_false. auto. }
    cbn [Hashids.decode_subIds]. rewrite HhA, Hhs.
    rewrite shuffle_take by (simpl; rewrite length_app, length_map; lia).
    rewrite <- HeqA'.
    unfold last. rewrite fromAlphabet_toAlphabet.
    + simpl. by rewrite decide_True.
    + by rewrite HA'.
    + rewrite HA'. lia.
  - eapply Forall_impl; [exact Hchars|]. auto.
Qed.

End SlugEncoder.

(* ================================================================= *)
(** ** Slugs *)

Lemma string_of_list_ascii_length l :
  String.length (string_of_list_ascii l) = length l.
Proof. induction l as [|c l IH]; simpl; [done | by rewrite IH]. Qed.

Lemma generateSlug_valid salt n :
  valid_id n ->
  generateSlug salt n
  = string_of_list_ascii (Hashids._encode (hashids salt) [Z.to_N n]).
Proof.
  intros [Hlo Hhi]. unfold generateSlug, Hashids.encode.
  cbn [forallb map]. unfold Hashids.isPositiveAndFinite.
  destruct (Z.leb_spec 0 n); [|lia].
  destruct (Z.leb_spec n Hashids.MAX_SAFE_INTEGER); [|lia]. done.
Qed.

Lemma decodeSlug_generateSlug salt n :
  valid_id n -> decodeSlug salt (generateSlug salt n) = Ok n.
Proof.
  intros Hn. rewrite generateSlug_valid by done.
  destruct (decode_encode salt (Z.to_N n)) as (Hdec & _ & Hlen).
  unfold decodeSlug, Hashids.decode.
  destruct (Hashids._encode (hashids salt) [Z.to_N n]) as [|c id] eqn:Hid;
    [simpl in Hlen; lia|].
  change (string_of_list_ascii (c :: id)) with (String c (string_of_list_ascii id)).
  cbv iota.
  change (String c (string_of_list_ascii id)) with (string_of_list_ascii (c :: id)).
  rewrite list_ascii_of_string_of_list_ascii, Hdec.
  f_equal. destruct Hn. lia.
Qed.

(** C3: for every integer the encoder accepts (non-negative, at most
    [Number.MAX_SAFE_INTEGER]) and every salt, [decodeSlug] inverts
    [generateSlug]; distinct integers get distinct slugs; and a slug is made
    of letters and digits only and has at least six characters. *)
Theorem generateSlug_bijective salt n1 n2 :
  valid_id n1 -> valid_id n2 ->
  decodeSlug salt (generateSlug salt n1) = Ok n1
  /\ (n1 <> n2 -> generateSlug salt n1 <> generateSlug salt n2)
  /\ alphanumeric (generateSlug salt n1)
  /\ (6 <= String.length (generateSlug salt n1))%nat.
Proof.
  intros H1 H2. split; [by apply decodeSlug_generateSlug|]. split.
  - intros Hne Heq.
    pose proof (decodeSlug_generateSlug salt n1 H1) as Hd1.
    pose proof (decodeSlug_generateSlug salt n2 H2) as Hd2.
    rewrite Heq, Hd2 in Hd1. by injection Hd1.
  - destruct (decode_encode salt (Z.to_N n1)) as (_ & Halnum & Hlen).
    rewrite generateSlug_valid by done.
    unfold alphanumeric.
    by rewrite list_ascii_of_string_of_list_ascii, string_of_list_ascii_length.
Qed.

Lemma generateSlug_bijective_witness :
  decodeSlug (ustr "pepper") (generateSlug (ustr "pepper") 1) = Ok 1
  /\ (1 <> 2 -> generateSlug (ustr "pepper") 1 <> generateSlug (ustr "pepper") 2)
  /\ alphanumeric (generateSlug (ustr "pepper") 1)
  /\ (6 <= String.length (generateSlug (ustr "pepper") 1))%nat.
Proof.
  apply (generateSlug_bijective (ustr "pepper") 1 2);
    unfold valid_id, Hashids.MAX_SAFE_INTEGER; lia.
Defined.

(** The first slugs under the salt ["pepper"], and an identifier that is
    not a slug. *)
Example slugs_of_pepper :
  generateSlug (ustr "pepper") <$> [1; 2; 85184; 9007199254740991]
  = ["0bkYmx"; "7bzPmo"; "mJdnnn"; "O9zxx6xlw7x"]
  /\ decodeSlug (ustr "pepper") "7bzPmo" = Ok 2
  /\ decodeSlug (ustr "pepper") "abc" = Ok 0.
Proof. vm_compute. repeat split; reflexivity. Qed.

(* ================================================================= *)
(** * Further properties *)

(* ================================================================= *)
(** ** Rate limiter: the course of a window *)

(** The first request of a window, backend available. *)
Lemma rateLimit_first sha ip limit window w :
  incr_error (faults w) = None ->
  expire_error (faults w) = None ->
  ttl_error (faults w) = None ->
  0 < window ->
  Redis.live w (rate_limit_key sha ip) = None ->
  rateLimit sha ip limit window w
  = (Ok {| success := 1 <=? limit; limit := limit;
           remaining := Z.max 0 (limit - 1);
           reset := now w + window * 1000 |},
     with_redis (<[rate_limit_key sha ip :=
                    {| value := RInt 1; expireAt := Some (now w + window * 1000) |}]>
                   (redis w)) w).
Proof.
  intros Hincr Hexp Httl Hwin Hlive.
  assert (Hfresh : (now w + window * 1000 <=? now w) = false)
    by (apply Z.leb_gt; lia).
  assert (Hround : (now w + window * 1000 - now w + 500) / 1000 = window).
  { replace (now w + window * 1000 - now w + 500) with (500 + window * 1000) by lia.
    rewrite Z.div_add by lia. reflexivity. }
  unfold rateLimit, rateLimit_try, try_catch, mbind, M_bind.
  set (key := rate_limit_key sha ip) in *.
  unfold Redis.incr, Redis.expire, Redis.ttl, backend_call.
  rewrite Hincr, Hlive. simpl.
  rewrite Hexp, live_insert. simpl.
  rewrite Httl, live_insert. simpl. rewrite Hfresh. simpl.
  unfold mret, M_ret. rewrite Hround.
  by rewrite insert_insert_eq.
Qed.

(** A later request of a window that is still open, or of a window that
    has no expiry. *)
Lemma rateLimit_next sha ip limit window w n e :
  incr_error (faults w) = None ->
  ttl_error (faults w) = None ->
  Redis.live w (rate_limit_key sha ip) = Some {| value := RInt n; expireAt := e |} ->
  n <> 0 ->
  rateLimit sha ip limit window w
  = (Ok {| success := n + 1 <=? limit; limit := limit;
           remaining := Z.max 0 (limit - (n + 1));
           reset := now w + match e with
                            | Some t => (t - now w + 500) / 1000
                            | None => -1
                            end * 1000 |},
     with_redis (<[rate_limit_key sha ip :=
                    {| value := RInt (n + 1); expireAt := e |}]> (redis w)) w).
Proof.
  intros Hincr Httl Hlive Hn.
  unfold rateLimit, rateLimit_try, try_catch, mbind, M_bind.
  set (key := rate_limit_key sha ip) in *.
  unfold Redis.incr, Redis.expire, Redis.ttl, backend_call.
  rewrite Hincr, Hlive. simpl.
  rewrite decide_False by lia. simpl.
  rewrite Httl, live_insert. simpl.
  apply live_Some in Hlive as [_ He]. simpl in He.
  destruct e as [t|]; simpl; [|done].
  destruct (Z.leb_spec t (now w)); [specialize (He t eq_refl); lia | done].
Qed.

Lemma outcomes_cons limit first n :
  outcomes limit first (S n) = outcome limit (Z.of_nat first) :: outcomes limit (S first) n.
Proof. reflexivity. Qed.

(** Requests in a window that stays open count on. *)
Lemma rateLimit_run_open sha ip limit window times w (n : nat) e :
  incr_error (faults w) = None ->
  ttl_error (faults w) = None ->
  redis w !! rate_limit_key sha ip
  = Some {| value := RInt (Z.of_nat n); expireAt := e |} ->
  (1 <= n)%nat ->
  Forall (fun t => forall t', e = Some t' -> t < t') times ->
  rateLimit_run sha ip limit window times w = outcomes limit (S n) (length times).
Proof.
  intros Hincr Httl Hkey Hn Htimes. revert w n Hincr Httl Hkey Hn.
  induction Htimes as [|t times Ht _ IH]; intros w n Hincr Httl Hkey Hn; [done|].
  assert (Hlive : Redis.live (at_time t w) (rate_limit_key sha ip)
                  = Some {| value := RInt (Z.of_nat n); expireAt := e |}).
  { unfold Redis.live. simpl. rewrite Hkey. simpl.
    destruct e as [t'|]; [|done].
    destruct (Z.leb_spec t' t); [specialize (Ht t' eq_refl); lia | done]. }
  cbn [rateLimit_run length].
  rewrite (rateLimit_next sha ip limit window (at_time t w) _ _ Hincr Httl Hlive) by lia.
  rewrite outcomes_cons. unfold outcome at 1.
  replace (Z.of_nat n + 1) with (Z.of_nat (S n)) by lia.
  f_equal. apply IH; try done.
  - simpl. by rewrite lookup_insert_eq.
  - lia.
Qed.

(** X1: with the backend available, the requests of one client that fall
    in one window (the first one opens it, the others arrive before it
    closes) are counted 1, 2, 3, ...: the [k]-th is allowed exactly when
    [k <= limit], with [remaining = max(0, limit - k)]. *)
Theorem rateLimit_allows_limit_per_window sha ip limit window t0 later w :
  incr_error (faults w) = None ->
  expire_error (faults w) = None ->
  ttl_error (faults w) = None ->
  0 < window ->
  Redis.live (at_time t0 w) (rate_limit_key sha ip) = None ->
  Forall (fun t => t0 <= t < t0 + window * 1000) later ->
  rateLimit_run sha ip limit window (t0 :: later) w
  = outcomes limit 1 (S (length later)).
Proof.
  intros Hincr Hexp Httl Hwin Hlive Hlater.
  cbn [rateLimit_run].
  rewrite (rateLimit_first sha ip limit window (at_time t0 w)) by done.
  rewrite outcomes_cons. f_equal.
  apply (rateLimit_run_open sha ip limit window later _ 1
           (Some (t0 + window * 1000))); try done.
  - simpl. by rewrite lookup_insert_eq.
  - eapply Forall_impl; [exact Hlater|]. simpl. intros t Ht t' [= <-]. lia.
Qed.

Lemma rateLimit_allows_limit_per_window_witness :
  rateLimit_run (fun ip => ip) "203.0.113.7" 2 60 [0; 1000; 59999; 30000]
                (empty_world 0)
  = [(true, 1); (true, 0); (false, 0); (false, 0)].
Proof.
  apply (rateLimit_allows_limit_per_window (fun ip => ip) "203.0.113.7" 2 60 0
           [1000; 59999; 30000] (empty_world 0));
    [reflexivity | reflexivity | reflexivity | lia | reflexivity |].
  repeat constructor; lia.
Defined.

(** X2: when the EXPIRE of the first request of a window fails (the
    increment before it went through), the request is allowed by the
    fail-open rule and the counter is left without expiry; from then on,
    with the backend available again, the window never closes: whatever
    the instants of the later requests, the [k]-th of them is counted
    [k + 1], and every request past the limit is refused. *)
Theorem rateLimit_failed_expire_never_resets sha ip limit window w msg times :
  incr_error (faults w) = None ->
  expire_error (faults w) = Some msg ->
  Redis.live w (rate_limit_key sha ip) = None ->
  exists r w1,
    rateLimit sha ip limit window w = (Ok r, w1)
    /\ success r = true
    /\ redis w1 !! rate_limit_key sha ip = Some {| value := RInt 1; expireAt := None |}
    /\ rateLimit_run sha ip limit window times (with_faults healthy w1)
       = outcomes limit 2 (length times).
Proof.
  intros Hincr Hexp Hlive.
  unfold rateLimit, rateLimit_try, try_catch, mbind, M_bind.
  set (key := rate_limit_key sha ip) in *.
  unfold Redis.incr, Redis.expire, backend_call.
  rewrite Hincr, Hlive. simpl. rewrite Hexp.
  unfold console_error, Date_now, mret, M_ret. simpl.
  eexists _, _. split; [reflexivity|]. split; [reflexivity|].
  split; [simpl; by rewrite lookup_insert_eq|].
  apply (rateLimit_run_open sha ip limit window times _ 1 None); try done.
  - simpl. by rewrite lookup_insert_eq.
  - apply Forall_forall. intros t _ t' [=].
Qed.

Lemma rateLimit_failed_expire_never_resets_witness :
  let w := with_faults
             {| incr_error := None; expire_error := Some "ETIMEDOUT";
                ttl_error := None; get_error := None; set_error := None;
                del_error := None; insert_error := None; select_error := None;
                rpc_error := None; delete_error := None |}
             (empty_world 0) in
  exists r w1,
    rateLimit (fun ip => ip) "203.0.113.7" 2 60 w = (Ok r, w1)
    /\ success r = true
    /\ redis w1 !! "rate_limit:203.0.113.7" = Some {| value := RInt 1; expireAt := None |}
    /\ rateLimit_run (fun ip => ip) "203.0.113.7" 2 60 [1000; 3600000; 86400000]
                     (with_faults healthy w1)
       = [(true, 0); (false, 0); (false, 0)].
Proof.
  intros w.
  apply (rateLimit_failed_expire_never_resets (fun ip => ip) "203.0.113.7" 2 60 w
           "ETIMEDOUT" [1000; 3600000; 86400000]); reflexivity.
Defined.

(* ================================================================= *)
(** ** Frames *)

#[local] Instance redis_only_preorder keys : PreOrder (redis_only keys).
Proof.
  split; [by intros w k | intros w1 w2 w3 H12 H23 k Hk].
  by rewrite (H23 k Hk), (H12 k Hk).
Qed.

#[local] Instance same_table_preorder : PreOrder same_table.
Proof.
  split; [by intros w | intros w1 w2 w3 [? ?] [? ?]; split; congruence].
Qed.

Lemma redis_only_insert (keys : string -> Prop) key e w :
  keys key -> redis_only keys w (with_redis (<[key:=e]> (redis w)) w).
Proof.
  intros Hkey k Hk. simpl. apply lookup_insert_ne. by intros ->.
Qed.

Lemma keeps_redis_only_incr (keys : string -> Prop) key :
  keys key -> keeps (redis_only keys) (Redis.incr key).
Proof.
  intros Hkey. unfold Redis.incr. keeps_step. intros w r w' H.
  destruct (Redis.live w key) as [[[n|d] t]|]; injection H as <- <-;
    (by apply redis_only_insert) || reflexivity.
Qed.

Lemma keeps_redis_only_expire (keys : string -> Prop) key seconds :
  keys key -> keeps (redis_only keys) (Redis.expire key seconds).
Proof.
  intros Hkey. unfold Redis.expire. keeps_step. intros w r w' H.
  destruct (Redis.live w key); injection H as <- <-;
    (by apply redis_only_insert) || reflexivity.
Qed.

(** What reads the world, or writes to the console only, keeps any
    relation that ignores the console. *)
Lemma keeps_reader (R : relation World) `{!PreOrder R} {A} (m : M A) :
  (forall w r w', m w = (r, w') -> w' = w) -> keeps R m.
Proof. intros Hm w r w' H. rewrite (Hm _ _ _ H). reflexivity. Qed.

Lemma ttl_reads key w r w' : Redis.ttl key w = (r, w') -> w' = w.
Proof.
  unfold Redis.ttl, backend_call. destruct (ttl_error (faults w)); [by intros [= _ <-]|].
  destruct (Redis.live w key) as [[v [t|]]|]; by intros [= _ <-].
Qed.

Lemma keeps_redis_only_console keys msg : keeps (redis_only keys) (console_error msg).
Proof. intros w r w' [= <- <-]. by intros k. Qed.

Lemma keeps_same_table_console msg : keeps same_table (console_error msg).
Proof. intros w r w' [= <- <-]. by split. Qed.

Lemma keeps_same_table_incr key : keeps same_table (Redis.incr key).
Proof.
  unfold Redis.incr. keeps_step. intros w r w' H.
  destruct (Redis.live w key) as [[[n|d] t]|]; injection H as <- <-; by split.
Qed.

Lemma keeps_same_table_expire key seconds : keeps same_table (Redis.expire key seconds).
Proof.
  unfold Redis.expire. keeps_step. intros w r w' H.
  destruct (Redis.live w key); injection H as <- <-; by split.
Qed.

Lemma keeps_same_table_del key : keeps same_table (Redis.del key).
Proof.
  unfold Redis.del. keeps_step. intros w r w' H.
  destruct (Redis.live w key); injection H as <- <-; by split.
Qed.

Lemma keeps_rateLimit (R : relation World) `{!PreOrder R} sha ip limit window :
  keeps R (Redis.incr (rate_limit_key sha ip)) ->
  keeps R (Redis.expire (rate_limit_key sha ip) window) ->
  (forall msg, keeps R (console_error msg)) ->
  keeps R (rateLimit sha ip limit window).
Proof.
  intros Hincr Hexp Hlog. unfold rateLimit, rateLimit_try.
  keeps_step.
  - keeps_step; [exact Hincr|].
    keeps_step; [case_decide; [exact Hexp | keeps_step] |].
    keeps_step; [apply keeps_reader; [exact _ | apply ttl_reads] |].
    keeps_step; keeps_step.
  - keeps_step; [apply Hlog|]. keeps_step; keeps_step.
Qed.

Lemma rate_limit_key_inj sha ip ip' :
  rate_limit_key sha ip' = rate_limit_key sha ip -> sha ip' = sha ip.
Proof. unfold rate_limit_key. intros H. by simplify_eq. Qed.

Lemma rateLimit_frames sha ip limit window w r w' :
  rateLimit sha ip limit window w = (r, w') ->
  redis_only (fun k => k = rate_limit_key sha ip) w w'
  /\ same_table w w' /\ same_clock w w'.
Proof.
  intros Hrun. repeat split; revert Hrun.
  - apply keeps_rateLimit; [exact _ | | |].
    + by apply keeps_redis_only_incr.
    + by apply keeps_redis_only_expire.
    + intros msg. apply keeps_redis_only_console.
  - apply (keeps_rateLimit same_table);
      [apply keeps_same_table_incr | apply keeps_same_table_expire
      | apply keeps_same_table_console].
  - apply (keeps_rateLimit same_table);
      [apply keeps_same_table_incr | apply keeps_same_table_expire
      | apply keeps_same_table_console].
  - apply (keeps_rateLimit same_clock);
      [apply keeps_incr | apply keeps_expire | apply keeps_console_error].
  - apply (keeps_rateLimit same_clock);
      [apply keeps_incr | apply keeps_expire | apply keeps_console_error].
Qed.

(** X3: whatever the state of the backend, a call of the limiter for one
    client changes nothing in Redis but the counter of that client, and
    nothing in the [pastes] table; the window of a client whose address
    hashes differently is as it was. *)
Theorem rateLimit_touches_own_counter_only sha ip limit window w r w' :
  rateLimit sha ip limit window w = (r, w') ->
  (forall k, k <> rate_limit_key sha ip -> redis w' !! k = redis w !! k)
  /\ pastes w' = pastes w
  /\ (forall ip', sha ip' <> sha ip ->
      window_count w' (rate_limit_key sha ip') = window_count w (rate_limit_key sha ip')
      /\ window_expiry w' (rate_limit_key sha ip') = window_expiry w (rate_limit_key sha ip')).
Proof.
  intros Hrun.
  destruct (rateLimit_frames _ _ _ _ _ _ _ Hrun) as (Hredis & Htable & Hclock).
  split; [exact Hredis|]. split; [apply Htable|].
  intros ip' Hip'.
  assert (Hlive : Redis.live w' (rate_limit_key sha ip')
                  = Redis.live w (rate_limit_key sha ip')).
  { unfold Redis.live. destruct Hclock as [-> _].
    rewrite Hredis; [done|]. intros Heq. by apply Hip', rate_limit_key_inj. }
  unfold window_count, window_expiry. by rewrite Hlive.
Qed.

Lemma rateLimit_touches_own_counter_only_witness :
  let w := with_redis {[ "rate_limit:198.51.100.2" :=
                           {| value := RInt 5; expireAt := Some 60000 |} ]}
                      (empty_world 1000) in
  let w' := snd (rateLimit (fun ip => ip) "203.0.113.7" 5 60 w) in
  (forall k, k <> "rate_limit:203.0.113.7" -> redis w' !! k = redis w !! k)
  /\ pastes w' = pastes w
  /\ window_count w' "rate_limit:198.51.100.2" = 5.
Proof.
  intros w w'.
  destruct (rateLimit_touches_own_counter_only (fun ip => ip) "203.0.113.7" 5 60 w
              (fst (rateLimit (fun ip => ip) "203.0.113.7" 5 60 w)) w')
    as (Hredis & Htable & Hother); [reflexivity|].
  split; [exact Hredis|]. split; [exact Htable|].
  destruct (Hother "198.51.100.2") as [Hcount _]; [discriminate|].
  etrans; [exact Hcount | reflexivity].
Defined.

(* ================================================================= *)
(** ** Paste service: the steps of [createPaste] and [getPaste] *)

Lemma insert_Ok_inv data w row w' :
  PasteDAO.insert data w = (Ok row, w') ->
  PasteRow.slug row = PasteInsert.slug data
  /\ PasteRow.content row = Some (PasteInsert.content data)
  /\ PasteRow.language row = Some (PasteInsert.language data)
  /\ PasteRow.created_at row = now w
  /\ PasteRow.expires_at row = PasteInsert.expires_at data
  /\ w' = with_pastes (pastes w ++ [row]) (next_paste_id w + 1) w
  /\ Forall (fun r => PasteRow.slug r <> PasteInsert.slug data) (pastes w).
Proof.
  unfold PasteDAO.insert.
  destruct (insert_error (faults w)); [done|].
  destruct (existsb _ _) eqn:Hdup; [done|].
  assert (Hfresh : Forall (fun r => PasteRow.slug r <> PasteInsert.slug data) (pastes w)).
  { apply Forall_forall. intros r Hr Heq.
    assert (existsb (fun r => bool_decide (PasteRow.slug r = PasteInsert.slug data))
                    (pastes w) = true); [|congruence].
    apply existsb_exists. exists r. split; [by apply list_elem_of_In|].
    by apply bool_decide_eq_true_2. }
  destruct (PasteInsert.user_id data), (PasteInsert.expires_at data);
    intros [= <- <-]; done.
Qed.

Lemma insert_Throw_inv data w e w' :
  PasteDAO.insert data w = (Throw e, w') -> w' = w.
Proof.
  unfold PasteDAO.insert.
  destruct (insert_error (faults w)); [by intros [= _ <-]|].
  destruct (existsb _ _); [by intros [= _ <-]|].
  destruct (PasteInsert.user_id data), (PasteInsert.expires_at data);
    by intros [= _ <-] || done.
Qed.

(** [createPaste], step by step. *)
Lemma createPaste_unfold salt sha zod input ip w :
  createPaste salt sha zod input ip w
  = match validateCreatePasteInput zod input with
    | Throw e => (Throw e, w)
    | Ok v =>
        match validateExpirationRules (userId v) (expiresIn v) with
        | Throw e => (Throw e, w)
        | Ok _ =>
            if shouldUseObjectStorage (content v)
            then (Throw (Error "Content too large. Object storage not yet implemented."), w)
            else
              match Redis.incr "paste_counter" w with
              | (Throw e, w1) => (Throw e, w1)
              | (Ok counter, w1) =>
                  match PasteDAO.insert (insert_of salt sha v ip counter (now w1)) w1 with
                  | (Throw e, w2) => (Throw e, w2)
                  | (Ok row, w2) =>
                      (Ok (PasteRepository.toDomainModel row),
                       snd (cachePaste (generateSlug salt counter) (cached_of v row) w2))
                  end
              end
        end
    end.
Proof.
  unfold createPaste, mbind at 1, M_bind, lift.
  destruct (validateCreatePasteInput zod input) as [v|e]; [|done].
  unfold mbind at 1, M_bind.
  destruct (validateExpirationRules (userId v) (expiresIn v)) as [[]|e]; [|done].
  unfold mbind at 1, M_bind.
  destruct (shouldUseObjectStorage (content v)); [done|].
  unfold mret at 1, M_ret. unfold mbind at 1, M_bind.
  destruct (Redis.incr "paste_counter" w) as [[counter|e] w1]; [|done].
  rewrite (bind_Ok _ _ _ _ _ (calculateExpiration_spec _ _)).
  unfold PasteRepository.create.
  fold (insert_of salt sha v ip counter (now w1)).
  unfold mbind at 1, M_bind. unfold mbind at 1, M_bind.
  destruct (PasteDAO.insert _ w1) as [[row|e] w2] eqn:Hins; [|done].
  unfold mret at 1, M_ret.
  apply insert_Ok_inv in Hins as (_ & _ & _ & _ & Hexp & _).
  unfold mbind, M_bind. unfold cached_of. rewrite Hexp. simpl PasteInsert.expires_at.
  rewrite cachePaste_run. reflexivity.
Qed.

(* ================================================================= *)
(** ** Validation: what a validated input looks like *)

Lemma trimStart_head s u : head (trimStart s) = Some u -> isWhiteSpace u = false.
Proof.
  induction s as [|c s IH]; simpl; [done|].
  destruct (isWhiteSpace c) eqn:Hc; [done|]. simpl. by intros [= <-].
Qed.

Lemma trim_ends s u :
  head (trim s) = Some u \/ last (trim s) = Some u -> isWhiteSpace u = false.
Proof.
  unfold trim. set (a := trimStart s). set (b := trimStart (reverse a)).
  rewrite head_reverse, last_reverse. intros [Hlast | Hhead].
  - destruct (trimStart_suffix (reverse a)) as [ws Hws]. fold b in Hws.
    assert (Hsame : last (reverse a) = Some u).
    { rewrite Hws. destruct b as [|c b] using rev_ind; [done|].
      rewrite last_snoc in Hlast. by rewrite app_assoc, last_snoc. }
    rewrite last_reverse in Hsame. by apply trimStart_head in Hsame.
  - by apply trimStart_head in Hhead.
Qed.

Lemma trimStart_length s : (length (trimStart s) <= length s)%nat.
Proof.
  destruct (trimStart_suffix s) as [ws Hws]. rewrite Hws at 2.
  rewrite length_app. lia.
Qed.

Lemma trim_length s : (length (trim s) <= length s)%nat.
Proof.
  unfold trim. rewrite length_reverse.
  etrans; [apply trimStart_length|]. rewrite length_reverse. apply trimStart_length.
Qed.

Lemma parse_content_inr v c :
  parse_content v = inr c ->
  exists val, v = JsString val /\ c = trim val
              /\ (1 <= length val)%nat
              /\ (N.of_nat (length val) <= CONTENT_SIZE_LIMIT)%N.
Proof.
  destruct v as [| |val|]; try done. unfold parse_content.
  destruct (N.ltb_spec (N.of_nat (length val)) 1);
    destruct (N.ltb_spec CONTENT_SIZE_LIMIT (N.of_nat (length val))); try done.
  intros [= <-]. exists val. repeat split; [lia | done].
Qed.

Lemma parse_enum_inr path message options dflt v o :
  parse_enum path message options dflt v = inr o -> o ∈ options \/ o = dflt.
Proof.
  destruct v as [| |s|]; simpl; try done.
  - intros [= <-]. by right.
  - destruct (find _ options) as [o'|] eqn:Hfind; [|done].
    intros [= <-]. left. apply find_some in Hfind as [Hin _].
    by apply list_elem_of_In.
Qed.

Lemma validate_Ok_inv zod c l e u v :
  validateCreatePasteInput zod (JsObject c l e u) = Ok v ->
  parse_content c = inr (content v)
  /\ parse_enum "language"
       ("Language must be one of: " +:+ join_comma SUPPORTED_LANGUAGES)
       SUPPORTED_LANGUAGES "text" l = inr (language v)
  /\ parse_enum "expiresIn"
       ("Expiration must be one of: " +:+ join_comma EXPIRATION_OPTIONS)
       EXPIRATION_OPTIONS "7d" e = inr (expiresIn v)
  /\ parse_userId zod u = inr (userId v).
Proof.
  unfold validateCreatePasteInput, createPasteSchema_parse.
  destruct (parse_content c), (parse_enum _ _ SUPPORTED_LANGUAGES _ l),
    (parse_enum _ _ EXPIRATION_OPTIONS _ e), (parse_userId zod u); try done.
  by intros [= <-].
Qed.

(** X4: an input that passes validation is normalised: its language is
    one of the supported ones and its expiration one of the four options
    (the defaults included), its content has at most 102,400 code units
    and neither starts nor ends with white space, and its user id, when
    there is one, has passed the UUID test. *)
Theorem validated_input_is_normalised zod input v :
  validateCreatePasteInput zod input = Ok v ->
  language v ∈ SUPPORTED_LANGUAGES
  /\ expiresIn v ∈ EXPIRATION_OPTIONS
  /\ (N.of_nat (length (content v)) <= CONTENT_SIZE_LIMIT)%N
  /\ (forall u, head (content v) = Some u \/ last (content v) = Some u ->
                isWhiteSpace u = false)
  /\ (forall id, userId v = Some id -> zod id = true).
Proof.
  destruct input as [|c l e u]; [done|]. intros Hval.
  apply validate_Ok_inv in Hval as (Hc & Hl & He & Hu).
  apply parse_content_inr in Hc as (val & -> & Hc & _ & Hlen).
  apply parse_enum_inr in Hl. apply parse_enum_inr in He.
  split; [destruct Hl as [Hl | ->]; [done | repeat constructor]|].
  split; [destruct He as [He | ->]; [done | repeat constructor]|].
  rewrite Hc. split; [pose proof (trim_length val); lia|].
  split; [apply trim_ends|].
  intros id Hid. rewrite Hid in Hu. destruct u as [| |s|]; simpl in Hu; try done.
  destruct (zod s) eqn:Hs; [|done]. by injection Hu as <-.
Qed.

Lemma validated_input_is_normalised_witness :
  let v := {| content := ustr "print('hi')"; language := "text";
              expiresIn := "7d"; userId := None |} in
  language v ∈ SUPPORTED_LANGUAGES
  /\ expiresIn v ∈ EXPIRATION_OPTIONS
  /\ (N.of_nat (length (content v)) <= CONTENT_SIZE_LIMIT)%N
  /\ (forall u, head (content v) = Some u \/ last (content v) = Some u ->
                isWhiteSpace u = false)
  /\ (forall id, userId v = Some id -> (fun _ : ustring => false) id = true).
Proof.
  intros v.
  apply (validated_input_is_normalised (fun _ => false)
           (JsObject (JsString (ustr "  print('hi')  ")) JsUndefined JsUndefined JsUndefined) v).
  reflexivity.
Defined.

(* ================================================================= *)
(** ** Slugs and the counter *)

Lemma generateSlug_inj salt n1 n2 :
  valid_id n1 -> valid_id n2 ->
  generateSlug salt n1 = generateSlug salt n2 -> n1 = n2.
Proof.
  intros H1 H2 Heq.
  pose proof (decodeSlug_generateSlug salt n1 H1) as Hd1.
  pose proof (decodeSlug_generateSlug salt n2 H2) as Hd2.
  rewrite Heq, Hd2 in Hd1. by injection Hd1.
Qed.

Lemma insert_Ok data w :
  insert_error (faults w) = None ->
  Forall (fun r => PasteRow.slug r <> PasteInsert.slug data) (pastes w) ->
  PasteInsert.user_id data <> None \/ PasteInsert.expires_at data <> None ->
  PasteDAO.insert data w
  = (Ok (new_row data w),
     with_pastes (pastes w ++ [new_row data w]) (next_paste_id w + 1) w).
Proof.
  intros Hins Hfresh Hcheck. unfold PasteDAO.insert. rewrite Hins.
  assert (existsb (fun r => bool_decide (PasteRow.slug r = PasteInsert.slug data))
                  (pastes w) = false) as ->.
  { apply not_true_is_false. intros Hdup.
    apply existsb_exists in Hdup as (r & Hr & Heq).
    apply bool_decide_eq_true_1 in Heq. apply list_elem_of_In in Hr.
    rewrite Forall_forall in Hfresh. by apply (Hfresh r). }
  unfold new_row.
  destruct (PasteInsert.user_id data), (PasteInsert.expires_at data);
    try reflexivity.
  destruct Hcheck as [H | H]; by destruct H.
Qed.

(** The expiration rule of the service implies the check constraint of
    the table. *)
Lemma rule_implies_check salt sha v ip counter t :
  validateExpirationRules (userId v) (expiresIn v) = Ok tt ->
  PasteInsert.user_id (insert_of salt sha v ip counter t) <> None
  \/ PasteInsert.expires_at (insert_of salt sha v ip counter t) <> None.
Proof.
  unfold validateExpirationRules, insert_of, expiration_of. simpl.
  destruct (userId v) as [id|]; [by left|]. simpl.
  case_bool_decide; [done|]. intros _. right.
  repeat case_bool_decide; done.
Qed.

Lemma incr_paste_counter w c :
  paste_counter w = Some c ->
  incr_error (faults w) = None ->
  Redis.incr "paste_counter" w
  = (Ok (c + 1),
     with_redis (<["paste_counter" := {| value := RInt (c + 1); expireAt := None |}]>
                   (redis w)) w).
Proof.
  intros Hc Hincr. unfold Redis.incr. rewrite backend_call_healthy by done.
  unfold paste_counter in Hc. unfold Redis.live.
  destruct (redis w !! "paste_counter") as [[[n|d] [t|]]|]; simpl; try done.
  all: by injection Hc as <-.
Qed.

Lemma incr_paste_counter_Throw w c e w1 :
  paste_counter w = Some c ->
  Redis.incr "paste_counter" w = (Throw e, w1) -> w1 = w.
Proof.
  intros Hc. unfold Redis.incr, backend_call.
  destruct (incr_error (faults w)); [by intros [= _ <-]|].
  unfold paste_counter in Hc. unfold Redis.live.
  destruct (redis w !! "paste_counter") as [[[n|d] [t|]]|]; simpl; done.
Qed.

Lemma slugs_follow_counter_ext salt w w' :
  redis w' !! "paste_counter" = redis w !! "paste_counter" ->
  pastes w' = pastes w ->
  slugs_follow_counter salt w -> slugs_follow_counter salt w'.
Proof.
  intros Hredis Hrows (c & Hc & Hrange & Hslugs). exists c.
  unfold paste_counter in *. by rewrite Hredis, Hrows.
Qed.

Lemma slugs_after_incr salt w c :
  slugs_follow_counter salt w -> paste_counter w = Some c ->
  c < Hashids.MAX_SAFE_INTEGER ->
  let w1 := with_redis (<["paste_counter" := {| value := RInt (c + 1); expireAt := None |}]>
                          (redis w)) w in
  slugs_follow_counter salt w1 /\ paste_counter w1 = Some (c + 1)
  /\ Forall (fun r => PasteRow.slug r <> generateSlug salt (c + 1)) (pastes w1).
Proof.
  intros (c' & Hc' & Hrange & Hslugs) Hc Hmax w1.
  rewrite Hc in Hc'. injection Hc' as <-.
  assert (Hc1 : paste_counter w1 = Some (c + 1)).
  { unfold paste_counter, w1. simpl. by rewrite lookup_insert_eq. }
  split; [|split; [exact Hc1|]].
  - exists (c + 1). split; [exact Hc1|]. split; [lia|].
    eapply Forall_impl; [exact Hslugs|]. simpl.
    intros r (k & Hk & Hr). exists k. split; [lia | done].
  - eapply Forall_impl; [exact Hslugs|]. simpl.
    intros r (k & Hk & Hr) Heq. rewrite Hr in Heq.
    apply generateSlug_inj in Heq; unfold valid_id; lia.
Qed.

Lemma slugs_after_insert salt w c row n :
  slugs_follow_counter salt w -> paste_counter w = Some c -> 1 <= c ->
  PasteRow.slug row = generateSlug salt c ->
  slugs_follow_counter salt (with_pastes (pastes w ++ [row]) n w).
Proof.
  intros (c' & Hc' & Hrange & Hslugs) Hc Hpos Hrow.
  rewrite Hc in Hc'. injection Hc' as <-.
  exists c. split; [exact Hc|]. split; [done|]. simpl.
  apply Forall_app. split; [done|]. constructor; [|done].
  exists c. split; [lia | done].
Qed.

Lemma cache_key_not_counter slug : "paste:" +:+ slug <> "paste_counter".
Proof. simpl. intros H. by simplify_eq. Qed.

Lemma slugs_after_cache salt slug data w :
  slugs_follow_counter salt w ->
  slugs_follow_counter salt (snd (cachePaste slug data w))
  /\ paste_counter (snd (cachePaste slug data w)) = paste_counter w
  /\ pastes (snd (cachePaste slug data w)) = pastes w.
Proof.
  intros Hinv. rewrite cachePaste_run. cbn [snd].
  assert (Hkey : redis (match set_error (faults w) with
                        | None =>
                            with_redis (<["paste:" +:+ slug :=
                                           {| value := RJson data;
                                              expireAt := Some (now w + CACHE_TTL * 1000) |}]>
                                          (redis w)) w
                        | Some _ => with_console ("Failed to cache paste:" :: console w) w
                        end) !! "paste_counter"
                 = redis w !! "paste_counter").
  { destruct (set_error (faults w)); [done|]. simpl.
    apply lookup_insert_ne. apply cache_key_not_counter. }
  assert (Hrows : pastes (match set_error (faults w) with
                          | None =>
                              with_redis (<["paste:" +:+ slug :=
                                             {| value := RJson data;
                                                expireAt := Some (now w + CACHE_TTL * 1000) |}]>
                                            (redis w)) w
                          | Some _ => with_console ("Failed to cache paste:" :: console w) w
                          end) = pastes w)
    by (by destruct (set_error (faults w))).
  split; [by apply (slugs_follow_counter_ext salt w)|].
  split; [unfold paste_counter; by rewrite Hkey | exact Hrows].
Qed.

(** The run of [createPaste] on an input that passes the checks, when the
    counter and the store answer. *)
Lemma createPaste_stores salt sha zod input ip w v c :
  slugs_follow_counter salt w ->
  paste_counter w = Some c ->
  c < Hashids.MAX_SAFE_INTEGER ->
  incr_error (faults w) = None ->
  insert_error (faults w) = None ->
  validateCreatePasteInput zod input = Ok v ->
  validateExpirationRules (userId v) (expiresIn v) = Ok tt ->
  shouldUseObjectStorage (content v) = false ->
  let w1 := with_redis (<["paste_counter" := {| value := RInt (c + 1); expireAt := None |}]>
                          (redis w)) w in
  let row := new_row (insert_of salt sha v ip (c + 1) (now w)) w1 in
  let w2 := with_pastes (pastes w ++ [row]) (next_paste_id w + 1) w1 in
  createPaste salt sha zod input ip w
  = (Ok (PasteRepository.toDomainModel row),
     snd (cachePaste (generateSlug salt (c + 1)) (cached_of v row) w2)).
Proof.
  intros Hinv Hc Hmax Hincr Hins Hval Hrule Hsize w1 row w2.
  destruct (slugs_after_incr salt w c Hinv Hc Hmax) as (_ & _ & Hfresh).
  rewrite createPaste_unfold, Hval, Hrule, Hsize.
  rewrite (incr_paste_counter w c Hc Hincr). fold w1.
  rewrite (insert_Ok (insert_of salt sha v ip (c + 1) (now w1)) w1);
    [done | done | done | by apply rule_implies_check].
Qed.

(** X5: as long as every stored slug was generated from a value that the
    counter has passed (which holds of the empty store), and the counter
    is below [Number.MAX_SAFE_INTEGER], an input that passes validation,
    the expiration rule and the size check is always stored when the
    counter and the store answer: the new slug is the one of the next
    counter value, it collides with no stored slug, the check constraint
    of the table is met, one row is appended, and the property holds
    again afterwards. *)
Theorem createPaste_never_collides salt sha zod input ip w v c :
  slugs_follow_counter salt w ->
  paste_counter w = Some c ->
  c < Hashids.MAX_SAFE_INTEGER ->
  incr_error (faults w) = None ->
  insert_error (faults w) = None ->
  validateCreatePasteInput zod input = Ok v ->
  validateExpirationRules (userId v) (expiresIn v) = Ok tt ->
  shouldUseObjectStorage (content v) = false ->
  exists p w',
    createPaste salt sha zod input ip w = (Ok p, w')
    /\ Paste.slug p = generateSlug salt (c + 1)
    /\ Paste.content p = content v
    /\ length (pastes w') = S (length (pastes w))
    /\ Forall (fun r => PasteRow.slug r <> Paste.slug p) (pastes w)
    /\ paste_counter w' = Some (c + 1)
    /\ slugs_follow_counter salt w'.
Proof.
  intros Hinv Hc Hmax Hincr Hins Hval Hrule Hsize.
  assert (Hpos : 0 <= c).
  { destruct Hinv as (c' & Hc' & ? & _). rewrite Hc in Hc'. injection Hc' as <-. lia. }
  destruct (slugs_after_incr salt w c Hinv Hc Hmax) as (Hinv1 & Hc1 & Hfresh).
  rewrite (createPaste_stores salt sha zod input ip w v c) by done. cbv zeta.
  set (w1 := with_redis _ w) in *.
  set (row := new_row _ w1).
  set (w2 := with_pastes _ _ w1).
  assert (Hinv2 : slugs_follow_counter salt w2).
  { apply (slugs_after_insert salt w1 (c + 1)); [done | done | lia | done]. }
  destruct (slugs_after_cache salt (generateSlug salt (c + 1)) (cached_of v row) w2 Hinv2)
    as (Hinv3 & Hc3 & Hrows3).
  eexists _, _. split; [reflexivity|].
  split; [reflexivity|]. split; [reflexivity|].
  split; [rewrite Hrows3; simpl; rewrite length_app; simpl; lia|].
  split; [exact Hfresh|]. split; [by rewrite Hc3|]. exact Hinv3.
Qed.

Lemma createPaste_never_collides_witness :
  exists p w',
    createPaste (ustr "pepper") (fun ip => ip) (fun _ => false)
      (JsObject (JsString (ustr "print('hi')")) (JsString (ustr "python"))
                (JsString (ustr "1d")) JsUndefined)
      "203.0.113.7" (empty_world 1700000000000) = (Ok p, w')
    /\ Paste.slug p = generateSlug (ustr "pepper") 1
    /\ paste_counter w' = Some 1
    /\ slugs_follow_counter (ustr "pepper") w'.
Proof.
  destruct (createPaste_never_collides (ustr "pepper") (fun ip => ip) (fun _ => false)
              (JsObject (JsString (ustr "print('hi')")) (JsString (ustr "python"))
                        (JsString (ustr "1d")) JsUndefined)
              "203.0.113.7" (empty_world 1700000000000)
              {| content := ustr "print('hi')"; language := "python";
                 expiresIn := "1d"; userId := None |} 0)
    as (p & w' & Hrun & Hslug & _ & _ & _ & Hc & Hinv);
    [ exists 0; split; [reflexivity|]; split; [vm_compute; split; discriminate | constructor]
    | reflexivity | reflexivity | reflexivity | reflexivity | reflexivity
    | reflexivity | reflexivity | ].
  exists p, w'. by repeat split.
Defined.

Lemma rate_key_not_counter sha ip : "paste_counter" <> rate_limit_key sha ip.
Proof. unfold rate_limit_key. simpl. intros H. by simplify_eq. Qed.

Lemma createPaste_keeps_slugs salt sha zod input ip w r w' :
  slugs_follow_counter salt w ->
  paste_counter w <> Some Hashids.MAX_SAFE_INTEGER ->
  createPaste salt sha zod input ip w = (r, w') ->
  slugs_follow_counter salt w'.
Proof.
  intros Hinv Hmax. rewrite createPaste_unfold.
  destruct (validateCreatePasteInput zod input) as [v|e]; [|by intros [= _ <-]].
  destruct (validateExpirationRules _ _) as [[]|e]; [|by intros [= _ <-]].
  destruct (shouldUseObjectStorage _); [by intros [= _ <-]|].
  destruct Hinv as (c & Hc & Hrange & Hslugs).
  assert (Hinv : slugs_follow_counter salt w) by (by exists c).
  destruct (Redis.incr "paste_counter" w) as [[counter|e] w1] eqn:Hincr.
  2:{ apply (incr_paste_counter_Throw _ _ _ _ Hc) in Hincr as ->. by intros [= _ <-]. }
  assert (Hok : incr_error (faults w) = None).
  { unfold Redis.incr, backend_call in Hincr. by destruct (incr_error (faults w)). }
  rewrite (incr_paste_counter w c Hc Hok) in Hincr. injection Hincr as <- <-.
  destruct (slugs_after_incr salt w c Hinv Hc) as (Hinv1 & Hc1 & Hfresh);
    [assert (c <> Hashids.MAX_SAFE_INTEGER) by congruence; lia|].
  set (w1 := with_redis _ w) in *.
  destruct (PasteDAO.insert _ w1) as [[row|e] w2] eqn:Hins.
  - apply insert_Ok_inv in Hins as (Hslug & _ & _ & _ & _ & -> & _).
    intros [= _ <-]. apply slugs_after_cache.
    apply (slugs_after_insert salt w1 (c + 1)); [done | done | lia | done].
  - apply insert_Throw_inv in Hins as ->. by intros [= _ <-].
Qed.

(** X6: the property that every stored slug was generated from a value
    the counter has passed is kept by every request to [POST], whatever
    its body, whatever the state of the backends and whatever the answer
    (the counter staying below [Number.MAX_SAFE_INTEGER]); a request that
    fails after the increment leaves a gap in the slugs, never a slug that
    a later request could be given again. *)
Theorem POST_keeps_slugs_in_step salt sha zod request w r w' :
  slugs_follow_counter salt w ->
  paste_counter w <> Some Hashids.MAX_SAFE_INTEGER ->
  POST salt sha zod request w = (r, w') ->
  slugs_follow_counter salt w'.
Proof.
  intros Hinv Hmax. unfold POST, try_catch.
  unfold mbind at 1, M_bind.
  destruct (rateLimit sha (client_ip request) 5 60 w) as [rl w0] eqn:Hrl.
  destruct (rateLimit_frames _ _ _ _ _ _ _ Hrl) as (Hredis & Htable & _).
  assert (Hkey : redis w0 !! "paste_counter" = redis w !! "paste_counter")
    by apply Hredis, rate_key_not_counter.
  assert (Hinv0 : slugs_follow_counter salt w0).
  { revert Hinv. apply slugs_follow_counter_ext; [done | apply Htable]. }
  assert (Hmax0 : paste_counter w0 <> Some Hashids.MAX_SAFE_INTEGER).
  { unfold paste_counter in *. by rewrite Hkey. }
  destruct rl as [rl|e]; [|unfold mret, M_ret; by intros [= _ <-]].
  destruct (negb (success rl)); [unfold mret, M_ret; by intros [= _ <-]|].
  destruct (json request) as [body|]; [|unfold mret, M_ret; by intros [= _ <-]].
  unfold mbind, M_bind.
  destruct (createPaste salt sha zod body (client_ip request) w0) as [[p|e] w1] eqn:Hcreate.
  all: apply (createPaste_keeps_slugs _ _ _ _ _ _ _ _ Hinv0 Hmax0) in Hcreate.
  all: unfold mret, M_ret; by intros [= _ <-].
Qed.

Lemma POST_keeps_slugs_in_step_witness :
  slugs_follow_counter (ustr "pepper")
    (snd (POST (ustr "pepper") (fun ip => ip) (fun _ => false) (hello_request "1d")
               (with_faults cache_down (empty_world 1700000000000)))).
Proof.
  apply (POST_keeps_slugs_in_step (ustr "pepper") (fun ip => ip) (fun _ => false)
           (hello_request "1d") (with_faults cache_down (empty_world 1700000000000))
           (fst (POST (ustr "pepper") (fun ip => ip) (fun _ => false) (hello_request "1d")
                      (with_faults cache_down (empty_world 1700000000000)))));
    [ exists 0; split; [reflexivity|]; split; [vm_compute; split; discriminate | constructor]
    | vm_compute; discriminate
    | vm_compute; reflexivity ].
Defined.

(* ================================================================= *)
(** ** Paste service: create, read, delete *)

Lemma filter_slug_fresh slug rows :
  Forall (fun r => PasteRow.slug r <> slug) rows ->
  List.filter (fun r => bool_decide (PasteRow.slug r = slug)) rows = [].
Proof.
  induction 1 as [|r rows Hr _ IH]; simpl; [done|].
  by rewrite bool_decide_eq_false_2.
Qed.

Lemma filter_slug_new slug rows row :
  Forall (fun r => PasteRow.slug r <> slug) rows ->
  PasteRow.slug row = slug ->
  List.filter (fun r => bool_decide (PasteRow.slug r = slug)) (rows ++ [row]) = [row].
Proof.
  intros Hfresh Hrow. rewrite List.filter_app, filter_slug_fresh by done.
  simpl. by rewrite bool_decide_eq_true_2.
Qed.

(** A read that finds one unexpired row. *)
Lemma getPaste_from_store slug w row :
  select_error (faults w) = None ->
  List.filter (fun r => bool_decide (PasteRow.slug r = slug)) (pastes w) = [row] ->
  PasteRepository.isExpired (PasteRow.expires_at row) (now w) = false ->
  fst (getPaste slug w) = Ok (Some (PasteRepository.toDomainModel row)).
Proof. intros Hsel Hrow Hexp. by rewrite getPaste_store, Hsel, Hrow, Hexp. Qed.

(** A read that finds no row. *)
Lemma getPaste_nothing slug w :
  select_error (faults w) = None ->
  List.filter (fun r => bool_decide (PasteRow.slug r = slug)) (pastes w) = [] ->
  fst (getPaste slug w) = Ok None.
Proof. intros Hsel Hrow. by rewrite getPaste_store, Hsel, Hrow. Qed.

Lemma incr_Ok_inv key w c w1 :
  Redis.incr key w = (Ok c, w1) ->
  now w1 = now w /\ faults w1 = faults w /\ pastes w1 = pastes w
  /\ forall k, k <> key -> redis w1 !! k = redis w !! k.
Proof.
  intros Hincr.
  destruct (keeps_incr key _ _ _ Hincr) as [Hnow Hfaults].
  destruct (keeps_same_table_incr key _ _ _ Hincr) as [Hrows _].
  pose proof (keeps_redis_only_incr (fun k => k = key) key eq_refl _ _ _ Hincr) as Hredis.
  repeat split; try done; intros k Hk; by apply Hredis.
Qed.

(** X7: a paste that [createPaste] has returned can be read back: at any
    instant up to its expiry, with the store answering, [getPaste] of its
    slug returns a paste with the same slug, content, language, creation
    and expiry instants, whether or not the cache is available and
    whatever it holds. *)
Theorem created_paste_can_be_read_back salt sha zod input ip w p w1 t :
  createPaste salt sha zod input ip w = (Ok p, w1) ->
  select_error (faults w) = None ->
  (forall e, Paste.expiresAt p = Some e -> t <= e) ->
  exists p',
    fst (getPaste (Paste.slug p) (at_time t w1)) = Ok (Some p')
    /\ Paste.slug p' = Paste.slug p
    /\ Paste.content p' = Paste.content p
    /\ Paste.language p' = Paste.language p
    /\ Paste.createdAt p' = Paste.createdAt p
    /\ Paste.expiresAt p' = Paste.expiresAt p.
Proof.
  rewrite createPaste_unfold.
  destruct (validateCreatePasteInput zod input) as [v|e]; [|done].
  destruct (validateExpirationRules _ _) as [[]|e]; [|done].
  destruct (shouldUseObjectStorage _); [done|].
  destruct (Redis.incr "paste_counter" w) as [[counter|e] wi] eqn:Hincr; [|done].
  destruct (PasteDAO.insert _ wi) as [[row|e] w2] eqn:Hins; [|done].
  intros [= <- <-] Hsel Hlife.
  apply incr_Ok_inv in Hincr as (Hnow & Hfaults & Hrows & Hredis).
  apply insert_Ok_inv in Hins as (Hrslug & _ & _ & _ & _ & -> & Hfresh).
  cbn [insert_of PasteInsert.slug] in Hrslug, Hfresh.
  change (Paste.slug (PasteRepository.toDomainModel row)) with (PasteRow.slug row) in *.
  change (Paste.expiresAt (PasteRepository.toDomainModel row))
    with (PasteRow.expires_at row) in *.
  set (p := PasteRepository.toDomainModel row) in *.
  set (slug := generateSlug salt counter) in *.
  rewrite Hrslug.
  rewrite cachePaste_run. cbn [snd].
  set (w2 := with_pastes (pastes wi ++ [row]) (next_paste_id wi + 1) wi).
  set (w3 := match set_error (faults w2) with None => _ | Some _ => _ end).
  assert (Hrows3 : pastes (at_time t w3) = pastes wi ++ [row])
    by (unfold w3; by destruct (set_error (faults w2))).
  assert (Hfaults3 : faults (at_time t w3) = faults w)
    by (unfold w3; destruct (set_error (faults w2)); simpl; congruence).
  exists p. split; [|done].
  apply getPaste_from_store; [congruence | |].
  - rewrite Hrows3. by apply filter_slug_new.
  - simpl. unfold PasteRepository.isExpired.
    destruct (PasteRow.expires_at row) as [e|] eqn:He; [|done].
    by apply Z.ltb_ge, Hlife.
Qed.

Lemma created_paste_can_be_read_back_witness :
  let t0 := 1700000000000 in
  let '(created, w1) :=
    createPaste (ustr "pepper") (fun ip => ip) (fun _ => false)
      (JsObject (JsString (ustr "print('hi')")) (JsString (ustr "python"))
                (JsString (ustr "1d")) JsUndefined)
      "203.0.113.7" (with_faults cache_down (empty_world t0)) in
  exists p p',
    created = Ok p
    /\ fst (getPaste (Paste.slug p) (at_time (t0 + 86400000) w1)) = Ok (Some p')
    /\ Paste.content p' = ustr "print('hi')".
Proof.
  intros t0.
  destruct (createPaste _ _ _ _ _ _) as [[p|e] w1] eqn:Hrun;
    [|vm_compute in Hrun; discriminate].
  pose proof Hrun as Hvalue. vm_compute in Hvalue. injection Hvalue as Hp _.
  destruct (created_paste_can_be_read_back _ _ _ _ _ _ p w1 (t0 + 86400000) Hrun)
    as (p' & Hread & _ & Hcontent & _).
  - reflexivity.
  - intros e. rewrite <- Hp. vm_compute. intros [= <-]. discriminate.
  - exists p, p'. split; [reflexivity|]. split; [exact Hread|].
    rewrite Hcontent, <- Hp. reflexivity.
Defined.

Lemma deletePaste_unfold slug w :
  deletePaste slug w
  = match delete_error (faults w) with
    | Some msg => (Throw (Error ("Failed to delete paste: " +:+ msg)), w)
    | None =>
        let w1 :=
          with_pastes
            (List.filter (fun r => negb (bool_decide (PasteRow.slug r = slug))) (pastes w))
            (next_paste_id w) w in
        match Redis.del ("paste:" +:+ slug) w1 with
        | (Ok _, w2) => (Ok true, w2)
        | (Throw e, w2) => (Throw e, w2)
        end
    end.
Proof.
  unfold deletePaste, PasteRepository.deleteBySlug, PasteDAO.deleteBySlug.
  unfold mbind at 1, M_bind.
  destruct (delete_error (faults w)); [done|].
  cbv zeta. unfold mbind, M_bind.
  by destruct (Redis.del _ _) as [[n|e] w2].
Qed.

Lemma filter_slug_deleted slug rows :
  List.filter (fun r => bool_decide (PasteRow.slug r = slug))
    (List.filter (fun r => negb (bool_decide (PasteRow.slug r = slug))) rows) = [].
Proof.
  apply filter_slug_fresh, Forall_forall. intros r Hr.
  apply list_elem_of_In, filter_In in Hr as [_ Hr].
  apply negb_true_iff in Hr. by apply bool_decide_eq_false_1 in Hr.
Qed.

(** X8: when [deletePaste] returns, it returns [true] (also for a slug
    that was never stored), and the paste is gone: with the store
    answering, every later [getPaste] of the slug returns [null], whether
    or not the cache can be read. *)
Theorem deleted_paste_is_gone slug w r w1 t :
  deletePaste slug w = (Ok r, w1) ->
  select_error (faults w) = None ->
  now w <= t ->
  r = true /\ fst (getPaste slug (at_time t w1)) = Ok None.
Proof.
  rewrite deletePaste_unfold.
  destruct (delete_error (faults w)); [done|]. cbv zeta.
  set (w0 := with_pastes _ _ w).
  destruct (Redis.del _ w0) as [[n|e] w2] eqn:Hdel; [|done].
  intros [= <- <-] Hsel Ht. split; [done|].
  assert (Hrows : pastes w2 = pastes w0).
  { apply (keeps_same_table_del _ _ _ _ Hdel). }
  assert (Hfaults : faults w2 = faults w).
  { unfold Redis.del, backend_call in Hdel.
    destruct (del_error (faults w0)); [done|].
    destruct (Redis.live w0 _); by injection Hdel as _ <-. }
  apply getPaste_nothing.
  - simpl. congruence.
  - simpl. rewrite Hrows. apply filter_slug_deleted.
Qed.

Lemma deleted_paste_is_gone_witness :
  let w := sample_world 1700000600000 1700003600000 healthy in
  exists w1,
    deletePaste "x9Lk2a" w = (Ok true, w1)
    /\ fst (getPaste "x9Lk2a" (at_time 1700000700000 w1)) = Ok None.
Proof.
  intros w. exists (snd (deletePaste "x9Lk2a" w)).
  split; [vm_compute; reflexivity|].
  apply (deleted_paste_is_gone "x9Lk2a" w true (snd (deletePaste "x9Lk2a" w))
           1700000700000);
    [vm_compute; reflexivity | reflexivity | vm_compute; discriminate].
Defined.

(** X9: when the store deletes the row and the cache invalidation that
    follows fails, [deletePaste] throws the error of the cache although
    the row is gone.  The copy in the cache stays until its time to live
    is over, but it is not served: with the store answering, every
    [getPaste] of the slug returns [null] from then on. *)
Theorem deletePaste_cache_failure_still_deletes slug w msg :
  delete_error (faults w) = None ->
  del_error (faults w) = Some msg ->
  select_error (faults w) = None ->
  exists w1,
    deletePaste slug w = (Throw (Error msg), w1)
    /\ Forall (fun r => PasteRow.slug r <> slug) (pastes w1)
    /\ redis w1 = redis w
    /\ forall t, fst (getPaste slug (at_time t w1)) = Ok None.
Proof.
  intros Hdelete Hdel Hsel. rewrite deletePaste_unfold, Hdelete. cbv zeta.
  unfold Redis.del. rewrite (backend_call_faulty _ _ _ msg) by done.
  eexists. split; [reflexivity|]. split; [|split; [done|]].
  - simpl. apply Forall_forall. intros r Hr.
    apply list_elem_of_In, filter_In in Hr as [_ Hr].
    apply negb_true_iff in Hr. by apply bool_decide_eq_false_1 in Hr.
  - intros t. apply getPaste_nothing; [done|]. simpl. apply filter_slug_deleted.
Qed.

Lemma deletePaste_cache_failure_still_deletes_witness :
  let w := sample_world 1700000600000 1700003600000
             {| incr_error := None; expire_error := None; ttl_error := None;
                get_error := None; set_error := None; del_error := Some "ETIMEDOUT";
                insert_error := None; select_error := None; rpc_error := None;
                delete_error := None |} in
  exists w1,
    deletePaste "x9Lk2a" w = (Throw (Error "ETIMEDOUT"), w1)
    /\ pastes w1 = []
    /\ value <$> Redis.live w1 "paste:x9Lk2a" = Some (RJson sample_cached)
    /\ fst (getPaste "x9Lk2a" (at_time 1700000700000 w1)) = Ok None.
Proof.
  intros w.
  destruct (deletePaste_cache_failure_still_deletes "x9Lk2a" w "ETIMEDOUT")
    as (w1 & Hrun & _ & _ & Hread); [reflexivity | reflexivity | reflexivity |].
  exists w1. split; [exact Hrun|].
  assert (Hw1 : w1 = snd (deletePaste "x9Lk2a" w)) by (by rewrite Hrun).
  split; [rewrite Hw1; vm_compute; reflexivity|].
  split; [rewrite Hw1; vm_compute; reflexivity|]. apply Hread.
Defined.

(* ================================================================= *)
(** ** What a request does to the table *)

Lemma createPaste_rows salt sha zod input ip w r w' :
  createPaste salt sha zod input ip w = (r, w') ->
  match r with
  | Ok p => exists row, pastes w' = pastes w ++ [row] /\ PasteRow.slug row = Paste.slug p
  | Throw _ => pastes w' = pastes w
  end.
Proof.
  rewrite createPaste_unfold.
  destruct (validateCreatePasteInput zod input) as [v|e]; [|by intros [= <- <-]].
  destruct (validateExpirationRules _ _) as [[]|e]; [|by intros [= <- <-]].
  destruct (shouldUseObjectStorage _); [by intros [= <- <-]|].
  destruct (Redis.incr "paste_counter" w) as [[counter|e] w1] eqn:Hincr.
  2:{ intros [= <- <-]. apply (keeps_same_table_incr _ _ _ _ Hincr). }
  assert (Hrows : pastes w1 = pastes w) by apply (keeps_same_table_incr _ _ _ _ Hincr).
  destruct (PasteDAO.insert _ w1) as [[row|e] w2] eqn:Hins.
  - apply insert_Ok_inv in Hins as (_ & _ & _ & _ & _ & -> & _).
    intros [= <- <-]. exists row. split; [|done].
    rewrite cachePaste_run. cbn [snd].
    destruct (set_error _); simpl; by rewrite Hrows.
  - apply insert_Throw_inv in Hins as ->. by intros [= <- <-].
Qed.

(** X10: the handler [POST] always answers (no error escapes it), and a
    request adds one row to the table or none: with the answer 201 exactly
    one row, whose slug is the one of the answer, is appended; with any
    other answer (429, 400, 403, 413, 500) the table is as it was. *)
Theorem POST_adds_one_row_or_none salt sha zod request w :
  exists response w',
    POST salt sha zod request w = (Ok response, w')
    /\ match response with
       | Created slug _ _ _ _ =>
           exists row, pastes w' = pastes w ++ [row] /\ PasteRow.slug row = slug
       | RateLimited _ | Failed _ _ _ => pastes w' = pastes w
       end.
Proof.
  unfold POST, try_catch. unfold mbind at 1, M_bind.
  destruct (rateLimit sha (client_ip request) 5 60 w) as [rl w0] eqn:Hrl.
  destruct (rateLimit_frames _ _ _ _ _ _ _ Hrl) as (_ & [Hrows _] & _).
  destruct rl as [rl|e].
  2:{ unfold mret, M_ret. eexists _, _. split; [reflexivity|]. by destruct e. }
  destruct (negb (success rl)); [by eexists _, _|].
  destruct (json request) as [body|]; [|by eexists _, _].
  unfold mbind, M_bind.
  destruct (createPaste salt sha zod body (client_ip request) w0) as [[p|e] w1] eqn:Hcreate.
  all: apply createPaste_rows in Hcreate; rewrite Hrows in Hcreate.
  - by eexists _, _.
  - unfold mret, M_ret. eexists _, _. split; [reflexivity|]. by destruct e.
Qed.

Lemma without_views_increment id t r :
  without_views (PasteDAO.increment_view_count id t r) = without_views r.
Proof. unfold PasteDAO.increment_view_count. by case_bool_decide. Qed.

Lemma filter_slug_In slug rows row :
  List.filter (fun r => bool_decide (PasteRow.slug r = slug)) rows = [row] ->
  PasteRow.slug row = slug.
Proof.
  intros Hfilter.
  assert (Hin : In row (List.filter (fun r => bool_decide (PasteRow.slug r = slug)) rows))
    by (rewrite Hfilter; by left).
  apply filter_In in Hin as [_ Hrow]. by apply bool_decide_eq_true_1 in Hrow.
Qed.

(** X11: whatever the state of the backends and whatever it returns,
    [getPaste] changes no Redis key but the cache entry of the slug, and
    nothing in the table but view data: the rows are the same apart from
    [view_count] and [last_viewed_at]; and a paste it returns carries the
    slug that was asked for. *)
Theorem getPaste_changes_view_data_only slug w r w' :
  getPaste slug w = (r, w') ->
  (forall k, k <> "paste:" +:+ slug -> redis w' !! k = redis w !! k)
  /\ map without_views (pastes w') = map without_views (pastes w)
  /\ (forall p, r = Ok (Some p) -> Paste.slug p = slug).
Proof.
  rewrite getPaste_store.
  destruct (getCachedPaste_world slug w) as (_ & Hredis & Hrows & _).
  assert (Hkeep : forall r0,
            (forall p, r0 = Ok (Some p) -> Paste.slug p = slug) ->
            (r0, snd (getCachedPaste slug w)) = (r, w') ->
            (forall k, k <> "paste:" +:+ slug -> redis w' !! k = redis w !! k)
            /\ map without_views (pastes w') = map without_views (pastes w)
            /\ (forall p, r = Ok (Some p) -> Paste.slug p = slug)).
  { intros r0 Hr0 [= <- <-]. by rewrite Hredis, Hrows. }
  destruct (select_error (faults w)); [by apply Hkeep|].
  destruct (List.filter _ (pastes w)) as [|row [|]] eqn:Hfilter;
    try (by apply Hkeep).
  destruct (PasteRepository.isExpired _ _); [by apply Hkeep|].
  destruct (getPaste_found_world slug
              (cached_of_paste (PasteRepository.toDomainModel row)) (PasteRow.id row) w)
    as (_ & _ & Hredis' & Hrows').
  intros [= <- <-]. split; [exact Hredis'|]. split.
  - rewrite Hrows'. destruct (rpc_error (faults w)); [done|].
    rewrite map_map. apply map_ext. intros row'. apply without_views_increment.
  - intros p [= <-]. by apply filter_slug_In in Hfilter.
Qed.

Lemma getPaste_changes_view_data_only_witness :
  let w := sample_world 1700000600000 1700000000000 healthy in
  let w' := snd (getPaste "x9Lk2a" w) in
  (forall k, k <> "paste:x9Lk2a" -> redis w' !! k = redis w !! k)
  /\ map without_views (pastes w') = map without_views (pastes w)
  /\ PasteRow.view_count <$> pastes w' = [Some 8].
Proof.
  intros w w'.
  destruct (getPaste_changes_view_data_only "x9Lk2a" w (fst (getPaste "x9Lk2a" w)) w')
    as (Hredis & Hrows & _); [vm_compute; reflexivity|].
  split; [exact Hredis|]. split; [exact Hrows|]. vm_compute. reflexivity.
Defined.

(* ================================================================= *)
(** ** Blank content *)

Lemma trimStart_blank s : Forall (fun u => isWhiteSpace u = true) s -> trimStart s = [].
Proof. induction 1 as [|u s Hu _ IH]; simpl; [done|]. by rewrite Hu. Qed.

Lemma trim_blank s : Forall (fun u => isWhiteSpace u = true) s -> trim s = [].
Proof. intros Hs. unfold trim. by rewrite (trimStart_blank s Hs). Qed.

(** X12: the schema checks that the content is not empty before it trims
    it, so a body that consists of white space only (at least one code
    unit, at most 102,400) passes validation with the default language
    and expiration, and - the counter and the store answering - is
    stored as a paste with empty content, language [text] and an expiry
    seven days ahead. *)
Theorem createPaste_stores_blank_content salt sha zod val ip w c :
  val <> [] ->
  Forall (fun u => isWhiteSpace u = true) val ->
  (N.of_nat (length val) <= CONTENT_SIZE_LIMIT)%N ->
  slugs_follow_counter salt w ->
  paste_counter w = Some c ->
  c < Hashids.MAX_SAFE_INTEGER ->
  incr_error (faults w) = None ->
  insert_error (faults w) = None ->
  exists p w',
    createPaste salt sha zod
      (JsObject (JsString val) JsUndefined JsUndefined JsUndefined) ip w = (Ok p, w')
    /\ Paste.content p = []
    /\ Paste.language p = "text"
    /\ Paste.expiresAt p = Some (now w + 7 * 86400000)
    /\ PasteRow.content <$> last (pastes w') = Some (Some []).
Proof.
  intros Hne Hblank Hlen Hinv Hc Hmax Hincr Hins.
  assert (Hval : validateCreatePasteInput zod
                   (JsObject (JsString val) JsUndefined JsUndefined JsUndefined)
                 = Ok {| content := []; language := "text"; expiresIn := "7d";
                         userId := None |}).
  { unfold validateCreatePasteInput, createPasteSchema_parse, parse_content.
    destruct (N.ltb_spec (N.of_nat (length val)) 1);
      [destruct val; [done | simpl in *; lia]|].
    destruct (N.ltb_spec CONTENT_SIZE_LIMIT (N.of_nat (length val))); [lia|].
    simpl. by rewrite trim_blank. }
  rewrite (createPaste_stores salt sha zod _ ip w _ c Hinv Hc Hmax Hincr Hins Hval)
    by reflexivity.
  cbv zeta. eexists _, _. split; [reflexivity|].
  split; [reflexivity|]. split; [reflexivity|]. split; [reflexivity|].
  rewrite cachePaste_run. cbn [snd].
  destruct (set_error _); simpl; by rewrite last_snoc.
Qed.

Lemma createPaste_stores_blank_content_witness :
  exists p w',
    createPaste (ustr "pepper") (fun ip => ip) (fun _ => false)
      (JsObject (JsString [32; 10; 9]%N) JsUndefined JsUndefined JsUndefined)
      "203.0.113.7" (empty_world 1700000000000) = (Ok p, w')
    /\ Paste.content p = []
    /\ PasteRow.content <$> last (pastes w') = Some (Some []).
Proof.
  destruct (createPaste_stores_blank_content (ustr "pepper") (fun ip => ip)
              (fun _ => false) [32; 10; 9]%N "203.0.113.7"
              (empty_world 1700000000000) 0)
    as (p & w' & Hrun & Hcontent & _ & _ & Hrow);
    [ discriminate | repeat constructor | vm_compute; discriminate
    | exists 0; split; [reflexivity|]; split; [vm_compute; split; discriminate | constructor]
    | reflexivity | reflexivity | reflexivity | reflexivity | ].
  by exists p, w'.
Defined.

(* ================================================================= *)
(** ** The store: sweeping and listing *)

Lemma filter_filter_comm {A} (f g : A -> bool) l :
  List.filter f (List.filter g l) = List.filter g (List.filter f l).
Proof.
  induction l as [|a l IH]; simpl; [done|].
  destruct (f a) eqn:Hf, (g a) eqn:Hg; simpl; rewrite ?Hf, ?Hg, IH; done.
Qed.

(** Under the unique constraint, at most one row answers to a slug. *)
Lemma filter_slug_unique slug rows :
  NoDup (PasteRow.slug <$> rows) ->
  List.filter (fun r => bool_decide (PasteRow.slug r = slug)) rows = []
  \/ exists row, List.filter (fun r => bool_decide (PasteRow.slug r = slug)) rows = [row].
Proof.
  induction rows as [|r rows IH]; [by left|].
  rewrite fmap_cons, NoDup_cons. intros [Hr Hnd]. simpl.
  case_bool_decide as Hslug; [|by apply IH].
  right. exists r. f_equal. apply filter_slug_fresh, Forall_forall.
  intros r' Hr' Heq. apply Hr. rewrite Hslug, <- Heq.
  by apply list_elem_of_fmap_2.
Qed.

(** X13: the sweep [deleteExpired] removes the rows whose expiry lies
    before the instant of the call, and only those: what it keeps is not
    expired, every row that is not expired (a row without expiry among
    them) is kept, and the number it returns is the number of rows that
    went.  The slugs being unique, no reader sees a difference:
    [getBySlug] answers every slug after the sweep as before it. *)
Theorem deleteExpired_is_invisible_to_readers w n w' slug :
  PasteDAO.deleteExpired w = (Ok n, w') ->
  NoDup (PasteRow.slug <$> pastes w) ->
  fst (PasteRepository.getBySlug slug w') = fst (PasteRepository.getBySlug slug w)
  /\ n = Z.of_nat (length (pastes w)) - Z.of_nat (length (pastes w'))
  /\ Forall (fun r => PasteRepository.isExpired (PasteRow.expires_at r) (now w) = false)
            (pastes w')
  /\ (forall r, r ∈ pastes w ->
        PasteRepository.isExpired (PasteRow.expires_at r) (now w) = false ->
        r ∈ pastes w').
Proof.
  unfold PasteDAO.deleteExpired.
  destruct (delete_error (faults w)); [done|]. cbv zeta.
  intros [= <- <-] Hnd. simpl pastes.
  set (gone := PasteDAO.expires_before (now w)).
  set (kept := List.filter (fun r => negb (gone r)) (pastes w)).
  split; [|split; [|split]].
  - rewrite !getBySlug_run. simpl.
    destruct (select_error (faults w)); [done|]. simpl. fold kept.
    unfold kept. rewrite filter_filter_comm.
    destruct (filter_slug_unique slug (pastes w) Hnd) as [-> | [row ->]]; [done|].
    simpl. change (gone row) with (PasteRepository.isExpired (PasteRow.expires_at row) (now w)).
    destruct (PasteRepository.isExpired _ _) eqn:Hexp; simpl; [done|].
    by rewrite Hexp.
  - pose proof (filter_length gone (pastes w)). fold kept in H. lia.
  - apply Forall_forall. intros r Hr.
    apply list_elem_of_In, filter_In in Hr as [_ Hr]. by apply negb_true_iff in Hr.
  - intros r Hr Hlive. apply list_elem_of_In, filter_In.
    split; [by apply list_elem_of_In|]. by apply negb_true_iff.
Qed.

Lemma deleteExpired_is_invisible_to_readers_witness :
  let w := sample_world 1700090000000 1700003600000 healthy in
  exists w',
    PasteDAO.deleteExpired w = (Ok 1, w')
    /\ pastes w' = []
    /\ fst (PasteRepository.getBySlug "x9Lk2a" w')
       = fst (PasteRepository.getBySlug "x9Lk2a" w).
Proof.
  intros w. exists (snd (PasteDAO.deleteExpired w)).
  split; [vm_compute; reflexivity|]. split; [vm_compute; reflexivity|].
  apply (deleteExpired_is_invisible_to_readers w 1 (snd (PasteDAO.deleteExpired w))
           "x9Lk2a");
    [vm_compute; reflexivity | repeat constructor; apply not_elem_of_nil].
Defined.

#[local] Instance newer_first_transitive : Transitive PasteDAO.newer_first.
Proof. intros a b c. unfold PasteDAO.newer_first. lia. Qed.

#[local] Instance newer_first_total : Total PasteDAO.newer_first.
Proof. intros a b. unfold PasteDAO.newer_first. lia. Qed.

Lemma StronglySorted_filter {A} (R : relation A) f l :
  StronglySorted R l -> StronglySorted R (List.filter f l).
Proof.
  induction 1 as [|a l _ IH Ha]; simpl; [constructor|].
  destruct (f a); [|done]. constructor; [done|].
  apply Forall_forall. intros x Hx.
  apply list_elem_of_In, filter_In in Hx as [Hx _].
  rewrite Forall_forall in Ha. by apply Ha, list_elem_of_In.
Qed.

Lemma StronglySorted_take {A} (R : relation A) n l :
  StronglySorted R l -> StronglySorted R (take n l).
Proof.
  intros Hl. rewrite <- (take_drop n l) in Hl. by apply StronglySorted_app_1_l in Hl.
Qed.

(** X14: [getUserPastes] lists pastes of the user only, none of which has
    reached its expiry (a paste whose expiry is the instant of the call
    is left out), newest first, each of them stored, and at most [limit]
    of them; it changes nothing. *)
Theorem getUserPastes_lists_live_pastes_of_user userId limit w ps w' :
  PasteRepository.getUserPastes userId limit w = (Ok ps, w') ->
  w' = w
  /\ (length ps <= Z.to_nat limit)%nat
  /\ Forall (fun p => Paste.userId p = Some userId
                      /\ (forall e, Paste.expiresAt p = Some e -> now w < e)
                      /\ exists row, row ∈ pastes w
                                     /\ p = PasteRepository.toDomainModel row) ps
  /\ StronglySorted (fun a b => Paste.createdAt b <= Paste.createdAt a) ps.
Proof.
  unfold PasteRepository.getUserPastes, PasteDAO.findByUserId, mbind, M_bind, Date_now.
  destruct (select_error (faults w)); [done|].
  unfold mret, M_ret. intros [= <- <-]. split; [done|].
  change (Z.to_nat 0) with 0%nat. rewrite drop_0.
  set (mine := List.filter _ (pastes w)).
  set (ordered := merge_sort PasteDAO.newer_first mine).
  set (live := fun row => PasteRepository.notExpired (PasteRow.expires_at row) (now w)).
  split; [|split].
  - rewrite length_map. etrans; [apply filter_length_le|]. rewrite length_take. lia.
  - apply Forall_forall. intros p Hp.
    apply list_elem_of_fmap in Hp as (row & -> & Hrow).
    apply list_elem_of_In, filter_In in Hrow as [Hrow Hlive].
    apply list_elem_of_In, subseteq_take in Hrow.
    unfold ordered in Hrow. rewrite merge_sort_Permutation in Hrow.
    apply list_elem_of_In, filter_In in Hrow as [Hrow Huser].
    apply bool_decide_eq_true_1 in Huser.
    split; [exact Huser|]. split.
    + simpl. intros e He. unfold live, PasteRepository.notExpired in Hlive.
      rewrite He in Hlive. by apply Z.ltb_lt.
    + exists row. split; [by apply list_elem_of_In | done].
  - apply (StronglySorted_fmap _ PasteDAO.newer_first); [done|].
    apply StronglySorted_filter, StronglySorted_take.
    apply StronglySorted_merge_sort; exact _.
Qed.

Lemma getUserPastes_lists_live_pastes_of_user_witness :
  let w := sample_world 1700000600000 1700003600000 healthy in
  let user := ustr "6f9619ff-8b86-4011-b42d-00c04fc964ff" in
  let ps := [PasteRepository.toDomainModel sample_row] in
  w = w
  /\ (length ps <= Z.to_nat 10)%nat
  /\ Forall (fun p => Paste.userId p = Some user
                      /\ (forall e, Paste.expiresAt p = Some e -> now w < e)
                      /\ exists row, row ∈ pastes w
                                     /\ p = PasteRepository.toDomainModel row) ps
  /\ StronglySorted (fun a b => Paste.createdAt b <= Paste.createdAt a) ps.
Proof.
  intros w user ps.
  apply (getUserPastes_lists_live_pastes_of_user user 10 w ps w).
  vm_compute. reflexivity.
Defined.

(* ================================================================= *)
(** ** Slugs and the slug schema *)

(** A value below [base^k] is written with at most [k] digits. *)
Lemma toAlphabet_loop_length_le chars fuel value id (k : nat) :
  (2 <= length chars)%nat ->
  (value < N.of_nat (length chars) ^ N.of_nat k)%N ->
  (1 <= k)%nat ->
  (length (Hashids.toAlphabet_loop fuel value chars id) <= length id + k)%nat.
Proof.
  intros Hbase. revert value id k.
  induction fuel as [|fuel IH]; intros value id k Hvalue Hk;
    rewrite toAlphabet_loop_unfold; cbv zeta.
  - destruct (0 <? _)%N; simpl; lia.
  - destruct (N.ltb_spec 0 (value / N.of_nat (length chars))) as [Hq|Hq]; [|simpl; lia].
    destruct k as [|[|k]]; [lia | |].
    + exfalso. rewrite N.pow_1_r in Hvalue.
      rewrite N.div_small in Hq by done. lia.
    + etrans; [apply (IH _ _ (S k))|]; [|lia|simpl; lia].
      apply N.Div0.div_lt_upper_bound.
      replace (N.of_nat (S (S k))) with (N.succ (N.of_nat (S k))) in Hvalue by lia.
      by rewrite N.pow_succ_r' in Hvalue.
Qed.

Section SlugLength.
Variable salt : list N.

Local Abbreviation h := (hashids salt).
Local Abbreviation A := (slug_alphabet salt).
Local Abbreviation G := (slug_guards salt).

(** An identifier is its lottery character and its digits, brought to six
    characters by guards and padding when they are fewer. *)
Lemma encode_length (n : N) :
  exists A', A' ≡ₚ A
             /\ length (Hashids._encode h [n])
                = Nat.max 6 (S (length (Hashids.toAlphabet n A'))).
Proof.
  destruct (alphabet_facts salt) as (HndA & HlenA & HlenG & HAG & HAS & Halnum).
  rewrite hashids_fields.
  unfold Hashids._encode.
  cbn [Hashids.alphabet Hashids.guards Hashids.minLength Hashids.salt Hashids.seps].
  set (idInt := Hashids.numbersIdInt_from 0 [n]).
  set (L := Hashids.charAt A (idInt mod N.of_nat (length A))).
  cbn [Hashids.encode_numbers Hashids.salt].
  change (map Hashids.codePointAt [L] ++ salt ++ map Hashids.codePointAt A)
    with (Hashids.codePointAt L :: salt ++ map Hashids.codePointAt A).
  set (A' := Hashids.shuffle A _).
  set (last := Hashids.toAlphabet n A').
  change ([L] ++ last) with (L :: last).
  set (g1 := Hashids.charAt G
               ((idInt + Hashids.codePointAt (Hashids.charAt (L :: last) 0)) mod _)).
  set (g2 := Hashids.charAt G _).
  assert (HA' : A' ≡ₚ A) by apply shuffle_Permutation.
  assert (HlenA' : length A' = 44%nat) by (by rewrite HA').
  assert (Hne : last <> []).
  { apply toAlphabet_nonempty. lia. }
  exists A'. split; [done|].
  change (Hashids.toAlphabet n A') with last.
  clearbody last g1 g2 A'.
  destruct last as [|d1 [|d2 [|d3 [|d4 [|d5 rest]]]]]; [done| | | | |].
  - cbn [length Nat.ltb Nat.leb app].
    rewrite pad_loop_once by (simpl; lia). cbv zeta.
    rewrite HlenA'. change (44 / 2)%nat with 22%nat.
    set (A'' := Hashids.shuffle A' _).
    assert (HlenA'' : length A'' = 44%nat) by (unfold A''; by rewrite shuffle_length).
    destruct (pad_round A'' [g1; L; d1; g2] HlenA'' (or_introl eq_refl))
      as (x & post & Hx & Hpost & -> & Hlen6).
    rewrite pad_loop_done by (rewrite Hlen6; lia). by rewrite Hlen6.
  - cbn [length Nat.ltb Nat.leb app].
    rewrite pad_loop_once by (simpl; lia). cbv zeta.
    rewrite HlenA'. change (44 / 2)%nat with 22%nat.
    set (A'' := Hashids.shuffle A' _).
    assert (HlenA'' : length A'' = 44%nat) by (unfold A''; by rewrite shuffle_length).
    destruct (pad_round A'' [g1; L; d1; d2; g2] HlenA'' (or_intror eq_refl))
      as (x & post & Hx & Hpost & -> & Hlen6).
    rewrite pad_loop_done by (rewrite Hlen6; lia). by rewrite Hlen6.
  - cbn [length Nat.ltb Nat.leb app].
    rewrite pad_loop_done by (simpl; lia). reflexivity.
  - cbn [length Nat.ltb Nat.leb app].
    rewrite pad_loop_done by (simpl; lia). reflexivity.
  - cbn [length Nat.ltb Nat.leb app].
    rewrite pad_loop_done by (simpl; lia). simpl. lia.
Qed.

Lemma encode_length_le (n : N) :
  (n <= 9007199254740991)%N ->
  (length (Hashids._encode h [n]) <= 11)%nat.
Proof.
  intros Hn. destruct (encode_length n) as (A' & HA' & ->).
  destruct (alphabet_facts salt) as (_ & HlenA & _).
  assert (length (Hashids.toAlphabet n A') <= 10)%nat; [|lia].
  unfold Hashids.toAlphabet.
  apply (toAlphabet_loop_length_le A' _ n [] 10); [rewrite HA'; lia | | lia].
  rewrite HA', HlenA. change (N.of_nat 44 ^ N.of_nat 10)%N with 27197360938418176%N.
  lia.
Qed.

End SlugLength.

Lemma ustr_length s : length (ustr s) = String.length s.
Proof.
  unfold ustr. rewrite length_map.
  induction s as [|c s IH]; simpl; [done | by rewrite IH].
Qed.

Lemma ustr_alphanumeric s :
  alphanumeric s -> forallb isAlphanumericUnit (ustr s) = true.
Proof.
  unfold alphanumeric, ustr. intros Hs. apply forallb_forall. intros u Hu.
  apply in_map_iff in Hu as (c & <- & Hc).
  rewrite Forall_forall in Hs. apply (Hs c). by apply list_elem_of_In.
Qed.

(** X15: every slug that [generateSlug] makes of a valid counter value has
    between 6 and 11 characters, all of them letters or digits, and so
    passes [pasteSlugSchema] (1 to 50 alphanumeric characters) unchanged. *)
Theorem generated_slug_passes_slug_schema salt n :
  valid_id n ->
  (6 <= String.length (generateSlug salt n) <= 11)%nat
  /\ pasteSlugSchema_parse (JsString (ustr (generateSlug salt n)))
     = inr (ustr (generateSlug salt n)).
Proof.
  intros Hn.
  destruct (decode_encode salt (Z.to_N n)) as (_ & Halnum & Hlen6).
  assert (Hlen11 : (length (Hashids._encode (hashids salt) [Z.to_N n]) <= 11)%nat).
  { apply encode_length_le. destruct Hn as [? Hmax].
    unfold Hashids.MAX_SAFE_INTEGER in Hmax. lia. }
  rewrite generateSlug_valid by done.
  set (id := Hashids._encode (hashids salt) [Z.to_N n]) in *.
  rewrite string_of_list_ascii_length. split; [lia|].
  unfold pasteSlugSchema_parse.
  rewrite ustr_length, string_of_list_ascii_length.
  destruct (Nat.ltb_spec (length id) 1); [lia|].
  destruct (Nat.ltb_spec 50 (length id)); [lia|].
  assert (Hmatch : matches_alphanumeric (ustr (string_of_list_ascii id)) = true).
  { unfold matches_alphanumeric.
    destruct (ustr (string_of_list_ascii id)) as [|u us] eqn:Hid.
    - apply (f_equal length) in Hid.
      rewrite ustr_length, string_of_list_ascii_length in Hid. simpl in Hid. lia.
    - rewrite <- Hid. apply ustr_alphanumeric. unfold alphanumeric.
      by rewrite list_ascii_of_string_of_list_ascii. }
  by rewrite Hmatch.
Qed.

Lemma generated_slug_passes_slug_schema_witness :
  (6 <= String.length (generateSlug (ustr "pepper") 9007199254740991) <= 11)%nat
  /\ pasteSlugSchema_parse (JsString (ustr (generateSlug (ustr "pepper") 9007199254740991)))
     = inr (ustr (generateSlug (ustr "pepper") 9007199254740991)).
Proof.
  apply (generated_slug_passes_slug_schema (ustr "pepper") 9007199254740991).
  unfold valid_id, Hashids.MAX_SAFE_INTEGER. lia.
Defined.

(* ================================================================= *)
(** ** The inline handler *)

Lemma inline_calculateExpiration_spec duration w :
  Inline.calculateExpiration duration w = (Ok (expiration_of duration (now w)), w).
Proof.
  unfold Inline.calculateExpiration, expiration_of.
  repeat case_bool_decide; reflexivity.
Qed.

Lemma trim_nonempty text : trim text <> [] -> exists u rest, text = u :: rest.
Proof. destruct text as [|u rest]; [done | eauto]. Qed.

(** X16: the inline handler awaits its cache write unguarded: once the
    request has passed the limiter and the checks, the counter has been
    incremented and the store has accepted the row, a failing cache write
    makes the handler answer 500 "An unexpected error occurred", although
    the row is in the table. *)
Theorem inline_POST_cache_failure_is_500_with_row
    salt sha request body text w rl w0 counter w1 row w2 msg :
  rateLimit sha (inline_ip request) 5 60 w = (Ok rl, w0) ->
  success rl = true ->
  Inline.json request = Some body ->
  Inline.content body = Some text ->
  trim text <> [] ->
  falsy_userId (Inline.userId body) = false
  \/ default "7d" (Inline.expiresIn body) <> "never" ->
  (utf8Length text <= CONTENT_SIZE_LIMIT)%N ->
  Redis.incr "paste_counter" w0 = (Ok counter, w1) ->
  PasteDAO.insert (inline_insert_of salt sha body text (inline_ip request) counter (now w1)) w1
  = (Ok row, w2) ->
  set_error (faults w2) = Some msg ->
  Inline.POST salt sha request w
  = (Ok (Failed 500 "An unexpected error occurred. Please try again." None),
     with_console ("Unexpected error in POST /api/pastes:" :: console w2) w2)
  /\ last (pastes w2) = Some row.
Proof.
  intros Hrl Hok Hjson Hcontent Hblank Hpolicy Hsize Hincr Hins Hset.
  destruct (trim_nonempty text Hblank) as (u & rest & ->).
  split.
  - unfold Inline.POST, try_catch. fold (inline_ip request).
    unfold mbind at 1, M_bind. rewrite Hrl, Hok. cbn [negb].
    rewrite Hjson, Hcontent. lazy iota beta.
    rewrite bool_decide_eq_false_2 by done.
    assert (falsy_userId (Inline.userId body)
            && bool_decide (default "7d" (Inline.expiresIn body) = "never") = false) as ->.
    { destruct Hpolicy as [-> | Hnever]; [done|].
      rewrite (bool_decide_eq_false_2 _ Hnever). apply andb_false_r. }
    apply N.ltb_ge in Hsize. rewrite Hsize.
    rewrite (bind_Ok _ _ _ _ _ Hincr).
    rewrite (bind_Ok _ _ _ _ _ (inline_calculateExpiration_spec _ _)).
    unfold Inline.insert_single.
    fold (inline_insert_of salt sha body (u :: rest) (inline_ip request) counter (now w1)).
    unfold mbind at 1, M_bind. rewrite Hins.
    unfold mbind at 1, M_bind, Redis.set.
    rewrite (backend_call_faulty _ _ _ msg) by done.
    reflexivity.
  - apply insert_Ok_inv in Hins as (_ & _ & _ & _ & _ & -> & _).
    simpl. by rewrite last_snoc.
Qed.

Lemma inline_POST_cache_failure_is_500_with_row_witness :
  let w := with_faults cache_down (empty_world 1700000000000) in
  let '(r, w') := Inline.POST (ustr "pepper") (fun ip => ip)
                    (inline_request (ustr "print('hi')") (Some "1d")) w in
  r = Ok (Failed 500 "An unexpected error occurred. Please try again." None)
  /\ PasteRow.slug <$> pastes w' = [generateSlug (ustr "pepper") 1].
Proof.
  intros w.
  destruct (Inline.POST _ _ _ w) as [r w'] eqn:Hrun.
  edestruct (inline_POST_cache_failure_is_500_with_row (ustr "pepper") (fun ip => ip)
               (inline_request (ustr "print('hi')") (Some "1d"))
               {| Inline.content := Some (ustr "print('hi')");
                  Inline.language := Some "python";
                  Inline.expiresIn := Some "1d";
                  Inline.userId := None |}
               (ustr "print('hi')") w)
    as (Hresp & Hrow);
    [ reflexivity | reflexivity | reflexivity | reflexivity | vm_compute; discriminate
    | right; discriminate | vm_compute; discriminate | reflexivity | reflexivity
    | reflexivity | ].
  rewrite Hresp in Hrun. injection Hrun as <- <-. split; [reflexivity|].
  vm_compute. reflexivity.
Defined.

(** X17: the inline handler measures the content in bytes: a request that
    has passed the limiter, whose content is not blank and whose
    expiration is allowed, and whose content takes more than 102,400
    bytes in UTF-8, is answered 413, however many code units it has;
    nothing has been written but the count of the limiter. *)
Theorem inline_POST_oversized_is_413 salt sha request body text w rl w0 :
  rateLimit sha (inline_ip request) 5 60 w = (Ok rl, w0) ->
  success rl = true ->
  Inline.json request = Some body ->
  Inline.content body = Some text ->
  trim text <> [] ->
  falsy_userId (Inline.userId body) = false
  \/ default "7d" (Inline.expiresIn body) <> "never" ->
  (CONTENT_SIZE_LIMIT < utf8Length text)%N ->
  Inline.POST salt sha request w
  = (Ok (Failed 413 "Content too large. Maximum size is 100KB." None), w0).
Proof.
  intros Hrl Hok Hjson Hcontent Hblank Hpolicy Hsize.
  destruct (trim_nonempty text Hblank) as (u & rest & ->).
  unfold Inline.POST, try_catch. fold (inline_ip request).
  unfold mbind at 1, M_bind. rewrite Hrl, Hok. cbn [negb].
  rewrite Hjson, Hcontent. lazy iota beta.
  rewrite bool_decide_eq_false_2 by done.
  assert (falsy_userId (Inline.userId body)
          && bool_decide (default "7d" (Inline.expiresIn body) = "never") = false) as ->.
  { destruct Hpolicy as [-> | Hnever]; [done|].
    rewrite (bool_decide_eq_false_2 _ Hnever). apply andb_false_r. }
  apply N.ltb_lt in Hsize. by rewrite Hsize.
Qed.

Lemma inline_POST_oversized_is_413_witness :
  let w := empty_world 1700000000000 in
  fst (Inline.POST (ustr "pepper") (fun ip => ip)
         (inline_request (repeat 97%N (N.to_nat 102401)) None) w)
  = Ok (Failed 413 "Content too large. Maximum size is 100KB." None).
Proof.
  intros w.
  erewrite (inline_POST_oversized_is_413 (ustr "pepper") (fun ip => ip)
              (inline_request (repeat 97%N (N.to_nat 102401)) None)
              {| Inline.content := Some (repeat 97%N (N.to_nat 102401));
                 Inline.language := Some "python";
                 Inline.expiresIn := None;
                 Inline.userId := None |}
              (repeat 97%N (N.to_nat 102401)) w);
    [ reflexivity | reflexivity | reflexivity | reflexivity | reflexivity
    | intros Hblank; apply (f_equal (fun l => N.of_nat (length l))) in Hblank;
      vm_compute in Hblank; discriminate
    | right; discriminate | vm_compute; reflexivity ].
Defined.

(** X18: where the schema of the service lets a blank content through,
    the inline handler refuses it: a request that has passed the limiter
    and whose content is missing, empty or white space only is answered
    400 "Content cannot be empty", and nothing has been written but the
    count of the limiter. *)
Theorem inline_POST_rejects_blank_content salt sha request body w rl w0 :
  rateLimit sha (inline_ip request) 5 60 w = (Ok rl, w0) ->
  success rl = true ->
  Inline.json request = Some body ->
  (forall text, Inline.content body = Some text ->
                Forall (fun u => isWhiteSpace u = true) text) ->
  Inline.POST salt sha request w
  = (Ok (Failed 400 "Content cannot be empty" None), w0).
Proof.
  intros Hrl Hok Hjson Hblank.
  unfold Inline.POST, try_catch. fold (inline_ip request).
  unfold mbind at 1, M_bind. rewrite Hrl, Hok. cbn [negb]. rewrite Hjson.
  destruct (Inline.content body) as [[|u rest]|] eqn:Hcontent; [done | | done].
  rewrite bool_decide_eq_true_2; [done|].
  apply trim_blank. by apply Hblank.
Qed.

Lemma inline_POST_rejects_blank_content_witness :
  let w := empty_world 1700000000000 in
  fst (Inline.POST (ustr "pepper") (fun ip => ip)
         (inline_request [32; 10; 9]%N None) w)
  = Ok (Failed 400 "Content cannot be empty" None).
Proof.
  intros w.
  erewrite (inline_POST_rejects_blank_content (ustr "pepper") (fun ip => ip)
              (inline_request [32; 10; 9]%N None)
              {| Inline.content := Some [32; 10; 9]%N;
                 Inline.language := Some "python";
                 Inline.expiresIn := None;
                 Inline.userId := None |} w);
    [ reflexivity | reflexivity | reflexivity | reflexivity
    | intros text [= <-]; repeat constructor ].
Defined.

(* ================================================================= *)
(** ** Reads and the state of the backends *)

Lemma getPaste_throws_with_the_store slug w e w' :
  getPaste slug w = (Throw e, w') -> select_error (faults w) <> None.
Proof.
  rewrite getPaste_store.
  destruct (select_error (faults w)); [done|].
  destruct (List.filter _ (pastes w)) as [|row [|]]; try done.
  by destruct (PasteRepository.isExpired _ _).
Qed.

(** X28: a view that the store refuses to count is lost, not the read:
    when the increment fails and the query of the store does not,
    [getPaste] of a stored, unexpired paste still returns it, the table
    is as it was (the count has not moved), and the failure is logged. *)
Theorem getPaste_swallows_failed_increment slug w row msg :
  select_error (faults w) = None ->
  rpc_error (faults w) = Some msg ->
  List.filter (fun r => bool_decide (PasteRow.slug r = slug)) (pastes w) = [row] ->
  PasteRepository.isExpired (PasteRow.expires_at row) (now w) = false ->
  exists w',
    getPaste slug w = (Ok (Some (PasteRepository.toDomainModel row)), w')
    /\ pastes w' = pastes w
    /\ head (console w') = Some "Failed to increment view count:".
Proof.
  intros Hsel Hrpc Hrow Hexp. rewrite getPaste_store, Hsel, Hrow, Hexp.
  eexists. split; [reflexivity|].
  destruct (getPaste_found_world slug
              (cached_of_paste (PasteRepository.toDomainModel row)) (PasteRow.id row) w)
    as (_ & _ & _ & Hrows).
  rewrite Hrpc in Hrows. split; [exact Hrows|].
  rewrite getCachedPaste_run, cachePaste_run. cbn [snd].
  unfold try_catch, PasteRepository.incrementViewCount, PasteDAO.incrementViewCount,
    console_error.
  by destruct (get_error (faults w)), (set_error (faults w)) eqn:Hset; simpl;
    rewrite ?Hset; simpl; rewrite Hrpc.
Qed.

Lemma getPaste_swallows_failed_increment_witness :
  let w := sample_world 1700000600000 1700003600000
             {| incr_error := None; expire_error := None; ttl_error := None;
                get_error := None; set_error := None; del_error := None;
                insert_error := None; select_error := None;
                rpc_error := Some "function increment_view_count does not exist";
                delete_error := None |} in
  exists w',
    getPaste "x9Lk2a" w = (Ok (Some (PasteRepository.toDomainModel sample_row)), w')
    /\ PasteRow.view_count <$> pastes w' = [Some 7]
    /\ head (console w') = Some "Failed to increment view count:".
Proof.
  intros w.
  destruct (getPaste_swallows_failed_increment "x9Lk2a" w sample_row
              "function increment_view_count does not exist")
    as (w' & Hrun & Hrows & Hlog);
    [reflexivity | reflexivity | reflexivity | reflexivity |].
  exists w'. split; [exact Hrun|]. split; [by rewrite Hrows | exact Hlog].
Defined.

(** X19: the handler [GET] always answers, and a read fails only with the
    store: an empty slug is answered 400 with nothing touched; otherwise
    the answer is 200, 404 or 500, and 500 means that the query of the
    store failed: as long as the store answers, the answer is 200 or 404
    whatever the state of the cache and of the view counter. *)
Theorem GET_fails_only_with_the_store slug w :
  exists response w',
    GET slug w = (Ok response, w')
    /\ (slug = "" -> response = GetFailed 400 "Invalid slug" /\ w' = w)
    /\ (slug <> "" ->
        get_status response = 200 \/ get_status response = 404
        \/ (get_status response = 500 /\ select_error (faults w) <> None)).
Proof.
  unfold GET, try_catch. case_bool_decide as Hslug.
  { eexists _, _. split; [reflexivity|]. by split. }
  unfold mbind at 1, M_bind.
  destruct (getPaste slug w) as [[[paste|]|e] w1] eqn:Hget.
  - eexists _, _. split; [reflexivity|]. split; [done|]. intros _. by left.
  - eexists _, _. split; [reflexivity|]. split; [done|]. intros _. right. by left.
  - apply getPaste_throws_with_the_store in Hget.
    eexists _, _. split; [reflexivity|]. split; [done|]. intros _. right. by right.
Qed.

Lemma GET_fails_only_with_the_store_witness :
  let w := sample_world 1700000600000 1700000000000 cache_down in
  exists response w',
    GET "nothere" w = (Ok response, w')
    /\ (get_status response = 200 \/ get_status response = 404
        \/ (get_status response = 500 /\ select_error (faults w) <> None)).
Proof.
  intros w.
  destruct (GET_fails_only_with_the_store "nothere" w) as (r & w' & Hrun & _ & Hcode).
  exists r, w'. split; [exact Hrun|]. apply Hcode. discriminate.
Defined.

Lemma filter_unique {K} `{EqDecision K} (f : PasteRow.t -> K) rows row :
  NoDup (f <$> rows) -> row ∈ rows ->
  List.filter (fun r => bool_decide (f r = f row)) rows = [row].
Proof.
  induction rows as [|r rows IH]; [by intros _ ?%elem_of_nil|].
  rewrite fmap_cons, NoDup_cons. intros [Hr Hnd] Hin. simpl.
  assert (Hrest : forall r', f r' ∉ f <$> rows ->
            List.filter (fun r => bool_decide (f r = f r')) rows = []).
  { intros r' Hr'. clear -Hr'. induction rows as [|x rows IH]; [done|]. simpl.
    rewrite fmap_cons, not_elem_of_cons in Hr'. destruct Hr' as [Hx Hr'].
    rewrite bool_decide_eq_false_2 by done. by apply IH. }
  apply elem_of_cons in Hin as [->|Hin].
  - rewrite bool_decide_eq_true_2 by done. f_equal. by apply Hrest.
  - rewrite bool_decide_eq_false_2; [by apply IH|].
    intros Heq. apply Hr. rewrite Heq. by apply list_elem_of_fmap_2.
Qed.

(** X20: the identifiers and the slugs of the table being unique, the two
    lookups of the repository agree: for every stored row, [getById] of
    its identifier and [getBySlug] of its slug return the same answer,
    the paste of that row or [null] when it has expired, or fail alike. *)
Theorem getById_agrees_with_getBySlug row w :
  row ∈ pastes w ->
  NoDup (PasteRow.id <$> pastes w) ->
  NoDup (PasteRow.slug <$> pastes w) ->
  PasteRepository.getById (PasteRow.id row) w
  = PasteRepository.getBySlug (PasteRow.slug row) w
  /\ (select_error (faults w) = None ->
      PasteRepository.getById (PasteRow.id row) w
      = (if PasteRepository.isExpired (PasteRow.expires_at row) (now w) then Ok None
         else Ok (Some (PasteRepository.toDomainModel row)), w)).
Proof.
  intros Hrow Hids Hslugs. rewrite getBySlug_run.
  unfold PasteRepository.getById, PasteDAO.findById, mbind, M_bind, Date_now.
  rewrite (filter_unique PasteRow.id (pastes w) row Hids Hrow).
  rewrite (filter_unique PasteRow.slug (pastes w) row Hslugs Hrow).
  destruct (select_error (faults w)); [by split|].
  by destruct (PasteRepository.isExpired _ _).
Qed.

Lemma getById_agrees_with_getBySlug_witness :
  let w := sample_world 1700000600000 1700003600000 healthy in
  PasteRepository.getById 41 w = PasteRepository.getBySlug "x9Lk2a" w
  /\ PasteRepository.getById 41 w = (Ok (Some (PasteRepository.toDomainModel sample_row)), w).
Proof.
  intros w.
  destruct (getById_agrees_with_getBySlug sample_row w) as [Hsame Hvalue];
    [ apply list_elem_of_here | repeat constructor; apply not_elem_of_nil
    | repeat constructor; apply not_elem_of_nil | ].
  split; [exact Hsame | by apply Hvalue].
Defined.

(* ================================================================= *)
(** ** The history of the browser *)

Section History.
Import PasteHistory.

#[local] Instance index_le_transitive : Transitive index_le.
Proof.
  intros a b c [[Hne Hab] | [Hab Hsab]] [[Hne' Hbc] | [Hbc Hsbc]]; unfold index_le.
  - left. split; [|by etrans]. intros Hac. apply Hne.
    apply (anti_symm String.le); [exact Hab | by rewrite Hac].
  - left. by rewrite <- Hbc.
  - left. by rewrite Hab.
  - right. split; [congruence | by etrans].
Qed.

#[local] Instance index_le_total : Total index_le.
Proof.
  intros a b. unfold index_le.
  destruct (decide (viewedAt a = viewedAt b)) as [Heq|Hne].
  - destruct (total String.le (slug a) (slug b)); auto.
  - destruct (total String.le (viewedAt a) (viewedAt b)); auto.
Qed.

Lemma index_le_viewedAt a b : index_le a b -> String.le (viewedAt a) (viewedAt b).
Proof. intros [[_ Hle] | [-> _]]; [exact Hle | reflexivity]. Qed.

(** [addToHistory] catches what its body throws: it always resolves. *)
Lemma addToHistory_run entry b :
  addToHistory entry b
  = (Ok tt,
     match openDB b with
     | None => log_error "Failed to add to history:" b
     | Some s =>
         match s !! slug entry with
         | Some existing =>
             with_store
               (<[slug entry :=
                    {| slug := slug entry; language := language entry;
                       contentPreview := contentPreview entry;
                       createdAt := createdAt entry; viewedAt := clock b;
                       isOwned := isOwned existing || isOwned entry;
                       metadata := metadata entry |}]> s) b
         | None => with_store (enforceHistoryLimit (<[slug entry := entry]> s)) b
         end
     end).
Proof.
  unfold addToHistory, try_catch. destruct (openDB b) as [s|]; [|done].
  by destruct (s !! slug entry).
Qed.

Lemma openCursor_Permutation s : openCursor s ≡ₚ records s.
Proof. apply merge_sort_Permutation. Qed.

Lemma openCursor_length s : length (openCursor s) = size s.
Proof.
  rewrite openCursor_Permutation. unfold records.
  by rewrite length_fmap, length_map_to_list.
Qed.

Lemma openCursor_sorted s : StronglySorted index_le (openCursor s).
Proof. apply StronglySorted_merge_sort; exact _. Qed.

Lemma elem_of_records s e :
  keyed_by_slug s -> e ∈ records s <-> s !! slug e = Some e.
Proof.
  intros Hkeyed. unfold records. rewrite list_elem_of_fmap. split.
  - intros ([k e'] & -> & Hin). apply elem_of_map_to_list in Hin. simpl.
    by rewrite (Hkeyed _ _ Hin).
  - intros Hin. exists (slug e, e). split; [done|]. by apply elem_of_map_to_list.
Qed.

Lemma elem_of_openCursor s e :
  keyed_by_slug s -> e ∈ openCursor s <-> s !! slug e = Some e.
Proof. intros Hkeyed. rewrite openCursor_Permutation. by apply elem_of_records. Qed.

Lemma records_slugs s :
  keyed_by_slug s -> slug <$> records s = (map_to_list s).*1.
Proof.
  intros Hkeyed. unfold records. rewrite <- list_fmap_compose.
  apply list_fmap_ext. intros i [k e] Hi. simpl.
  apply list_elem_of_lookup_2, elem_of_map_to_list in Hi. by apply Hkeyed.
Qed.

Lemma openCursor_NoDup s : keyed_by_slug s -> NoDup (slug <$> openCursor s).
Proof.
  intros Hkeyed. rewrite openCursor_Permutation, records_slugs by done.
  apply NoDup_fst_map_to_list.
Qed.

(** Deleting the records of a list. *)
Lemma delete_all_lookup (s : gmap string PasteHistoryEntry) l k :
  foldl (fun store entry => delete (slug entry) store) s l !! k
  = if decide (k ∈ slug <$> l) then None else s !! k.
Proof.
  revert s. induction l as [|e l IH]; intros s; [done|].
  cbn [foldl]. rewrite IH, fmap_cons.
  destruct (decide (k ∈ slug <$> l)) as [Hl|Hl].
  - rewrite decide_True; [done|]. by apply list_elem_of_further.
  - destruct (decide (k = slug e)) as [->|Hk].
    + rewrite decide_True by apply list_elem_of_here. apply lookup_delete_eq.
    + rewrite decide_False; [by apply lookup_delete_ne|].
      intros [->|?]%elem_of_cons; done.
Qed.

Lemma delete_all_size (s : gmap string PasteHistoryEntry) l :
  NoDup (slug <$> l) ->
  Forall (fun e => is_Some (s !! slug e)) l ->
  size (foldl (fun store entry => delete (slug entry) store) s l) = (size s - length l)%nat.
Proof.
  revert s. induction l as [|e l IH]; intros s; [simpl; lia|].
  cbn [foldl length]. rewrite fmap_cons, NoDup_cons, Forall_cons.
  intros [He Hnd] [Hin Hall].
  rewrite IH; [rewrite map_size_delete_Some by done; lia | done |].
  rewrite Forall_forall in Hall. apply Forall_forall. intros x Hx.
  rewrite lookup_delete_ne; [by apply Hall|].
  intros Heq. apply He. rewrite Heq. by apply list_elem_of_fmap_2.
Qed.

Lemma enforceHistoryLimit_size s :
  keyed_by_slug s -> size (enforceHistoryLimit s) = Nat.min (size s) MAX_HISTORY_SIZE.
Proof.
  intros Hkeyed. unfold enforceHistoryLimit. cbv zeta. rewrite openCursor_length.
  unfold MAX_HISTORY_SIZE. destruct (Nat.ltb_spec 50 (size s)); [|lia].
  rewrite delete_all_size.
  - rewrite length_take, openCursor_length. lia.
  - eapply sublist_NoDup; [by apply openCursor_NoDup|].
    apply fmap_sublist, sublist_take.
  - apply Forall_forall. intros e He. apply subseteq_take in He.
    apply elem_of_openCursor in He; [|done]. by rewrite He.
Qed.

Lemma enforceHistoryLimit_lookup s k e :
  enforceHistoryLimit s !! k = Some e -> s !! k = Some e.
Proof.
  unfold enforceHistoryLimit. cbv zeta. destruct (_ <? _)%nat; [|done].
  rewrite delete_all_lookup. by case_decide.
Qed.

Lemma keyed_by_slug_insert s e :
  keyed_by_slug s -> keyed_by_slug (<[slug e := e]> s).
Proof.
  intros Hkeyed k e'. destruct (decide (k = slug e)) as [->|Hk].
  - rewrite lookup_insert_eq. by intros [= <-].
  - rewrite lookup_insert_ne by done. apply Hkeyed.
Qed.

Lemma keyed_by_slug_enforce s :
  keyed_by_slug s -> keyed_by_slug (enforceHistoryLimit s).
Proof. intros Hkeyed k e He. by apply Hkeyed, enforceHistoryLimit_lookup. Qed.

Lemma addToHistory_keyed entry b :
  keyed_by_slug (store b) -> keyed_by_slug (store (snd (addToHistory entry b))).
Proof.
  intros Hkeyed. rewrite addToHistory_run. cbn [snd]. unfold openDB.
  destruct (indexedDB_available b); [|done].
  destruct (store b !! slug entry) as [existing|]; simpl.
  - by apply (keyed_by_slug_insert _
                {| slug := slug entry; language := language entry;
                   contentPreview := contentPreview entry; createdAt := createdAt entry;
                   viewedAt := clock b; isOwned := isOwned existing || isOwned entry;
                   metadata := metadata entry |}).
  - by apply keyed_by_slug_enforce, keyed_by_slug_insert.
Qed.

Lemma addToHistory_bounded entry b :
  keyed_by_slug (store b) ->
  (size (store b) <= MAX_HISTORY_SIZE)%nat ->
  (size (store (snd (addToHistory entry b))) <= MAX_HISTORY_SIZE)%nat.
Proof.
  intros Hkeyed Hsize. rewrite addToHistory_run. cbn [snd]. unfold openDB.
  destruct (indexedDB_available b); [|done].
  destruct (store b !! slug entry) as [existing|] eqn:Hslug; simpl.
  - by rewrite map_size_insert_Some.
  - rewrite enforceHistoryLimit_size by (by apply keyed_by_slug_insert). lia.
Qed.

(** X21: the history holds at most 50 records: [addToHistory] on a store
    of at most 50 records leaves at most 50; an entry whose slug is
    already recorded replaces its record, a new one adds a record and, at
    50 records, makes one go. *)
Theorem addToHistory_keeps_limit entry b :
  keyed_by_slug (store b) ->
  (size (store b) <= MAX_HISTORY_SIZE)%nat ->
  size (store (snd (addToHistory entry b)))
  = (if indexedDB_available b
     then match store b !! slug entry with
          | Some _ => size (store b)
          | None => Nat.min (S (size (store b))) MAX_HISTORY_SIZE
          end
     else size (store b))
  /\ (size (store (snd (addToHistory entry b))) <= MAX_HISTORY_SIZE)%nat.
Proof.
  intros Hkeyed Hsize.
  assert (Hexact : size (store (snd (addToHistory entry b)))
                   = (if indexedDB_available b
                      then match store b !! slug entry with
                           | Some _ => size (store b)
                           | None => Nat.min (S (size (store b))) MAX_HISTORY_SIZE
                           end
                      else size (store b))).
  { rewrite addToHistory_run. cbn [snd]. unfold openDB.
    destruct (indexedDB_available b); [|done].
    destruct (store b !! slug entry) as [existing|] eqn:Hslug; simpl.
    - by rewrite map_size_insert_Some.
    - rewrite enforceHistoryLimit_size by (by apply keyed_by_slug_insert).
      by rewrite map_size_insert_None. }
  split; [exact Hexact|]. rewrite Hexact.
  destruct (indexedDB_available b); [|done].
  destruct (store b !! slug entry); lia.
Qed.

Lemma sample_browser_keyed t entries : keyed_by_slug (store (sample_browser t entries)).
Proof.
  intros k e He. simpl in He. apply elem_of_list_to_map_2 in He.
  apply list_elem_of_fmap in He as (e' & Heq & _). by injection Heq as -> ->.
Qed.

Lemma addToHistory_keeps_limit_witness :
  let b := sample_browser 55 fifty_entries in
  size (store b) = 50%nat
  /\ size (store (snd (addToHistory (sample_entry "fresh" 52 true) b))) = 50%nat
  /\ (size (store (snd (addToHistory (sample_entry "fresh" 52 true) b)))
      <= MAX_HISTORY_SIZE)%nat.
Proof.
  intros b. split; [vm_compute; reflexivity|].
  destruct (addToHistory_keeps_limit (sample_entry "fresh" 52 true) b)
    as [Hexact Hbound].
  - apply sample_browser_keyed.
  - vm_compute. repeat constructor.
  - split; [|exact Hbound]. rewrite Hexact. vm_compute. reflexivity.
Defined.

(** X22: [addToHistory] makes room in the order of the [viewedAt] index:
    when a new entry makes records go, the [viewedAt] text of every
    record that went sorts no later than the one of every record that
    stayed (the new entry itself goes when its text sorts first).  The
    texts are compared as strings, not as the instants they denote. *)
Theorem addToHistory_evicts_in_index_order entry b kept gone :
  indexedDB_available b = true ->
  keyed_by_slug (store b) ->
  store b !! slug entry = None ->
  store (snd (addToHistory entry b)) !! slug kept = Some kept ->
  <[slug entry := entry]> (store b) !! slug gone = Some gone ->
  store (snd (addToHistory entry b)) !! slug gone = None ->
  String.le (viewedAt gone) (viewedAt kept).
Proof.
  intros Hdb Hkeyed Hnew. rewrite addToHistory_run. cbn [snd]. unfold openDB.
  rewrite Hdb, Hnew. simpl.
  set (s1 := <[slug entry := entry]> (store b)).
  assert (Hkeyed1 : keyed_by_slug s1) by (by apply keyed_by_slug_insert).
  unfold enforceHistoryLimit. cbv zeta.
  destruct (_ <? _)%nat; [|congruence].
  set (k := (length (openCursor s1) - MAX_HISTORY_SIZE)%nat).
  rewrite !delete_all_lookup.
  destruct (decide (slug kept ∈ slug <$> take k (openCursor s1))) as [|Hkept]; [done|].
  destruct (decide (slug gone ∈ slug <$> take k (openCursor s1))) as [Hgone|]; [|congruence].
  intros Hk Hg _. apply index_le_viewedAt.
  apply (StronglySorted_app_1_elem_of index_le (take k (openCursor s1))
           (drop k (openCursor s1))).
  - rewrite take_drop. apply openCursor_sorted.
  - apply list_elem_of_fmap in Hgone as (g & Hslug & Hg').
    assert (g = gone) as <-; [|done].
    apply subseteq_take, elem_of_openCursor in Hg'; [|done].
    rewrite <- Hslug in Hg'. congruence.
  - apply (elem_of_openCursor s1) in Hk; [|done].
    rewrite <- (take_drop k (openCursor s1)) in Hk.
    apply elem_of_app in Hk as [Hk|Hk]; [|done].
    destruct Hkept. by apply list_elem_of_fmap_2.
Qed.

Lemma addToHistory_evicts_in_index_order_witness :
  let b := sample_browser 55 fifty_entries in
  let fresh := sample_entry "fresh" 52 true in
  let first := sample_entry "p0" 0 false in
  store (snd (addToHistory fresh b)) !! "fresh" = Some fresh
  /\ store (snd (addToHistory fresh b)) !! "p0" = None
  /\ String.le (viewedAt first) (viewedAt fresh).
Proof.
  intros b fresh first.
  assert (Hkept : store (snd (addToHistory fresh b)) !! slug fresh = Some fresh)
    by (vm_compute; reflexivity).
  assert (Hgone : store (snd (addToHistory fresh b)) !! slug first = None)
    by (vm_compute; reflexivity).
  split; [exact Hkept|]. split; [exact Hgone|].
  apply (addToHistory_evicts_in_index_order fresh b fresh first);
    [ reflexivity | apply sample_browser_keyed | vm_compute; reflexivity
    | exact Hkept | vm_compute; reflexivity | exact Hgone ].
Defined.

(** The index follows the texts, not the instants: of two views of the
    same second, written with different offsets, the later one can sort
    first. *)
Example index_order_is_textual :
  let offset := {| slug := "offset"; language := "text"; contentPreview := [];
                   createdAt := 0; viewedAt := "2024-05-01T12:00:00.000+02:00";
                   isOwned := false; metadata := "{}" |} in
  let zulu := {| slug := "zulu"; language := "text"; contentPreview := [];
                 createdAt := 0; viewedAt := "2024-05-01T10:00:01.000Z";
                 isOwned := false; metadata := "{}" |} in
  slug <$> openCursor {[ "offset" := offset; "zulu" := zulu ]} = ["zulu"; "offset"].
Proof. vm_compute. reflexivity. Qed.

(** X23: a paste of the user stays one: a record that is owned stays
    owned, as long as it is recorded, whatever entry [addToHistory] is
    given; viewing a paste that one has created does not turn it into a
    viewed one. *)
Theorem addToHistory_keeps_ownership entry b k e e' :
  store b !! k = Some e ->
  isOwned e = true ->
  store (snd (addToHistory entry b)) !! k = Some e' ->
  isOwned e' = true
  /\ (k <> slug entry -> e' = e)
  /\ (k = slug entry -> indexedDB_available b = true -> viewedAt e' = clock b).
Proof.
  intros He Howned. rewrite addToHistory_run. cbn [snd]. unfold openDB.
  destruct (indexedDB_available b); simpl.
  2:{ rewrite He. intros [= <-]. by repeat split. }
  destruct (decide (k = slug entry)) as [->|Hk].
  - rewrite He. simpl. rewrite lookup_insert_eq. intros [= <-]. simpl.
    rewrite Howned. by repeat split.
  - destruct (store b !! slug entry) as [existing|]; simpl.
    + rewrite lookup_insert_ne by done. rewrite He. intros [= <-]. by repeat split.
    + intros He'. apply enforceHistoryLimit_lookup in He'.
      rewrite lookup_insert_ne in He' by done. rewrite He in He'.
      injection He' as <-. by repeat split.
Qed.

Lemma addToHistory_keeps_ownership_witness :
  let mine := sample_entry "mine" 1 true in
  let b := sample_browser 55 [mine] in
  let viewed := sample_entry "mine" 2 false in
  exists e',
    store (snd (addToHistory viewed b)) !! "mine" = Some e'
    /\ isOwned e' = true /\ viewedAt e' = "2024-05-01T10:55:00.000Z".
Proof.
  intros mine b viewed.
  destruct (store (snd (addToHistory viewed b)) !! "mine") as [e'|] eqn:He';
    [|vm_compute in He'; discriminate].
  destruct (addToHistory_keeps_ownership viewed b "mine" mine e')
    as (Howned & _ & Hviewed);
    [ vm_compute; reflexivity | reflexivity | exact He' | ].
  exists e'. split; [reflexivity|]. split; [exact Howned|].
  by apply Hviewed.
Defined.

Lemma importHistory_fold entries success failed b :
  foldl (fun '((success, failed, b) : nat * nat * Browser) entry =>
           match addToHistory entry b with
           | (Ok _, b) => (S success, failed, b)
           | (Throw _, b) => (success, S failed, b)
           end)
        (success, failed, b) entries
  = ((success + length entries)%nat, failed,
     foldl (fun b entry => snd (addToHistory entry b)) b entries).
Proof.
  revert success b. induction entries as [|e entries IH]; intros success b; simpl.
  - by rewrite Nat.add_0_r.
  - rewrite addToHistory_run. cbn [snd]. rewrite IH. do 2 f_equal. lia.
Qed.

Lemma addToHistory_unavailable entry b :
  indexedDB_available b = false ->
  store (snd (addToHistory entry b)) = store b
  /\ indexedDB_available (snd (addToHistory entry b)) = false.
Proof. intros Hdb. rewrite addToHistory_run. cbn [snd]. unfold openDB. by rewrite Hdb. Qed.

(** X24: [importHistory] never counts a failure.  Its loop counts an
    entry as failed when [addToHistory] rejects, and [addToHistory]
    catches what its body throws; so for an array of [n] entries the
    answer is [success = n] and [failed = 0] whatever happened to the
    entries: with IndexedDB unavailable nothing is stored and all [n] are
    still counted as successes.  In every case the history stays within
    its 50 records. *)
Theorem importHistory_never_counts_failures entries b :
  fst (importHistory (Some entries) b) = (length entries, 0%nat)
  /\ (indexedDB_available b = false ->
      store (snd (importHistory (Some entries) b)) = store b)
  /\ (keyed_by_slug (store b) -> (size (store b) <= MAX_HISTORY_SIZE)%nat ->
      (size (store (snd (importHistory (Some entries) b))) <= MAX_HISTORY_SIZE)%nat).
Proof.
  unfold importHistory. rewrite importHistory_fold. simpl.
  split; [done|]. split.
  - revert b. induction entries as [|e entries IH]; intros b Hdb; simpl; [done|].
    destruct (addToHistory_unavailable e b Hdb) as [Hstore Hdb'].
    by rewrite IH, Hstore.
  - revert b. induction entries as [|e entries IH]; intros b Hkeyed Hsize; simpl; [done|].
    apply IH; [by apply addToHistory_keyed | by apply addToHistory_bounded].
Qed.

Lemma importHistory_never_counts_failures_witness :
  let b := {| clock := "2024-05-01T10:55:00.000Z"; store := ∅;
              indexedDB_available := false; console_log := [] |} in
  fst (importHistory (Some fifty_entries) b) = (50%nat, 0%nat)
  /\ store (snd (importHistory (Some fifty_entries) b)) = ∅.
Proof.
  intros b.
  destruct (importHistory_never_counts_failures fifty_entries b) as (Hcount & Hstore & _).
  split; [exact Hcount | by apply Hstore].
Defined.

Lemma enforceHistoryLimit_room s :
  (size s <= MAX_HISTORY_SIZE)%nat -> enforceHistoryLimit s = s.
Proof.
  intros Hsize. unfold enforceHistoryLimit. cbv zeta. rewrite openCursor_length.
  by destruct (Nat.ltb_spec MAX_HISTORY_SIZE (size s)); [lia|].
Qed.

(** New entries, added while there is room, are all recorded. *)
Lemma addToHistory_all_new l b :
  indexedDB_available b = true ->
  NoDup (slug <$> l) ->
  Forall (fun e => store b !! slug e = None) l ->
  (size (store b) + length l <= MAX_HISTORY_SIZE)%nat ->
  foldl (fun b entry => snd (addToHistory entry b)) b l
  = with_store (foldl (fun s e => <[slug e := e]> s) (store b) l) b.
Proof.
  revert b. induction l as [|e l IH]; intros b Hdb Hnd Hnew Hsize.
  - by destruct b.
  - rewrite fmap_cons, NoDup_cons in Hnd. destruct Hnd as [He Hnd].
    apply Forall_cons in Hnew as [Hnew_e Hnew].
    cbn [foldl length] in *.
    assert (Hadd : snd (addToHistory e b) = with_store (<[slug e := e]> (store b)) b).
    { rewrite addToHistory_run. cbn [snd]. unfold openDB. rewrite Hdb, Hnew_e.
      rewrite enforceHistoryLimit_room; [done|].
      rewrite map_size_insert_None by done. lia. }
    rewrite Hadd, IH; [done | done | done | |].
    + rewrite Forall_forall in Hnew. apply Forall_forall. intros x Hx. simpl.
      rewrite lookup_insert_ne; [by apply Hnew|].
      intros Heq. apply He. rewrite Heq. by apply list_elem_of_fmap_2.
    + simpl. rewrite map_size_insert_None by done. lia.
Qed.

Lemma foldl_insert_reverse (l : list PasteHistoryEntry) :
  foldl (fun s e => <[slug e := e]> s) (∅ : gmap string PasteHistoryEntry) (reverse l)
  = list_to_map ((fun e => (slug e, e)) <$> l).
Proof.
  induction l as [|e l IH]; [done|].
  rewrite reverse_cons, foldl_app. simpl. by rewrite IH.
Qed.

Lemma records_pairs s :
  keyed_by_slug s -> (fun e => (slug e, e)) <$> records s = map_to_list s.
Proof.
  intros Hkeyed. unfold records. rewrite <- list_fmap_compose.
  rewrite <- (list_fmap_id (map_to_list s)) at 2.
  apply list_fmap_ext. intros i [k e] Hi. simpl.
  apply list_elem_of_lookup_2, elem_of_map_to_list in Hi. by rewrite (Hkeyed _ _ Hi).
Qed.

(** X25: a backup restores the history: the export of a history (of at
    most 50 records), imported into the cleared history, gives back the
    same records, each entry being counted as a success. *)
Theorem importHistory_restores_export b :
  indexedDB_available b = true ->
  keyed_by_slug (store b) ->
  (size (store b) <= MAX_HISTORY_SIZE)%nat ->
  store (clearHistory b) = ∅
  /\ importHistory (Some (fst (exportHistory b))) (clearHistory b)
     = ((size (store b), 0%nat), b).
Proof.
  intros Hdb Hkeyed Hsize.
  assert (Hclear : clearHistory b = with_store ∅ b).
  { unfold clearHistory, openDB. by rewrite Hdb. }
  rewrite Hclear. split; [done|].
  unfold exportHistory, getHistory, openDB. rewrite Hdb. cbn [fst].
  unfold importHistory. rewrite importHistory_fold.
  rewrite length_reverse, openCursor_length. cbn [Nat.add].
  f_equal.
  rewrite addToHistory_all_new.
  - cbn [store with_store]. rewrite foldl_insert_reverse.
    rewrite (list_to_map_proper _ (map_to_list (store b))).
    + rewrite list_to_map_to_list. by destruct b.
    + rewrite <- list_fmap_compose.
      change (fst ∘ (fun e => (slug e, e))) with slug.
      by apply openCursor_NoDup.
    + rewrite <- records_pairs by done. by rewrite openCursor_Permutation.
  - done.
  - rewrite fmap_reverse, reverse_Permutation. by apply openCursor_NoDup.
  - apply Forall_forall. intros e _. apply lookup_empty.
  - cbn [store with_store]. rewrite map_size_empty, length_reverse, openCursor_length.
    lia.
Qed.

Lemma importHistory_restores_export_witness :
  let b := sample_browser 55 fifty_entries in
  importHistory (Some (fst (exportHistory b))) (clearHistory b) = ((50%nat, 0%nat), b).
Proof.
  intros b.
  destruct (importHistory_restores_export b) as [_ Hrestore];
    [reflexivity | apply sample_browser_keyed | vm_compute; repeat constructor |].
  rewrite Hrestore. f_equal.
Defined.

Lemma StronglySorted_reverse {A} (R : relation A) l :
  StronglySorted R l -> StronglySorted (flip R) (reverse l).
Proof.
  induction 1 as [|a l _ IH Ha]; [constructor|].
  rewrite reverse_cons. apply StronglySorted_app_2.
  - intros x1 x2 Hx1 ->%list_elem_of_singleton. unfold flip.
    rewrite Forall_forall in Ha. apply Ha. by apply elem_of_reverse.
  - exact IH.
  - repeat constructor.
Qed.

(** The full history, against the order of the index. *)
Lemma backwards_sorted s :
  StronglySorted (fun a c => String.le (viewedAt c) (viewedAt a)) (reverse (openCursor s)).
Proof.
  pose proof (StronglySorted_reverse _ _ (openCursor_sorted s)) as Hsorted.
  rewrite <- (list_fmap_id (reverse (openCursor s))).
  eapply StronglySorted_fmap; [|exact Hsorted].
  intros x y Hxy. by apply index_le_viewedAt.
Qed.

(** X26: [getHistory] returns records of the history against the order
    of the [viewedAt] index, the record whose [viewedAt] text sorts last
    coming first; with a positive [limit] at most that many, and then the
    text of every record it leaves out sorts no later than the one of
    every record it returns; without [limit], and with a [limit] of 0
    alike, it returns all of them.  The texts are compared as strings,
    not as the instants they denote. *)
Theorem getHistory_returns_index_backwards limit b :
  let result := fst (getHistory limit b) in
  StronglySorted (fun a c => String.le (viewedAt c) (viewedAt a)) result
  /\ (forall e, e ∈ result -> e ∈ records (store b))
  /\ (forall e r, e ∈ records (store b) -> e ∉ result -> r ∈ result ->
        String.le (viewedAt e) (viewedAt r))
  /\ (forall n, limit = Some n -> 0 < n -> (length result <= Z.to_nat n)%nat)
  /\ (limit = None \/ limit = Some 0 -> indexedDB_available b = true ->
      length result = size (store b)).
Proof.
  unfold getHistory, openDB.
  destruct (indexedDB_available b); cbn [fst].
  2:{ split; [constructor|]. split; [by intros e ?%elem_of_nil|].
      split; [by intros e r _ _ ?%elem_of_nil|]. split; [simpl; lia|]. by intros _ ?. }
  set (all := reverse (openCursor (store b))).
  assert (Hsorted : StronglySorted (fun a c => String.le (viewedAt c) (viewedAt a)) all)
    by apply backwards_sorted.
  assert (Hall : forall e, e ∈ all <-> e ∈ records (store b)).
  { intros e. unfold all. by rewrite elem_of_reverse, openCursor_Permutation. }
  assert (Hlen : length all = size (store b)).
  { unfold all. by rewrite length_reverse, openCursor_length. }
  assert (Hfull : StronglySorted (fun a c => String.le (viewedAt c) (viewedAt a)) all
                  /\ (forall e, e ∈ all -> e ∈ records (store b))
                  /\ (forall e r, e ∈ records (store b) -> e ∉ all -> r ∈ all ->
                        String.le (viewedAt e) (viewedAt r))).
  { split; [done|]. split; [intros e; apply Hall|].
    intros e r He Hout. by apply Hall in He. }
  destruct limit as [n|].
  2:{ destruct Hfull as (? & ? & ?). by repeat split. }
  destruct (Z.eqb_spec n 0) as [->|Hn].
  { destruct Hfull as (? & ? & ?). repeat split; try done.
    intros n [= <-]. lia. }
  split; [by apply StronglySorted_take|].
  split; [intros e He; by apply subseteq_take, Hall in He|].
  split.
  - intros e r He Hout Hr. apply Hall in He.
    rewrite <- (take_drop (Z.to_nat n) all) in Hsorted, He.
    apply elem_of_app in He as [He|He]; [done|].
    apply (StronglySorted_app_1_elem_of _ _ _ r e Hsorted Hr He).
  - split; [intros n' [= <-] _; rewrite length_take; lia|].
    intros [Hlimit | [= Hlimit]]; [done | by destruct Hn].
Qed.

Lemma getHistory_returns_index_backwards_witness :
  let b := sample_browser 55 fifty_entries in
  let result := fst (getHistory (Some 3) b) in
  slug <$> result = ["pa"; "p`"; "p_"]
  /\ (length result <= 3)%nat
  /\ length (fst (getHistory (Some 0) b)) = 50%nat.
Proof.
  intros b result.
  destruct (getHistory_returns_index_backwards (Some 3) b) as (_ & _ & _ & Hlimit & _).
  destruct (getHistory_returns_index_backwards (Some 0) b) as (_ & _ & _ & _ & Hall).
  split; [vm_compute; reflexivity|].
  split; [apply (Hlimit 3); [reflexivity | lia]|].
  rewrite Hall; [vm_compute; reflexivity | by right | reflexivity].
Defined.

(** The extremum of a non-empty array, as [reduce] finds it. *)
Lemma reduce_extremum (better : PasteHistoryEntry -> PasteHistoryEntry -> bool)
    (key : PasteHistoryEntry -> Z) l m :
  (forall a c, if better a c then key a <= key c else key c <= key a) ->
  reduce (fun a c => if better a c then a else c) l = Some m ->
  m ∈ l /\ forall x, x ∈ l -> key m <= key x.
Proof.
  intros Hbetter. destruct l as [|first rest]; [done|]. simpl. intros [= <-].
  assert (Hfold : forall rest first,
            let m := foldl (fun a c => if better a c then a else c) first rest in
            m ∈ first :: rest /\ key m <= key first
            /\ forall x, x ∈ rest -> key m <= key x).
  { clear -Hbetter. intros rest. induction rest as [|c rest IH]; intros first; simpl.
    - split; [apply list_elem_of_here|]. split; [lia|]. by intros x ?%elem_of_nil.
    - specialize (Hbetter first c).
      destruct (better first c).
      + destruct (IH first) as (Hin & Hfirst & Hrest).
        split; [apply elem_of_cons in Hin as [->|Hin];
                [apply list_elem_of_here | by do 2 apply list_elem_of_further]|].
        split; [done|]. intros x [->|Hx]%elem_of_cons; [lia | by apply Hrest].
      + destruct (IH c) as (Hin & Hc & Hrest).
        split; [by apply list_elem_of_further|].
        split; [lia|]. intros x [->|Hx]%elem_of_cons; [done | by apply Hrest]. }
  destruct (Hfold rest first) as (Hin & Hfirst & Hrest).
  split; [done|]. intros x [->|Hx]%elem_of_cons; [done | by apply Hrest].
Qed.

(** X27: the statistics of the history add up: [totalCount] is the number
    of records and is [ownedCount + viewedCount]; [oldestPaste] is the
    slug of a record whose [createdAt] is the least of all, [newestPaste]
    of one whose [createdAt] is the greatest; both are [null] exactly
    when the history is empty (or cannot be opened). *)
Theorem getHistoryStats_adds_up b :
  let stats := fst (getHistoryStats b) in
  totalCount stats = (ownedCount stats + viewedCount stats)%nat
  /\ totalCount stats = (if indexedDB_available b then size (store b) else 0%nat)
  /\ (forall k, oldestPaste stats = Some k ->
        exists e, e ∈ records (store b) /\ slug e = k
                  /\ forall e', e' ∈ records (store b) -> createdAt e <= createdAt e')
  /\ (forall k, newestPaste stats = Some k ->
        exists e, e ∈ records (store b) /\ slug e = k
                  /\ forall e', e' ∈ records (store b) -> createdAt e' <= createdAt e)
  /\ (totalCount stats = 0%nat <-> oldestPaste stats = None)
  /\ (totalCount stats = 0%nat <-> newestPaste stats = None).
Proof.
  unfold getHistoryStats, getHistory, openDB.
  destruct (indexedDB_available b); cbn [fst totalCount ownedCount viewedCount
                                          oldestPaste newestPaste].
  2:{ by repeat split. }
  set (all := reverse (openCursor (store b))).
  assert (Hall : forall e, e ∈ all <-> e ∈ records (store b)).
  { intros e. unfold all. by rewrite elem_of_reverse, openCursor_Permutation. }
  assert (Hlen : length all = size (store b)).
  { unfold all. by rewrite length_reverse, openCursor_length. }
  split; [symmetry; apply filter_length|]. split; [done|].
  split; [|split; [|split]].
  - intros k Hk.
    destruct (reduce _ all) as [m|] eqn:Hm; [|done]. injection Hk as <-.
    apply (reduce_extremum (fun a c => createdAt a <? createdAt c) createdAt)
      in Hm as [Hin Hmin].
    + exists m. split; [by apply Hall|]. split; [done|].
      intros e' He'. by apply Hmin, Hall.
    + intros a c. destruct (Z.ltb_spec (createdAt a) (createdAt c)); lia.
  - intros k Hk.
    destruct (reduce _ all) as [m|] eqn:Hm; [|done]. injection Hk as <-.
    apply (reduce_extremum (fun a c => createdAt c <? createdAt a)
             (fun e => - createdAt e)) in Hm as [Hin Hmax].
    + exists m. split; [by apply Hall|]. split; [done|].
      intros e' He'. apply Hall, Hmax in He'. lia.
    + intros a c. destruct (Z.ltb_spec (createdAt c) (createdAt a)); lia.
  - by destruct all.
  - by destruct all.
Qed.

Lemma getHistoryStats_adds_up_witness :
  let b := sample_browser 55
             [sample_entry "mine" 3 true; sample_entry "seen" 2 false;
              sample_entry "old" 1 false] in
  fst (getHistoryStats b)
  = {| totalCount := 3; ownedCount := 1; viewedCount := 2;
       oldestPaste := Some "old"; newestPaste := Some "mine" |}
  /\ exists e, e ∈ records (store b) /\ slug e = "old"
               /\ forall e', e' ∈ records (store b) -> createdAt e <= createdAt e'.
Proof.
  intros b. split; [vm_compute; reflexivity|].
  destruct (getHistoryStats_adds_up b) as (_ & _ & Hold & _).
  apply Hold. vm_compute. reflexivity.
Defined.

End History.
